(** * build_docs.py: the documentation build script, embedded and verified

    The development follows src/build_docs.py function by function.
    Python text ([str]) is a list of characters, a character being a code
    point below 256.  Whitespace is Python's on that range.  The case
    mapping behind [str.title] is that of ASCII, where the script's own
    names live: Python's mapping of some letters above 127, the micro
    sign and the y with diaeresis among them, leaves the range, so a
    statement about the value of a title made from a file name is made
    for a name in ASCII.  A [pathlib] path is the tuple of its parts.
    Code that can raise returns [option], [None] standing for the
    exception.  The Markdown renderer is a parameter of [build_page].
    The driver [main] runs on a world made of the file tree and the lines
    printed so far. *)

From Stdlib Require Import List Ascii Arith Lia Bool.
From Stdlib Require String.
From Stdlib Require DecimalString.
From Stdlib Require Import Sorting.Sorted Sorting.Permutation.
Import ListNotations.
Import String.StringSyntax.
Open Scope string_scope.
Open Scope list_scope.

Set Implicit Arguments.

(* ================================================================= *)
(** ** Text *)

Definition str := list ascii.

(** String literals are read as character lists. *)
Coercion String.list_ascii_of_string : String.string >-> list.

Fixpoint str_eqb (a b : str) : bool :=
  match a, b with
  | [], [] => true
  | x :: a', y :: b' => Ascii.eqb x y && str_eqb a' b'
  | _, _ => false
  end.

(** [s.startswith(p)] *)
Fixpoint startswith (p s : str) : bool :=
  match p, s with
  | [], _ => true
  | x :: p', y :: s' => Ascii.eqb x y && startswith p' s'
  | _ :: _, [] => false
  end.

(** [s.endswith(p)] *)
Definition endswith (p s : str) : bool :=
  startswith (rev p) (rev s).

(** [sep.join(parts)] *)
Fixpoint join (sep : str) (parts : list str) : str :=
  match parts with
  | [] => []
  | [p] => p
  | p :: rest => p ++ sep ++ join sep rest
  end.

(** The scan behind [str.replace] for a non-empty [old]: occurrences are
    found left to right and do not overlap.  [skip] counts the characters
    of the occurrence just replaced that are still to be stepped over. *)
Fixpoint replace_scan (old new : str) (skip : nat) (s : str) : str :=
  match s with
  | [] => []
  | c :: s' =>
      match skip with
      | S k => replace_scan old new k s'
      | O =>
          if startswith old s
          then new ++ replace_scan old new (length old - 1) s'
          else c :: replace_scan old new 0 s'
      end
  end.

(** [s.replace(old, new)], every occurrence (no [count] argument).  For an
    empty [old] Python inserts [new] before every character and at the
    end. *)
Definition str_replace (old new s : str) : str :=
  match old with
  | [] => new ++ flat_map (fun c => c :: new) s
  | _ :: _ => replace_scan old new 0 s
  end.

(** [s.rfind(c)] for a single character; [None] is Python's -1. *)
Fixpoint rfind (c : ascii) (s : str) : option nat :=
  match s with
  | [] => None
  | x :: s' =>
      match rfind c s' with
      | Some i => Some (S i)
      | None => if Ascii.eqb x c then Some 0 else None
      end
  end.

(* ================================================================= *)
(** ** Paths (pathlib.PurePosixPath, relative) *)

Definition path := list str.

(** [p.name]: the last part, empty for the empty path. *)
Definition path_name (p : path) : str := last p [].

(** [p.parent] *)
Definition path_parent (p : path) : path := removelast p.

(** [p / child] where [child] is a single component, as every right
    operand of [/] in the script is. *)
Definition path_div (p : path) (child : str) : path := p ++ [child].

(** [str(p)] *)
Definition path_str (p : path) : str :=
  match p with
  | [] => "."
  | _ :: _ => join "/" p
  end.

(** [PurePath.suffix] of a file name: the part from the last dot on,
    unless that dot is the first or the last character. *)
Definition name_suffix (name : str) : str :=
  match rfind "." name with
  | Some i => if (0 <? i) && (i <? length name - 1) then skipn i name else []
  | None => []
  end.

(** [PurePath.stem] *)
Definition name_stem (name : str) : str :=
  match rfind "." name with
  | Some i => if (0 <? i) && (i <? length name - 1) then firstn i name else name
  | None => name
  end.

Definition path_stem (p : path) : str := name_stem (path_name p).

(** [p.with_suffix(suffix)]; [ValueError] on an empty name. *)
Definition with_suffix (p : path) (suffix : str) : option path :=
  let name := path_name p in
  match name with
  | [] => None
  | _ :: _ =>
      let old_suffix := name_suffix name in
      let name' :=
        match old_suffix with
        | [] => name ++ suffix
        | _ :: _ => firstn (length name - length old_suffix) name ++ suffix
        end in
      Some (removelast p ++ [name'])
  end.

(** [p.relative_to(base)]; [ValueError] when [base] is not a prefix. *)
Fixpoint relative_to (p base : path) {struct base} : option path :=
  match base with
  | [] => Some p
  | b :: base' =>
      match p with
      | [] => None
      | x :: p' => if str_eqb x b then relative_to p' base' else None
      end
  end.

(* ================================================================= *)
(** ** Configuration *)

Definition DOCS_DIR : path := ["docs" : str].

(** (title, url, section_dir); [None] is Python's [None]. *)
Definition nav_entry : Type := (str * str * option str)%type.

Definition NAV_STRUCTURE : list nav_entry :=
  [ ("Home" : str, "index.html" : str, None);
    ("Quickstart" : str, "quickstart.html" : str, None);
    ("Quick Reference" : str, "quick-reference.html" : str, None);
    ("Getting Started" : str, "getting-started/index.html" : str, Some ("getting-started" : str));
    ("Core Guides" : str, "core-guides/index.html" : str, Some ("core-guides" : str));
    ("Intermediate" : str, "intermediate/index.html" : str, Some ("intermediate" : str));
    ("Advanced" : str, "advanced/index.html" : str, Some ("advanced" : str));
    ("Key Concepts" : str, "key-concepts/index.html" : str, Some ("key-concepts" : str));
    ("Background" : str, "background/index.html" : str, Some ("background" : str));
    ("Reference" : str, "reference/index.html" : str, Some ("reference" : str));
    ("Troubleshooting" : str, "troubleshooting/index.html" : str, Some ("troubleshooting" : str)) ].

(* ================================================================= *)
(** ** md_to_html_path *)

Definition md_to_html_path (md_path : path) : option str :=
  match relative_to md_path DOCS_DIR with
  | None => None
  | Some rel =>
      if str_eqb (path_name rel) "README.md"
      then Some (path_str (path_div (path_parent rel) "index.html"))
      else option_map path_str (with_suffix rel ".html")
  end.

(* ================================================================= *)
(** ** Characters *)

Definition newline : ascii := "010".
Definition quote : str := ["034"%char].

(** [str.isspace] on one character, which is also the class [\s] of an
    [re] pattern over [str] and what [str.strip] removes: tab to carriage
    return, the four separators 28 to 31, space, and, above 127, the next
    line control 133 and the no-break space 160. *)
Definition is_space (c : ascii) : bool :=
  let n := nat_of_ascii c in
  ((9 <=? n) && (n <=? 13)) || ((28 <=? n) && (n <=? 31)) || (n =? 32)
  || (n =? 133) || (n =? 160).

(** The class [.] (without [re.DOTALL]). *)
Definition not_newline (c : ascii) : bool := negb (Ascii.eqb c newline).

(** The class [[^)]]. *)
Definition not_rparen (c : ascii) : bool := negb (Ascii.eqb c ")").

Definition is_lower (c : ascii) : bool :=
  let n := nat_of_ascii c in (97 <=? n) && (n <=? 122).

Definition is_upper (c : ascii) : bool :=
  let n := nat_of_ascii c in (65 <=? n) && (n <=? 90).

Definition to_upper (c : ascii) : ascii :=
  if is_lower c then ascii_of_nat (nat_of_ascii c - 32) else c.

Definition to_lower (c : ascii) : ascii :=
  if is_upper c then ascii_of_nat (nat_of_ascii c + 32) else c.

(** [s.lstrip()], [s.rstrip()], [s.strip()] *)
Fixpoint lstrip (s : str) : str :=
  match s with
  | [] => []
  | c :: s' => if is_space c then lstrip s' else s
  end.

Definition rstrip (s : str) : str := rev (lstrip (rev s)).

Definition strip (s : str) : str := rstrip (lstrip s).

(** [s.title()] for text in ASCII: a cased character, which is a letter
    A to Z or a to z, is upper-cased when the character before it is not
    cased, and lower-cased otherwise. *)
Fixpoint title_scan (previous_is_cased : bool) (s : str) : str :=
  match s with
  | [] => []
  | c :: s' =>
      (if previous_is_cased then to_lower c else to_upper c)
        :: title_scan (is_lower c || is_upper c) s'
  end.

Definition str_title (s : str) : str := title_scan false s.

(** [s[i:j]] for [0 <= i] and [0 <= j] *)
Definition slice (s : str) (i j : nat) : str := firstn (j - i) (skipn i s).

(* ================================================================= *)
(** ** Regular expressions ([re])

    The fragment the script's four patterns are written in: a pattern is a
    sequence of literal characters, greedy repetitions of a character
    class, the anchors [^] and [$] as [re.MULTILINE] reads them, and the
    parentheses of one capturing group.  The matcher backtracks as [re]
    does: a repetition first takes as many characters as it can and gives
    them back one at a time while the rest of the pattern fails. *)

Inductive atom : Type :=
| Chr (c : ascii)
| Rep (cls : ascii -> bool) (min : nat)
| Bol
| Eol
| GOpen
| GClose.

Definition regex := list atom.

(** A literal run of characters. *)
Definition lits (s : str) : regex := map Chr s.

(** End position and span of group 1. *)
Definition match_result : Type := (nat * (nat * nat))%type.

(** Greedy repetition of [cls], at least [min] times, [n] taken so far,
    then the continuation [k]. *)
Fixpoint greedy (cls : ascii -> bool) (min : nat)
    (k : option ascii -> str -> nat -> option match_result)
    (prev : option ascii) (s : str) (pos n : nat) {struct s}
  : option match_result :=
  let stop := if min <=? n then k prev s pos else None in
  match s with
  | x :: s' =>
      if cls x then
        match greedy cls min k (Some x) s' (S pos) (S n) with
        | Some r => Some r
        | None => stop
        end
      else stop
  | [] => stop
  end.

(** Match [re] at the head of [s]; [prev] is the character before it (for
    [^]), [pos] the position of the head, [g] the span of group 1 so far. *)
Fixpoint match_at (re : regex) (prev : option ascii) (s : str) (pos : nat)
    (g : nat * nat) {struct re} : option match_result :=
  match re with
  | [] => Some (pos, g)
  | Chr c :: re' =>
      match s with
      | x :: s' =>
          if Ascii.eqb x c then match_at re' (Some x) s' (S pos) g else None
      | [] => None
      end
  | Rep cls min :: re' =>
      greedy cls min (fun prev' s' pos' => match_at re' prev' s' pos' g)
        prev s pos 0
  | Bol :: re' =>
      match prev with
      | None => match_at re' prev s pos g
      | Some x => if Ascii.eqb x newline then match_at re' prev s pos g else None
      end
  | Eol :: re' =>
      match s with
      | [] => match_at re' prev s pos g
      | x :: _ => if Ascii.eqb x newline then match_at re' prev s pos g else None
      end
  | GOpen :: re' => match_at re' prev s pos (pos, snd g)
  | GClose :: re' => match_at re' prev s pos (fst g, pos)
  end.

(** A match object: start, end, span of group 1. *)
Record re_match : Type := MkMatch {
  m_start : nat;
  m_end : nat;
  m_span1 : nat * nat
}.

(** [re.search]: the leftmost position where the pattern matches. *)
Fixpoint search_from (re : regex) (prev : option ascii) (s : str) (i : nat)
  : option re_match :=
  match match_at re prev s i (0, 0) with
  | Some (e, g) => Some (MkMatch i e g)
  | None =>
      match s with
      | [] => None
      | x :: s' => search_from re (Some x) s' (S i)
      end
  end.

Definition re_search (re : regex) (s : str) : option re_match :=
  search_from re None s 0.

(** [m.group(1)] for a match [m] in [s] *)
Definition group1 (s : str) (m : re_match) : str :=
  slice s (fst (m_span1 m)) (snd (m_span1 m)).

(** A replacement template: literal text and references to group 1. *)
Inductive repl_item : Type :=
| RLit (t : str)
| RGroup1.

Definition expand (repl : list repl_item) (grp : str) : str :=
  flat_map (fun i => match i with RLit t => t | RGroup1 => grp end) repl.

(** [re.sub]: matches are replaced left to right and do not overlap;
    [skip] counts the characters of the last match still to be stepped
    over.  After an empty match the next character is copied. *)
Fixpoint sub_scan (re : regex) (repl : list repl_item)
    (prev : option ascii) (s : str) (skip : nat) {struct s} : str :=
  match skip with
  | S k =>
      match s with
      | [] => []
      | x :: s' => sub_scan re repl (Some x) s' k
      end
  | O =>
      match match_at re prev s 0 (0, 0) with
      | Some (e, (gs, ge)) =>
          expand repl (slice s gs ge) ++
          match s with
          | [] => []
          | x :: s' =>
              match e with
              | O => x :: sub_scan re repl (Some x) s' 0
              | S e' => sub_scan re repl (Some x) s' e'
              end
          end
      | None =>
          match s with
          | [] => []
          | x :: s' => x :: sub_scan re repl (Some x) s' 0
          end
      end
  end.

Definition re_sub (re : regex) (repl : list repl_item) (s : str) : str :=
  sub_scan re repl None s 0.

(* ================================================================= *)
(** ** get_title_from_markdown *)

(** The pattern [^#\s+(.+)$] with [re.MULTILINE] *)
Definition HEADING_RE : regex :=
  [Bol; Chr "#"; Rep is_space 1; GOpen; Rep not_newline 1; GClose; Eol].

Definition get_title_from_markdown (content : str) (filepath : path) : str :=
  match re_search HEADING_RE content with
  | Some m => strip (group1 content m)
  | None =>
      let name := path_stem filepath in
      let name :=
        if str_eqb name "README" || str_eqb name "index"
        then path_name (path_parent filepath)
        else name in
      str_title (str_replace "_" " " (str_replace "-" " " name))
  end.

(* ================================================================= *)
(** ** The file system

    A tree of directories and text files, rooted at the working
    directory.  The entries of a directory are kept in the order the
    operating system lists them. *)

#[warnings="-register-all"]
Inductive node : Type :=
| File (text : str)
| Dir (entries : list (str * node)).

Fixpoint lookup (n : node) (p : path) {struct n} : option node :=
  match p with
  | [] => Some n
  | c :: p' =>
      match n with
      | File _ => None
      | Dir entries =>
          (fix find (es : list (str * node)) : option node :=
             match es with
             | [] => None
             | (name, child) :: es' =>
                 if str_eqb name c then lookup child p' else find es'
             end) entries
      end
  end.

(** [p.exists()] *)
Definition path_exists (fs : node) (p : path) : bool :=
  match lookup fs p with Some _ => true | None => false end.

(** [p.read_text(encoding='utf-8')]; raises unless [p] is a file. *)
Definition read_text (fs : node) (p : path) : option str :=
  match lookup fs p with
  | Some (File text) => Some text
  | _ => None
  end.

(** [p.glob("*.md")]: the entries of directory [p], files or directories,
    whose name ends in ".md", in listing order. *)
Definition glob_md (fs : node) (p : path) : list path :=
  match lookup fs p with
  | Some (Dir entries) =>
      map (fun e => path_div p (fst e))
          (filter (fun e => endswith ".md" (fst e)) entries)
  | _ => []
  end.

(** Python compares sequences lexicographically: the first position
    where they differ decides, and a proper prefix comes first. *)
Fixpoint lex_ltb {A : Type} (eqb ltb : A -> A -> bool) (a b : list A) : bool :=
  match a, b with
  | _, [] => false
  | [], _ :: _ => true
  | x :: a', y :: b' => if eqb x y then lex_ltb eqb ltb a' b' else ltb x y
  end.

(** Characters are ordered by code point. *)
Definition char_ltb (x y : ascii) : bool := nat_of_ascii x <? nat_of_ascii y.

(** [a < b] on text *)
Definition str_ltb : str -> str -> bool := lex_ltb Ascii.eqb char_ltb.

(** [p < q] on paths: the order of their tuples of parts. *)
Definition path_ltb : path -> path -> bool := lex_ltb str_eqb str_ltb.

(** [sorted(paths)], a stable sort on [<]. *)
Fixpoint insert_sorted (x : path) (l : list path) : list path :=
  match l with
  | [] => [x]
  | y :: l' => if path_ltb x y then x :: l else y :: insert_sorted x l'
  end.

Definition sorted (l : list path) : list path :=
  fold_left (fun acc x => insert_sorted x acc) l [].

(* ================================================================= *)
(** ** get_files_in_section *)

Definition get_files_in_section (fs : node) (section_dir : path) : list path :=
  if negb (path_exists fs section_dir) then []
  else
    let files := [] in
    let readme := path_div section_dir "README.md" in
    let files := if path_exists fs readme then files ++ [readme] else files in
    fold_left
      (fun files f =>
         if negb (str_eqb (path_name f) "README.md") then files ++ [f] else files)
      (sorted (glob_md fs section_dir)) files.

(* ================================================================= *)
(** ** build_sidebar *)

Definition bind {A B : Type} (x : option A) (f : A -> option B) : option B :=
  match x with
  | Some a => f a
  | None => None
  end.

Notation "x <- e ;; k" := (bind e (fun x => k))
  (at level 61, e at next level, right associativity).

(** A [for] loop whose body can raise. *)
Fixpoint for_each {A S : Type} (body : S -> A -> option S) (l : list A) (st : S)
  : option S :=
  match l with
  | [] => Some st
  | a :: l' => st' <- body st a ;; for_each body l' st'
  end.

Definition ACTIVE : str := " class=" ++ quote ++ "active" ++ quote.

(** The three f-strings of [build_sidebar]. *)
Definition child_li (child_url active_class child_title : str) : str :=
  "<li><a href=" ++ quote ++ child_url ++ quote ++ active_class ++ ">"
    ++ child_title ++ "</a></li>".

Definition SECTION_SPAN : str :=
  "<li><span class=" ++ quote ++ "section-title" ++ quote ++ "><a href=" ++ quote.

Definition section_li (url title : str) : str :=
  SECTION_SPAN ++ url ++ quote ++ ">" ++ title ++ "</a></span>".

Definition page_li (url active_class title : str) : str :=
  SECTION_SPAN ++ url ++ quote ++ active_class ++ ">" ++ title ++ "</a></span></li>".

(** The body of the loop over the children of a section. *)
Definition sidebar_child (fs : node) (current_page : str)
    (html : list str) (child : path) : option (list str) :=
  child_url <- md_to_html_path child ;;
  child_content <- read_text fs child ;;
  let child_title := get_title_from_markdown child_content child in
  if str_eqb (path_name child) "README.md" then Some html
  else
    let active_class := if str_eqb current_page child_url then ACTIVE else [] in
    Some (html ++ [child_li child_url active_class child_title]).

(** The body of the loop over [NAV_STRUCTURE]. *)
Definition sidebar_entry (fs : node) (current_page : str)
    (html : list str) (entry : nav_entry) : option (list str) :=
  let '(title, url, section_dir) := entry in
  let is_active := str_eqb current_page url in
  match section_dir with
  | Some ((_ :: _) as section_dir) =>
      let section_path := path_div DOCS_DIR section_dir in
      let children := get_files_in_section fs section_path in
      let html := html ++ [section_li url title] in
      html <-
        match children with
        | [] => Some html
        | _ :: _ =>
            html <- for_each (sidebar_child fs current_page) children
                      (html ++ ["<ul>" : str]) ;;
            Some (html ++ ["</ul>" : str])
        end ;;
      Some (html ++ ["</li>" : str])
  | _ =>
      let active_class := if is_active then ACTIVE else [] in
      Some (html ++ [page_li url active_class title])
  end.

Definition newline_str : str := [newline].

Definition build_sidebar (fs : node) (current_page : str) : option str :=
  html <- for_each (sidebar_entry fs current_page) NAV_STRUCTURE ["<ul>" : str] ;;
  Some (join newline_str (html ++ ["</ul>" : str])).

(* ================================================================= *)
(** ** build_breadcrumb *)

Definition build_breadcrumb (fs : node) (filepath : path) : option str :=
  rel <- relative_to filepath DOCS_DIR ;;
  match rel with
  | [_] => Some []
  | [] => None
  | section :: _ =>
      let section_title := str_title (str_replace "_" " " (str_replace "-" " " section)) in
      if str_eqb (path_name rel) "README.md"
      then Some ("<li>" ++ section_title ++ "</li>")
      else
        page_content <- read_text fs filepath ;;
        let page_title := get_title_from_markdown page_content filepath in
        Some ("<li><a href=" ++ quote ++ "index.html" ++ quote ++ ">" ++ section_title
                ++ "</a></li><li>" ++ page_title ++ "</li>")
  end.

(* ================================================================= *)
(** ** convert_internal_links *)

(** The pattern [\]\(([^)]+)\.md\)] *)
Definition MD_LINK_RE : regex :=
  lits "](" ++ [GOpen; Rep not_rparen 1; GClose] ++ lits ".md)".

(** The pattern [\]\((G)/README\.html\)] where the group G is [[^)]]
    repeated zero or more times ([[^)]] followed by a star) *)
Definition README_LINK_RE : regex :=
  lits "](" ++ [GOpen; Rep not_rparen 0; GClose] ++ lits "/README.html)".

(** The pattern [\]\(README\.html\)] *)
Definition BARE_README_RE : regex := lits "](README.html)".

Definition convert_internal_links (content : str) : str :=
  let content := re_sub MD_LINK_RE [RLit "]("; RGroup1; RLit ".html)"] content in
  let content := re_sub README_LINK_RE [RLit "]("; RGroup1; RLit "/index.html)"] content in
  let content := re_sub BARE_README_RE [RLit "](index.html)"] content in
  content.

(* ================================================================= *)
(** ** build_page *)

(** The four [replace] calls that fill the template. *)
Definition fill_template (template title sidebar breadcrumb html_content : str) : str :=
  let page := str_replace "{{title}}" title template in
  let page := str_replace "{{sidebar}}" sidebar page in
  let page := str_replace "{{breadcrumb}}" breadcrumb page in
  let page := str_replace "{{content}}" html_content page in
  page.

(** [md_convert] is the Markdown renderer, [md.convert] of the external
    library, configured as in the script. *)
Definition build_page (md_convert : str -> str) (fs : node)
    (md_path : path) (template : str) : option str :=
  content <- read_text fs md_path ;;
  let title := get_title_from_markdown content md_path in
  let content := convert_internal_links content in
  let html_content := md_convert content in
  html_path <- md_to_html_path md_path ;;
  sidebar <- build_sidebar fs html_path ;;
  breadcrumb <- build_breadcrumb fs md_path ;;
  Some (fill_template template title sidebar breadcrumb html_content).

(* ================================================================= *)
(** ** Vocabulary of the specification *)

(** [sub in s] *)
Definition contains (sub s : str) : Prop := exists a b, s = a ++ sub ++ b.

(** The four placeholders of the page template. *)
Inductive placeholder : Type := PTitle | PSidebar | PBreadcrumb | PContent.

Definition token (p : placeholder) : str :=
  match p with
  | PTitle => "{{title}}"
  | PSidebar => "{{sidebar}}"
  | PBreadcrumb => "{{breadcrumb}}"
  | PContent => "{{content}}"
  end.

(** A template seen as literal text with holes. *)
Inductive segment : Type :=
| Text (t : str)
| Hole (p : placeholder).

Definition template_text (segs : list segment) : str :=
  flat_map (fun s => match s with Text t => t | Hole p => token p end) segs.

(** The template with every hole replaced by its value. *)
Definition filled (value : placeholder -> str) (segs : list segment) : str :=
  flat_map (fun s => match s with Text t => t | Hole p => value p end) segs.

Definition brace_free (t : str) : Prop := ~ In "{"%char t.

Definition literal_braces_free (segs : list segment) : Prop :=
  forall t, In (Text t) segs -> brace_free t.

Definition placeholder_eqb (p q : placeholder) : bool :=
  match p, q with
  | PTitle, PTitle | PSidebar, PSidebar
  | PBreadcrumb, PBreadcrumb | PContent, PContent => true
  | _, _ => false
  end.

(** Fill the holes [q] with the text [v]. *)
Definition fill_hole (q : placeholder) (v : str) (s : segment) : segment :=
  match s with
  | Text t => Text t
  | Hole p => if placeholder_eqb p q then Text v else Hole p
  end.

(** The names of the entries of directory [p]. *)
Definition dir_names (fs : node) (p : path) : list str :=
  match lookup fs p with
  | Some (Dir entries) => map fst entries
  | _ => []
  end.

(** [a <= b] on text and on paths. *)
Definition str_le (a b : str) : Prop := str_ltb b a = false.
Definition path_le (p q : path) : Prop := path_ltb q p = false.

Definition is_readme (f : path) : bool := str_eqb (path_name f) "README.md".

(** A section file that the sidebar lists under its own name. *)
Definition listed_name (name : str) : bool :=
  endswith ".md" name && negb (str_eqb name "README.md").

Definition can_read (fs : node) (f : path) : bool :=
  match read_text fs f with Some _ => true | None => false end.

(** Every file of the section of a navigation entry can be read. *)
Definition entry_readable (fs : node) (e : nav_entry) : bool :=
  match snd e with
  | Some d => forallb (can_read fs) (get_files_in_section fs (path_div DOCS_DIR d))
  | None => true
  end.

(** Every file of every configured section can be read. *)
Definition all_readable (fs : node) : bool :=
  forallb (entry_readable fs) NAV_STRUCTURE.

(** The files the sidebar lists under a section: the sorted "*.md"
    entries other than README.md. *)
Definition listed_files (fs : node) (section_dir : path) : list path :=
  filter (fun f => negb (is_readme f)) (sorted (glob_md fs section_dir)).


Definition active_class_for (current_page url : str) : str :=
  if str_eqb current_page url then ACTIVE else [].

(** [line] is the link of the section file [f] in the sidebar of the page
    [current_page]. *)
Definition child_link (fs : node) (current_page : str) (f : path) (line : str) : Prop :=
  exists child_url content,
    md_to_html_path f = Some child_url /\ read_text fs f = Some content /\
    line = child_li child_url (active_class_for current_page child_url)
             (get_title_from_markdown content f).

(** The nested list of a section with the files [children]. *)
Definition nested_list (children : list path) (lines : list str) : list str :=
  match children with
  | [] => []
  | _ :: _ => ("<ul>" : str) :: lines ++ ["</ul>" : str]
  end.

(** The line that opens the sidebar entry of a navigation entry. *)
Definition entry_first_line (current_page : str) (e : nav_entry) : str :=
  let '(title, url, section_dir) := e in
  match section_dir with
  | Some (_ :: _) => section_li url title
  | _ => page_li url (active_class_for current_page url) title
  end.

(** [sub in s], decided. *)
Fixpoint occurs (sub s : str) : bool :=
  startswith sub s ||
  match s with
  | [] => false
  | _ :: s' => occurs sub s'
  end.

(** How a browser resolves the relative reference [href] on the page at
    [base]: the last segment of the page's path is replaced
    (RFC 3986, 5.2.3). *)
Definition url_resolve (base href : str) : str :=
  match rfind "/" base with
  | Some i => firstn (S i) base ++ href
  | None => href
  end.

(** [pre] ends where a line starts. *)
Definition at_line_start (pre : str) : Prop :=
  pre = [] \/ exists p, pre = p ++ [newline].

(** No line of [pre] opens the way a heading does: where a line of [pre]
    starts with "#", the character after it is not whitespace. *)
Definition no_hash_space (pre : str) : Prop :=
  forall a b, pre = a ++ "#"%char :: b -> at_line_start a ->
              exists x b', b = x :: b' /\ is_space x = false.

(** The character before the position reached after reading [a]. *)
Definition prev_after (prev : option ascii) (a : str) : option ascii :=
  fold_left (fun _ x => Some x) a prev.


(** Text in ASCII. *)
Definition is_ascii (c : ascii) : bool := nat_of_ascii c <? 128.
Definition ascii_text (s : str) : Prop := forallb is_ascii s = true.

(** *** Links of the sidebar, as they are rendered *)

(** The attribute that marks a link active. *)
Definition active_attr : str := " class=" ++ quote ++ "active" ++ quote.

(** The opening tag of a link to [url], marked active or not. *)
Definition anchor_tag (url : str) (active : bool) : str :=
  "<a href=" ++ quote ++ url ++ quote
    ++ (if active then active_attr else []) ++ ">".

(** [tag] is the opening tag of a link to [url] that is marked active
    exactly when [url] is the current page's. *)
Definition marked_when_current (current_page url tag : str) : Prop :=
  (current_page = url -> tag = anchor_tag url true)
  /\ (current_page <> url -> tag = anchor_tag url false).

(** What opens the line of a navigation entry. *)
Definition title_span : str :=
  "<li><span class=" ++ quote ++ "section-title" ++ quote ++ ">".

(** [line] is the rendered link of the section file [f] in the sidebar of
    the page [current_page]. *)
Definition rendered_child (fs : node) (current_page : str) (f : path) (line : str)
  : Prop :=
  exists child_url content tag,
    md_to_html_path f = Some child_url /\ read_text fs f = Some content
    /\ marked_when_current current_page child_url tag
    /\ line = "<li>" ++ tag ++ get_title_from_markdown content f ++ "</a></li>".

(** [block] is the rendered block of the navigation entry [e] in the
    sidebar of the page [current_page]: for an entry with a section
    directory, a link that is never marked, then the links of the
    section's files; for one without, a single link. *)
Definition rendered_entry (fs : node) (current_page : str)
    (e : nav_entry) (block : list str) : Prop :=
  let '(title, url, section_dir) := e in
  match section_dir with
  | Some dir =>
      let children := get_files_in_section fs (path_div DOCS_DIR dir) in
      exists lines,
        block = (title_span ++ anchor_tag url false ++ title ++ "</a></span>")
                  :: nested_list children lines ++ ["</li>" : str]
        /\ occurs active_attr
             (title_span ++ anchor_tag url false ++ title ++ "</a></span>") = false
        /\ Forall2 (rendered_child fs current_page)
             (filter (fun f => negb (is_readme f)) children) lines
  | None =>
      exists tag,
        marked_when_current current_page url tag
        /\ block = [title_span ++ tag ++ title ++ "</a></span></li>"]
  end.
(* ================================================================= *)
(** ** Example inputs *)

(** The documentation tree of the specification's end-to-end example,
    with one more top-level page whose text mentions a placeholder. *)
Definition example_docs : node :=
  Dir [ ("docs" : str,
         Dir [ ("index.md" : str, File "# Welcome");
               ("quickstart.md" : str, File "See {{title}}.");
               ("getting-started" : str,
                Dir [ ("install.md" : str, File "# Install");
                      ("README.md" : str, File "# Getting Started") ]) ]) ].

(** A section with a subdirectory of its own. *)
Definition nested_docs : node :=
  Dir [ ("docs" : str,
         Dir [ ("getting-started" : str,
                Dir [ ("README.md" : str, File "# Getting Started");
                      ("tutorials" : str,
                       Dir [ ("README.md" : str, File "# Tutorials");
                             ("first.md" : str, File "# First Steps") ]) ]) ]) ].

(** What the Markdown renderer makes of a document that is one plain
    paragraph. *)
Definition render_paragraph (text : str) : str := "<p>" ++ text ++ "</p>".

(* ================================================================= *)
(** ** Auxiliary definitions for the proofs about the link rewriter *)

(** The pattern has no [^]. *)
Fixpoint no_bol (re : regex) : bool :=
  match re with
  | [] => true
  | Bol :: _ => false
  | _ :: re' => no_bol re'
  end.

(** The shape shared by the two link patterns with a group: "](", the
    group of at least [min] characters other than ")", the literal tail
    [T], and the closing ")". *)
Definition link_re (min : nat) (T : str) : regex :=
  lits "](" ++ [GOpen; Rep not_rparen min; GClose] ++ lits (T ++ ")").

Definition link_repl (R : str) : list repl_item :=
  [RLit "]("; RGroup1; RLit (R ++ ")")].

(** What follows the group in a match of [link_re]: the group closes and
    the tail is read. *)
Definition link_k (T : str) : option ascii -> str -> nat -> option match_result :=
  fun prev' s' pos' => match_at (GClose :: lits (T ++ ")")) prev' s' pos' (2, 0).

Definition strip_prefix (p s : str) : option str :=
  if startswith p s then Some (skipn (length p) s) else None.

Definition strip_suffix (t s : str) : option str :=
  if endswith t s then Some (firstn (length s - length t) s) else None.

(** A link target is the text between two closing parentheses.  What a
    link substitution does when a match starts at the head of the rest
    [c] of a target: *)
Definition link_rewrite (min : nat) (T R : str) (c : str) : option str :=
  match strip_prefix "](" c with
  | Some r =>
      match strip_suffix T r with
      | Some X => if min <=? length X then Some ("](" ++ X ++ R) else None
      | None => None
      end
  | None => None
  end.

Definition bare_rewrite (c : str) : option str :=
  if str_eqb c "](README.html" then Some ("](index.html" : str) else None.

(** A substitution on one link target: the first position where the
    rewrite applies decides. *)
Fixpoint chunk_sub (rw : str -> option str) (c : str) : str :=
  match rw c with
  | Some out => out
  | None =>
      match c with
      | [] => []
      | x :: c' => x :: chunk_sub rw c'
      end
  end.

Definition rparen_free (c : str) : Prop := forallb not_rparen c = true.

Definition BARE : str := "](README.html".

(** The three substitutions on one link target. *)
Definition md_rewrite := link_rewrite 1 ".md" ".html".
Definition readme_rewrite := link_rewrite 0 "/README.html" "/index.html".

(** What [convert_internal_links] does to one link target. *)
Definition convert_chunk (c : str) : str :=
  chunk_sub bare_rewrite (chunk_sub readme_rewrite (chunk_sub md_rewrite c)).

(* ================================================================= *)
(** ** Further vocabulary *)

(** No line of [content] opens with "#" and a whitespace character. *)
Definition no_heading_line (content : str) : Prop :=
  forall a x b, content = a ++ "#"%char :: x :: b -> at_line_start a ->
                is_space x = false.

(** The name the title falls back on. *)
Definition fallback_name (filepath : path) : str :=
  if str_eqb (path_stem filepath) "README" || str_eqb (path_stem filepath) "index"
  then path_name (path_parent filepath)
  else path_stem filepath.

(** No whitespace at either end. *)
Definition trimmed (t : str) : Prop :=
  match t with
  | [] => True
  | c :: _ => is_space c = false /\ is_space (last t c) = false
  end.

(** [no_heading_line], decided by one pass over the text; [at_start]
    tells whether the head of [s] starts a line. *)
Fixpoint heading_scan (at_start : bool) (s : str) : bool :=
  match s with
  | [] => true
  | c :: s' =>
      (if at_start && Ascii.eqb c "#"
       then match s' with
            | y :: _ => negb (is_space y)
            | [] => true
            end
       else true)
      && heading_scan (Ascii.eqb c newline) s'
  end.


(** A path part holds no separator. *)
Definition no_slash (n : str) : Prop := ~ In "/"%char n.

(** The stem of the page of the Markdown file with stem [S]. *)
Definition page_stem (S : str) : str :=
  if str_eqb S "README" then "index" else S.

(** No closing parenthesis of [content] comes right after ".md" or
    "README.html". *)
Definition no_link_ending (content : str) : Prop :=
  forall a b, content = a ++ ")"%char :: b ->
              endswith ".md" a = false /\ endswith "README.html" a = false.

(** [no_link_ending], decided by one pass; [seen] is the text read so
    far. *)
Fixpoint closing_scan (seen : str) (s : str) : bool :=
  match s with
  | [] => true
  | x :: s' =>
      (if Ascii.eqb x ")"
       then negb (endswith ".md" seen) && negb (endswith "README.html" seen)
       else true)
      && closing_scan (seen ++ [x]) s'
  end.

(** A text that is empty or ends with a closing parenthesis: what comes
    after it starts a new link target. *)
Definition closed_text (pre : str) : Prop :=
  pre = [] \/ exists p, pre = p ++ [")"%char].

(* ================================================================= *)
(** ** Writing to the file system *)

(** The first entry with the given name. *)
Fixpoint find_entry (name : str) (es : list (str * node)) : option node :=
  match es with
  | [] => None
  | (k, v) :: es' => if str_eqb k name then Some v else find_entry name es'
  end.

(** The entry [name] set to [n]: in place when the name is there, at the
    end of the listing otherwise. *)
Fixpoint set_entry (name : str) (n : node) (es : list (str * node))
  : list (str * node) :=
  match es with
  | [] => [(name, n)]
  | (k, v) :: es' =>
      if str_eqb k name then (name, n) :: es' else (k, v) :: set_entry name n es'
  end.

(** The listing without [name]. *)
Definition remove_entry (name : str) (es : list (str * node)) : list (str * node) :=
  filter (fun e => negb (str_eqb (fst e) name)) es.

(** [shutil.rmtree(p)]: raises unless [p] is a directory. *)
Fixpoint rmtree (n : node) (p : path) {struct p} : option node :=
  match p, n with
  | [], _ => None
  | _ :: _, File _ => None
  | [name], Dir es =>
      match find_entry name es with
      | Some (Dir _) => Some (Dir (remove_entry name es))
      | _ => None
      end
  | c :: p', Dir es =>
      child <- find_entry c es ;;
      child' <- rmtree child p' ;;
      Some (Dir (set_entry c child' es))
  end.

(** [p.mkdir(parents=True, exist_ok=True)]: the directories missing on
    the way are made; raises when a file is in the way. *)
Fixpoint mkdir_p (n : node) (p : path) {struct p} : option node :=
  match n with
  | File _ => None
  | Dir es =>
      match p with
      | [] => Some n
      | c :: p' =>
          let child := match find_entry c es with
                       | Some ch => ch
                       | None => Dir []
                       end in
          child' <- mkdir_p child p' ;;
          Some (Dir (set_entry c child' es))
      end
  end.

(** [p.mkdir(parents=True, exist_ok=exist_ok)] *)
Definition mkdir (exist_ok : bool) (fs : node) (p : path) : option node :=
  if path_exists fs p && negb exist_ok then None else mkdir_p fs p.

(** [p.write_text(text)]: the file is made or overwritten; raises when
    the parent is not a directory or [p] is one. *)
Fixpoint write_text (n : node) (p : path) (text : str) {struct p} : option node :=
  match p, n with
  | [], _ => None
  | _ :: _, File _ => None
  | [name], Dir es =>
      match find_entry name es with
      | Some (Dir _) => None
      | _ => Some (Dir (set_entry name (File text) es))
      end
  | c :: p', Dir es =>
      child <- find_entry c es ;;
      child' <- write_text child p' text ;;
      Some (Dir (set_entry c child' es))
  end.

(** The matches of "*.md" in the tree [n] that sits at [p], as
    [p.rglob("*.md")] yields them: the matching entries of a directory in
    listing order, files or directories, then those of its
    subdirectories in turn.  The order across directories is that of
    Python 3.11; the properties of [main] are stated for the list in
    whatever order it comes. *)
Fixpoint rglob_md_in (n : node) (p : path) {struct n} : list path :=
  match n with
  | File _ => []
  | Dir es =>
      map (fun e => path_div p (fst e)) (filter (fun e => endswith ".md" (fst e)) es)
      ++ (fix below (es : list (str * node)) : list path :=
            match es with
            | [] => []
            | (name, child) :: es' => rglob_md_in child (path_div p name) ++ below es'
            end) es
  end.

(** [p.rglob("*.md")]; nothing when [p] is not a directory. *)
Definition rglob_md (fs : node) (p : path) : list path :=
  match lookup fs p with
  | Some n => rglob_md_in n p
  | None => []
  end.

(** The parts of a relative path given as text, as [Path(s)] reads them:
    split at "/", empty parts and "." dropped.  The text [main] passes is
    the result of [md_to_html_path], which does not start with "/". *)
Fixpoint split_slash (s : str) : list str :=
  match s with
  | [] => [[]]
  | x :: s' =>
      if Ascii.eqb x "/" then [] :: split_slash s'
      else match split_slash s' with
           | h :: t => (x :: h) :: t
           | [] => [[x]]
           end
  end.

Definition parse_path (s : str) : path :=
  filter (fun part => negb (str_eqb part []) && negb (str_eqb part "."))
         (split_slash s).

(** [str(n)] for a natural number *)
Definition nat_str (n : nat) : str :=
  String.list_ascii_of_string
    (DecimalString.NilZero.string_of_uint (Nat.to_uint n)).

(* ================================================================= *)
(** ** main *)

Definition TEMPLATE_DIR : path := ["_templates" : str].
Definition OUTPUT_DIR : path := ["site" : str].
Definition TEMPLATE_FILE : path := path_div TEMPLATE_DIR "doc-page.html".

(** What a run of the script acts on: the file tree below the working
    directory and the lines printed. *)
Record world : Type := World { w_fs : node; w_out : list str }.

(** A step of the script: it changes the world and either returns or
    raises ([None]); what was done before an exception stays done. *)
Definition run (A : Type) : Type := world -> world * option A.

Definition ret {A : Type} (a : A) : run A := fun w => (w, Some a).

Definition bind_run {A B : Type} (m : run A) (k : A -> run B) : run B :=
  fun w =>
    match m w with
    | (w', Some a) => k a w'
    | (w', None) => (w', None)
    end.

Notation "x <~ e ;; k" := (bind_run e (fun x => k))
  (at level 61, e at next level, right associativity).
Notation "e ;;; k" := (bind_run e (fun _ => k))
  (at level 61, right associativity).

Definition print (line : str) : run unit :=
  fun w => (World (w_fs w) (w_out w ++ [line]), Some tt).

(** Reading the file tree, with a result or an exception. *)
Definition attempt {A : Type} (f : node -> option A) : run A :=
  fun w => (w, f (w_fs w)).

(** Changing the file tree. *)
Definition update (f : node -> option node) : run unit :=
  fun w =>
    match f (w_fs w) with
    | Some fs' => (World fs' (w_out w), Some tt)
    | None => (w, None)
    end.

Fixpoint for_each_run {A : Type} (body : A -> run unit) (l : list A) : run unit :=
  match l with
  | [] => ret tt
  | a :: l' => body a ;;; for_each_run body l'
  end.

(** [OUTPUT_DIR / html_path_str] *)
Definition output_path_of (html_path_str : str) : path :=
  OUTPUT_DIR ++ parse_path html_path_str.

(** The body of the loop over the Markdown files. *)
Definition main_page (md_convert : str -> str) (template : str) (md_path : path)
  : run unit :=
  html_path_str <~ attempt (fun _ => md_to_html_path md_path) ;;
  let output_path := output_path_of html_path_str in
  update (fun fs => mkdir true fs (path_parent output_path)) ;;;
  html <~ attempt (fun fs => build_page md_convert fs md_path template) ;;
  update (fun fs => write_text fs output_path html) ;;;
  print ("  " ++ path_str md_path ++ " -> " ++ path_str output_path).

Definition main (md_convert : str -> str) : run unit :=
  print "Building DS01 documentation..." ;;;
  output_exists <~ attempt (fun fs => Some (path_exists fs OUTPUT_DIR)) ;;
  (if output_exists then update (fun fs => rmtree fs OUTPUT_DIR) else ret tt) ;;;
  update (fun fs => mkdir false fs OUTPUT_DIR) ;;;
  template <~ attempt (fun fs => read_text fs TEMPLATE_FILE) ;;
  md_files <~ attempt (fun fs => Some (rglob_md fs DOCS_DIR)) ;;
  print ("Found " ++ nat_str (length md_files) ++ " markdown files") ;;;
  for_each_run (main_page md_convert template) md_files ;;;
  print (newline :: "Build complete! Output in " ++ path_str OUTPUT_DIR ++ "/").

(* ================================================================= *)
(** ** Vocabulary for the driver *)

(** The two trees agree on every path that does not start with [top]. *)
Definition same_outside (top : str) (fs fs' : node) : Prop :=
  forall c q, c <> top -> lookup fs' (c :: q) = lookup fs (c :: q).

(** The world after a run, and whether the run ended normally. *)
Definition final {A : Type} (r : world * option A) : world := fst r.
Definition succeeded {A : Type} (r : world * option A) : Prop := snd r <> None.

(** A step that changes nothing outside [top]. *)
Definition keeps_outside {A : Type} (top : str) (m : run A) : Prop :=
  forall w, same_outside top (w_fs w) (w_fs (final (m w))).

(** A working directory with a template, a site built earlier, and the
    documentation tree of the specification's example. *)
Definition site_example : world :=
  World
    (Dir [ ("_templates" : str,
            Dir [ ("doc-page.html" : str,
                   File "<h1>{{title}}</h1>{{content}}") ]);
           ("site" : str, Dir [ ("old.html" : str, File "stale") ]);
           ("docs" : str,
            Dir [ ("index.md" : str, File "# Welcome");
                  ("getting-started" : str,
                   Dir [ ("install.md" : str, File "# Install");
                         ("README.md" : str, File "See [a](install.md)") ]) ]) ])
    [].

(** What [main] does once the output directory has been emptied. *)
Definition build_all (md_convert : str -> str) : run unit :=
  template <~ attempt (fun fs => read_text fs TEMPLATE_FILE) ;;
  md_files <~ attempt (fun fs => Some (rglob_md fs DOCS_DIR)) ;;
  print ("Found " ++ nat_str (length md_files) ++ " markdown files") ;;;
  for_each_run (main_page md_convert template) md_files ;;;
  print (newline :: "Build complete! Output in " ++ path_str OUTPUT_DIR ++ "/").

Definition START_LINE : str := "Building DS01 documentation...".

(** The two trees hold the same documentation. *)
Definition docs_agree (fs fs' : node) : Prop :=
  lookup fs' DOCS_DIR = lookup fs DOCS_DIR.

(** The line printed for a page. *)
Definition page_line (md_path : path) (html_path_str : str) : str :=
  "  " ++ path_str md_path ++ " -> " ++ path_str (output_path_of html_path_str).

Definition FOUND_LINE (n : nat) : str :=
  "Found " ++ nat_str n ++ " markdown files".

Definition COMPLETE_LINE : str :=
  newline :: "Build complete! Output in " ++ path_str OUTPUT_DIR ++ "/".

(** [line] is the line printed for [md_path]. *)
Definition logged (md_path : path) (line : str) : Prop :=
  exists u, md_to_html_path md_path = Some u /\ line = page_line md_path u.

(** A part of a path as a directory listing gives it: not empty, not ".",
    and without a separator. *)
Definition valid_part (n : str) : Prop :=
  n <> [] /\ n <> "." /\ no_slash n.
(* ================================================================= *)
(** * Properties *)

(** ** Basic facts about text *)

Lemma str_eqb_eq (a b : str) : str_eqb a b = true <-> a = b.
Proof.
  revert b; induction a as [|x a IH]; intros [|y b]; simpl;
    try (split; [discriminate | congruence]); try tauto.
  rewrite andb_true_iff, Ascii.eqb_eq, IH. split.
  - intros [-> ->]; reflexivity.
  - intros H; inversion H; auto.
Qed.

Lemma str_eqb_refl (a : str) : str_eqb a a = true.
Proof. apply str_eqb_eq; reflexivity. Qed.

Lemma str_eqb_neq (a b : str) : str_eqb a b = false <-> a <> b.
Proof.
  rewrite <- str_eqb_eq. destruct (str_eqb a b); split; congruence.
Qed.

Lemma startswith_app (p s : str) : startswith p (p ++ s) = true.
Proof.
  induction p as [|x p IH]; simpl; [reflexivity|].
  now rewrite Ascii.eqb_refl, IH.
Qed.

Lemma startswith_iff (p s : str) :
  startswith p s = true <-> exists r, s = p ++ r.
Proof.
  revert s; induction p as [|x p IH]; intros s; simpl.
  - split; [intros _; now exists s | reflexivity].
  - destruct s as [|y s].
    + split; [discriminate | intros [r Hr]; discriminate].
    + rewrite andb_true_iff, Ascii.eqb_eq, IH. split.
      * intros [-> [r ->]]. now exists r.
      * intros [r Hr]. inversion Hr; subst. split; [reflexivity | now exists r].
Qed.

Lemma join_snoc (sep : str) (ps : list str) (a b : str) :
  join sep (ps ++ [a ++ b]) = join sep (ps ++ [a]) ++ b.
Proof.
  induction ps as [|p ps IH]; simpl; [reflexivity|].
  destruct (ps ++ [a ++ b]) eqn:E1; [now destruct ps|].
  destruct (ps ++ [a]) eqn:E2; [now destruct ps|].
  rewrite IH. now rewrite <- !app_assoc.
Qed.

Lemma rfind_app (c : ascii) (a b : str) :
  rfind c (a ++ b) =
  match rfind c b with
  | Some i => Some (length a + i)
  | None => rfind c a
  end.
Proof.
  induction a as [|x a IH]; simpl.
  - now destruct (rfind c b).
  - rewrite IH. destruct (rfind c b); [reflexivity|].
    now destruct (rfind c a).
Qed.

(** ** Paths *)

Lemma relative_to_app (base p : path) : relative_to (base ++ p) base = Some p.
Proof.
  induction base as [|b base IH]; simpl; [reflexivity|].
  now rewrite str_eqb_refl.
Qed.

Lemma path_name_snoc (d : path) (n : str) : path_name (d ++ [n]) = n.
Proof. apply last_last. Qed.

Lemma path_parent_snoc (d : path) (n : str) : path_parent (d ++ [n]) = d.
Proof. apply removelast_last. Qed.

Lemma path_str_snoc (d : path) (n : str) : path_str (d ++ [n]) = join "/" (d ++ [n]).
Proof. unfold path_str. now destruct d. Qed.

Lemma name_suffix_md (stem : str) :
  stem <> [] -> name_suffix (stem ++ ".md") = ".md".
Proof.
  intros Hne. unfold name_suffix. rewrite rfind_app. simpl rfind.
  cbv iota. rewrite Nat.add_0_r, length_app. simpl length.
  assert (0 < length stem) by (destruct stem; simpl; [congruence | lia]).
  replace (0 <? length stem) with true by (symmetry; apply Nat.ltb_lt; lia).
  replace (length stem <? length stem + 3 - 1) with true
    by (symmetry; apply Nat.ltb_lt; lia).
  simpl. rewrite skipn_app, skipn_all, Nat.sub_diag. reflexivity.
Qed.

Lemma with_suffix_md (d : path) (stem : str) :
  stem <> [] ->
  with_suffix (d ++ [stem ++ ".md"]) ".html" = Some (d ++ [stem ++ ".html"]).
Proof.
  intros Hne. unfold with_suffix. rewrite path_name_snoc.
  destruct (stem ++ ".md") as [|c r] eqn:E.
  - destruct stem; discriminate.
  - rewrite <- E, name_suffix_md by assumption.
    cbn match. rewrite removelast_last, length_app. simpl length.
    replace (length stem + 3 - 3) with (length stem) by lia.
    rewrite firstn_app, firstn_all, Nat.sub_diag. simpl.
    now rewrite app_nil_r.
Qed.

Lemma md_to_html_path_readme (D : path) :
  md_to_html_path (DOCS_DIR ++ D ++ ["README.md" : str])
  = Some (path_str (D ++ ["index.html" : str])).
Proof.
  unfold md_to_html_path. rewrite relative_to_app, path_name_snoc.
  rewrite str_eqb_refl, path_parent_snoc. reflexivity.
Qed.

Lemma md_to_html_path_page (D : path) (S : str) :
  S <> [] -> S ++ ".md" <> "README.md" ->
  md_to_html_path (DOCS_DIR ++ D ++ [S ++ ".md"])
  = Some (path_str (D ++ [S]) ++ ".html").
Proof.
  intros Hne Hnr. unfold md_to_html_path.
  rewrite relative_to_app, path_name_snoc.
  apply str_eqb_neq in Hnr. rewrite Hnr.
  rewrite with_suffix_md by assumption. cbn [option_map].
  rewrite !path_str_snoc. now rewrite join_snoc.
Qed.

(** C1 (as amended).  A README.md in directory D is mapped to D/index.html,
    and every other file S.md with a non-empty S is mapped to the same
    relative path with .md replaced by .html. *)
Theorem md_to_html_path_spec (D : path) (S : str) :
  md_to_html_path (DOCS_DIR ++ D ++ ["README.md" : str])
    = Some (path_str (D ++ ["index.html" : str]))
  /\ (S <> [] -> S ++ ".md" <> "README.md" ->
      path_str (D ++ [S ++ ".md"]) = path_str (D ++ [S]) ++ ".md" /\
      md_to_html_path (DOCS_DIR ++ D ++ [S ++ ".md"])
        = Some (path_str (D ++ [S]) ++ ".html")).
Proof.
  split; [apply md_to_html_path_readme|]. intros Hne Hnr. split.
  - rewrite !path_str_snoc. apply join_snoc.
  - now apply md_to_html_path_page.
Qed.

Lemma md_to_html_path_spec_witness :
  md_to_html_path (DOCS_DIR ++ ["getting-started" : str] ++ ["README.md" : str])
    = Some ("getting-started/index.html" : str)
  /\ md_to_html_path (DOCS_DIR ++ ["getting-started" : str] ++ ["install.md" : str])
    = Some ("getting-started/install.html" : str).
Proof.
  split.
  - exact (proj1 (md_to_html_path_spec ["getting-started" : str] ("install" : str))).
  - refine (proj2 (proj2 (md_to_html_path_spec ["getting-started" : str] ("install" : str)) _ _));
      discriminate.
Defined.

(** C1, the claim as written fails for a file named ".md": pathlib sees no
    suffix in a name that is only a leading dot and an extension, so
    ".html" is appended instead of replacing ".md". *)
Lemma md_to_html_path_dotfile :
  md_to_html_path [("docs" : str); (".md" : str)] = Some (".md.html" : str)
  /\ md_to_html_path (DOCS_DIR ++ [] ++ [([] : str) ++ ".md"])
       <> Some (path_str ([] ++ [([] : str)]) ++ ".html").
Proof. split; [reflexivity | discriminate]. Qed.

(* ================================================================= *)
(** ** str.replace *)

Lemma replace_scan_skip (old new : str) (k : nat) (s : str) :
  replace_scan old new k s = replace_scan old new 0 (skipn k s).
Proof.
  revert k; induction s as [|c s IH]; intros [|k]; try reflexivity.
  simpl skipn. simpl replace_scan at 1. apply IH.
Qed.

Lemma str_replace_nil (old new : str) :
  old <> [] -> str_replace old new [] = [].
Proof. destruct old; [congruence | reflexivity]. Qed.

Lemma str_replace_hit (old new r : str) :
  old <> [] -> str_replace old new (old ++ r) = new ++ str_replace old new r.
Proof.
  destruct old as [|o old]; [congruence | intros _].
  unfold str_replace. change ((o :: old) ++ r) with (o :: (old ++ r)).
  cbn [replace_scan].
  change (o :: old ++ r) with ((o :: old) ++ r). rewrite startswith_app.
  rewrite replace_scan_skip.
  replace (length (o :: old) - 1) with (length old) by (simpl; lia).
  now rewrite skipn_app, skipn_all, Nat.sub_diag.
Qed.

Lemma str_replace_miss (old new : str) (c : ascii) (s : str) :
  old <> [] -> startswith old (c :: s) = false ->
  str_replace old new (c :: s) = c :: str_replace old new s.
Proof.
  destruct old as [|o old]; [congruence | intros _ H].
  unfold str_replace. cbn [replace_scan]. now rewrite H.
Qed.

Lemma contains_cons (sub s : str) (c : ascii) :
  contains sub s -> contains sub (c :: s).
Proof. intros (a & b & ->). now exists (c :: a), b. Qed.

Lemma contains_app_r (sub s t : str) :
  contains sub s -> contains sub (t ++ s).
Proof. intros (a & b & ->). exists (t ++ a), b. now rewrite app_assoc. Qed.

Lemma contains_app_l (sub s t : str) :
  contains sub s -> contains sub (s ++ t).
Proof.
  intros (a & b & ->). exists a, (b ++ t). now rewrite <- !app_assoc.
Qed.

Lemma contains_trans (a b c : str) :
  contains a b -> contains b c -> contains a c.
Proof.
  intros (x & y & ->) (u & v & ->). exists (u ++ x), (y ++ v).
  now rewrite <- !app_assoc.
Qed.

(** Where [old] occurs, [replace] puts [new]. *)
Lemma str_replace_contains (old new s : str) :
  old <> [] -> contains old s -> contains new (str_replace old new s).
Proof.
  intros Hne (a & b & ->). induction a as [|c a IH].
  - simpl. rewrite str_replace_hit by assumption. now exists [], (str_replace old new b).
  - change ((c :: a) ++ old ++ b) with (c :: (a ++ old ++ b)).
    destruct (startswith old (c :: a ++ old ++ b)) eqn:E.
    + apply startswith_iff in E as [r Hr]. rewrite Hr.
      rewrite str_replace_hit by assumption.
      now exists [], (str_replace old new r).
    + rewrite str_replace_miss by assumption. now apply contains_cons.
Qed.

(** *** Templates as text with holes *)

Lemma token_nonempty (p : placeholder) : token p <> [].
Proof. destruct p; discriminate. Qed.

Lemma startswith_head_neq (x c : ascii) (p s : str) :
  c <> x -> startswith (x :: p) (c :: s) = false.
Proof.
  intros H. cbn [startswith].
  destruct (Ascii.eqb_spec x c); [congruence | reflexivity].
Qed.

Lemma startswith_token_no_brace (q : placeholder) (c : ascii) (s : str) :
  c <> "{"%char -> startswith (token q) (c :: s) = false.
Proof.
  intros H. destruct q; now apply (@startswith_head_neq "{"%char).
Qed.

Lemma str_replace_token_text (q : placeholder) (v t rest : str) :
  brace_free t ->
  str_replace (token q) v (t ++ rest) = t ++ str_replace (token q) v rest.
Proof.
  intros Hbf. induction t as [|c t IH]; [reflexivity|].
  change ((c :: t) ++ rest) with (c :: (t ++ rest)).
  rewrite str_replace_miss.
  - rewrite IH; [reflexivity|]. intros Hin; apply Hbf; now right.
  - apply token_nonempty.
  - apply startswith_token_no_brace. intros ->. apply Hbf. now left.
Qed.

Lemma str_replace_other_token (p q : placeholder) (v rest : str) :
  placeholder_eqb p q = false ->
  str_replace (token q) v (token p ++ rest) = token p ++ str_replace (token q) v rest.
Proof.
  destruct p, q; try discriminate; intros _; reflexivity.
Qed.

Lemma str_replace_template (q : placeholder) (v : str) (segs : list segment) :
  literal_braces_free segs ->
  str_replace (token q) v (template_text segs)
  = template_text (map (fill_hole q v) segs).
Proof.
  induction segs as [|[t|p] segs IH]; intros Hbf.
  - apply str_replace_nil, token_nonempty.
  - cbn [template_text flat_map map fill_hole].
    rewrite str_replace_token_text by (apply Hbf; now left).
    f_equal. apply IH. intros t' Ht'. apply Hbf. now right.
  - cbn [template_text flat_map map fill_hole].
    assert (IH' : str_replace (token q) v (template_text segs)
                  = template_text (map (fill_hole q v) segs)).
    { apply IH. intros t' Ht'. apply Hbf. now right. }
    destruct (placeholder_eqb p q) eqn:E.
    + assert (p = q) as -> by (destruct p, q; (reflexivity || discriminate E)).
      rewrite str_replace_hit by apply token_nonempty.
      f_equal. exact IH'.
    + rewrite str_replace_other_token by assumption.
      f_equal. exact IH'.
Qed.

Lemma fill_hole_braces_free (q : placeholder) (v : str) (segs : list segment) :
  brace_free v -> literal_braces_free segs ->
  literal_braces_free (map (fill_hole q v) segs).
Proof.
  intros Hv Hbf t Ht. apply in_map_iff in Ht as ([t'|p] & Heq & Hin); cbn in Heq.
  - inversion Heq; subst. now apply Hbf.
  - destruct (placeholder_eqb p q); inversion Heq; subst. exact Hv.
Qed.

Lemma fill_all_holes (t s b c : str) (segs : list segment) :
  template_text
    (map (fill_hole PContent c)
       (map (fill_hole PBreadcrumb b)
          (map (fill_hole PSidebar s)
             (map (fill_hole PTitle t) segs))))
  = filled (fun p => match p with
                     | PTitle => t | PSidebar => s
                     | PBreadcrumb => b | PContent => c
                     end) segs.
Proof.
  induction segs as [|[x|p] segs IH]; [reflexivity | |].
  - cbn [map fill_hole]. unfold template_text, filled in *.
    cbn [flat_map]. now rewrite IH.
  - unfold template_text, filled in *.
    destruct p; cbn [map fill_hole placeholder_eqb flat_map]; now rewrite IH.
Qed.

(* ================================================================= *)
(** ** Page assembly *)

(** C2 (as amended).  [str.replace] is called without a count, so each
    placeholder is replaced at every occurrence: a template that is
    literal text with holes, the text and the title, sidebar and
    breadcrumb values free of braces, comes out with every hole filled,
    however often a placeholder is repeated. *)
Theorem fill_template_every_occurrence
    (segs : list segment) (title sidebar breadcrumb html_content : str) :
  literal_braces_free segs ->
  brace_free title -> brace_free sidebar -> brace_free breadcrumb ->
  fill_template (template_text segs) title sidebar breadcrumb html_content
  = filled (fun p => match p with
                     | PTitle => title | PSidebar => sidebar
                     | PBreadcrumb => breadcrumb | PContent => html_content
                     end) segs.
Proof.
  intros Hsegs Ht Hs Hb. unfold fill_template.
  change ("{{title}}" : str) with (token PTitle).
  change ("{{sidebar}}" : str) with (token PSidebar).
  change ("{{breadcrumb}}" : str) with (token PBreadcrumb).
  change ("{{content}}" : str) with (token PContent).
  rewrite str_replace_template by assumption.
  rewrite str_replace_template by now apply fill_hole_braces_free.
  rewrite str_replace_template by now repeat apply fill_hole_braces_free.
  rewrite str_replace_template by now repeat apply fill_hole_braces_free.
  apply fill_all_holes.
Qed.

Lemma fill_template_every_occurrence_witness :
  fill_template
    (template_text [Hole PTitle; Text " | "; Hole PTitle; Hole PContent])
    "T" "S" "B" "{{title}}"
  = ("T | T{{title}}" : str).
Proof.
  refine (@fill_template_every_occurrence
            [Hole PTitle; Text " | "; Hole PTitle; Hole PContent]
            "T" "S" "B" "{{title}}" _ _ _ _).
  - intros t [H|[H|[H|[H|[]]]]]; inversion H; subst.
    intros [F|[F|[F|[]]]]; discriminate F.
  - intros [F|[]]; discriminate F.
  - intros [F|[]]; discriminate F.
  - intros [F|[]]; discriminate F.
Defined.

(** C2, the claim as written: with the title placeholder twice in the
    template, both occurrences are replaced, not the first one only. *)
Lemma build_page_replaces_both_occurrences :
  build_page render_paragraph example_docs
    [("docs" : str); ("index.md" : str)] "{{title}}|{{title}}"
  = Some ("Welcome|Welcome" : str)
  /\ build_page render_paragraph example_docs
       [("docs" : str); ("index.md" : str)] "{{title}}|{{title}}"
     <> Some ("Welcome|{{title}}" : str).
Proof. split; [vm_compute; reflexivity | vm_compute; discriminate]. Qed.

(** C8 (as amended).  The content placeholder is substituted last, so a
    placeholder token inside the rendered content is not substituted
    again: whenever the content placeholder is still in the page when its
    turn comes, the assembled page contains every token the rendered
    content contains. *)
Theorem fill_template_keeps_content_tokens
    (template title sidebar breadcrumb html_content : str) (p : placeholder) :
  contains (token PContent)
    (str_replace "{{breadcrumb}}" breadcrumb
       (str_replace "{{sidebar}}" sidebar
          (str_replace "{{title}}" title template))) ->
  contains (token p) html_content ->
  contains (token p)
    (fill_template template title sidebar breadcrumb html_content).
Proof.
  intros Hc Hp. unfold fill_template.
  apply contains_trans with (b := html_content); [exact Hp|].
  apply str_replace_contains; [discriminate | exact Hc].
Qed.

Lemma fill_template_keeps_content_tokens_witness :
  contains (token PTitle)
    (fill_template "{{title}}: {{content}}" "Quickstart" [] [] "<p>See {{title}}.</p>").
Proof.
  refine (@fill_template_keeps_content_tokens
            "{{title}}: {{content}}" "Quickstart" [] [] "<p>See {{title}}.</p>"
            PTitle _ _).
  - exists ("Quickstart: " : str), ([] : str). reflexivity.
  - exists ("<p>See " : str), (".</p>" : str). reflexivity.
Defined.

(** C8, the claim as written: the page built for a document whose
    rendered text contains the title placeholder still contains that
    placeholder. *)
Lemma build_page_keeps_token_of_content :
  contains (token PTitle) (render_paragraph (convert_internal_links "See {{title}}."))
  /\ build_page render_paragraph example_docs
       [("docs" : str); ("quickstart.md" : str)] "{{title}}: {{content}}"
     = Some ("Quickstart: <p>See {{title}}.</p>" : str)
  /\ contains (token PTitle) ("Quickstart: <p>See {{title}}.</p>" : str).
Proof.
  split; [|split].
  - exists ("<p>See " : str), (".</p>" : str). vm_compute. reflexivity.
  - vm_compute. reflexivity.
  - exists ("Quickstart: <p>See " : str), (".</p>" : str). reflexivity.
Qed.

(* ================================================================= *)
(** ** The matcher *)

Lemma greedy_ext cls min k k' p p' s pos n :
  (forall q q' t i, k q t i = k' q' t i) ->
  greedy cls min k p s pos n = greedy cls min k' p' s pos n.
Proof.
  intros H. revert p p' pos n.
  induction s as [|x s IH]; intros p p' pos n; cbn [greedy].
  - now rewrite (H p p').
  - rewrite (IH (Some x) (Some x)). now rewrite (H p p').
Qed.

(** Without [^] the character before the match is irrelevant. *)
Lemma match_at_prev (re : regex) :
  no_bol re = true ->
  forall p p' s pos g, match_at re p s pos g = match_at re p' s pos g.
Proof.
  induction re as [|a re IH]; intros H p p' s pos g; [reflexivity|].
  destruct a; cbn [no_bol] in H; cbn [match_at]; try discriminate H.
  - reflexivity.
  - apply greedy_ext. intros q q' t i. now apply IH.
  - destruct s as [|x s]; [now apply IH|].
    destruct (Ascii.eqb x newline); [now apply IH | reflexivity].
  - now apply IH.
  - now apply IH.
Qed.

Lemma no_bol_lits (L : str) (re : regex) :
  no_bol (lits L ++ re) = no_bol re.
Proof. induction L as [|c L IH]; [reflexivity | exact IH]. Qed.

Lemma match_at_lits_miss (L : str) (re : regex) p s pos g :
  startswith L s = false -> match_at (lits L ++ re) p s pos g = None.
Proof.
  revert p s pos. induction L as [|c L IH]; intros p s pos H; [discriminate H|].
  destruct s as [|x s]; [reflexivity|].
  cbn [lits map app match_at]. cbn [startswith] in H.
  rewrite Ascii.eqb_sym. destruct (Ascii.eqb c x); [|reflexivity].
  apply IH. exact H.
Qed.

Lemma match_at_lits_hit (L : str) (re : regex) p s pos g :
  no_bol re = true ->
  match_at (lits L ++ re) p (L ++ s) pos g = match_at re p s (pos + length L) g.
Proof.
  intros Hre. revert p pos. induction L as [|c L IH]; intros p pos.
  - cbn. now rewrite Nat.add_0_r.
  - cbn [lits map app match_at length]. rewrite Ascii.eqb_refl.
    fold (lits L). rewrite IH. rewrite Nat.add_succ_r.
    now apply match_at_prev.
Qed.

Lemma match_at_lits (L : str) p s pos g :
  match_at (lits L) p s pos g
  = if startswith L s then Some (pos + length L, g) else None.
Proof.
  destruct (startswith L s) eqn:E.
  - apply startswith_iff in E as [r ->].
    rewrite <- (app_nil_r (lits L)). now rewrite match_at_lits_hit.
  - rewrite <- (app_nil_r (lits L)). now apply match_at_lits_miss.
Qed.

(** *** Greedy repetition *)

Section Greedy.
Variables (cls : ascii -> bool) (min : nat).
Variable k : option ascii -> str -> nat -> option match_result.
Hypothesis k_prev : forall q q' t i, k q t i = k q' t i.

(** A success of the repetition is a success of the continuation after
    some run of the class. *)
Lemma greedy_sound p s pos n r :
  greedy cls min k p s pos n = Some r ->
  exists X rest,
    s = X ++ rest /\ forallb cls X = true /\ min <= n + length X
    /\ k None rest (pos + length X) = Some r.
Proof.
  revert p pos n. induction s as [|x s IH]; intros p pos n H; cbn [greedy] in H.
  - destruct (Nat.leb_spec min n); [|discriminate H].
    exists [], []. cbn. rewrite !Nat.add_0_r.
    rewrite (k_prev None p). auto.
  - assert (Hstop : (if min <=? n then k p (x :: s) pos else None) = Some r ->
            exists X rest, x :: s = X ++ rest /\ forallb cls X = true
                           /\ min <= n + length X
                           /\ k None rest (pos + length X) = Some r).
    { intros Hs. destruct (Nat.leb_spec min n); [|discriminate Hs].
      exists [], (x :: s). cbn. rewrite !Nat.add_0_r.
      rewrite (k_prev None p). auto. }
    destruct (cls x) eqn:Ex; [|now apply Hstop].
    destruct (greedy cls min k (Some x) s (S pos) (S n)) as [r'|] eqn:Eg;
      [|now apply Hstop].
    inversion H; subst r'. apply IH in Eg as (X & rest & -> & HX & Hn & Hk).
    exists (x :: X), rest. cbn [forallb length app]. rewrite Ex, HX.
    repeat split; [lia|]. now rewrite Nat.add_succ_r.
Qed.

(** When the continuation fails after every longer run, the repetition
    stops where it stands. *)
Lemma greedy_stop p s pos n :
  (forall j, 1 <= j <= length s -> forallb cls (firstn j s) = true ->
             k None (skipn j s) (pos + j) = None) ->
  greedy cls min k p s pos n = if min <=? n then k p s pos else None.
Proof.
  revert p pos n. induction s as [|x s IH]; intros p pos n H; [reflexivity|].
  cbn [greedy]. destruct (cls x) eqn:Ex; [|reflexivity].
  rewrite IH.
  - assert (Hk : k (Some x) s (S pos) = None).
    { rewrite (k_prev _ None). replace (S pos) with (pos + 1) by lia.
      apply (H 1); [cbn; lia|]. cbn. now rewrite Ex. }
    rewrite Hk. now destruct (min <=? S n).
  - intros j Hj Hall. replace (S pos + j) with (pos + S j) by lia.
    apply (H (S j)); [cbn; lia|]. cbn. now rewrite Ex.
Qed.

(** The repetition first tries the longest run. *)
Lemma greedy_take X rest p pos n r :
  forallb cls X = true ->
  (forall q, greedy cls min k q rest (pos + length X) (n + length X) = Some r) ->
  greedy cls min k p (X ++ rest) pos n = Some r.
Proof.
  revert p pos n. induction X as [|x X IH]; intros p pos n HX Hg.
  - cbn in *. rewrite !Nat.add_0_r in Hg. apply Hg.
  - cbn [forallb] in HX. apply andb_true_iff in HX as [Ex HX].
    cbn [app greedy]. rewrite Ex. rewrite (IH (Some x) (S pos) (S n) HX).
    + reflexivity.
    + intros q. cbn [length] in Hg. rewrite !Nat.add_succ_r in Hg. apply Hg.
Qed.
End Greedy.

(* ================================================================= *)
(** ** The link patterns *)

Lemma endswith_iff (t s : str) :
  endswith t s = true <-> exists r, s = r ++ t.
Proof.
  unfold endswith. rewrite startswith_iff. split.
  - intros [r Hr]. exists (rev r).
    rewrite <- (rev_involutive s), Hr, rev_app_distr.
    now rewrite rev_involutive.
  - intros [r ->]. exists (rev r). now rewrite rev_app_distr.
Qed.

Lemma strip_prefix_iff (p s r : str) :
  strip_prefix p s = Some r <-> s = p ++ r.
Proof.
  unfold strip_prefix. split.
  - destruct (startswith p s) eqn:E; [|discriminate].
    apply startswith_iff in E as [r' ->]. intros H; inversion H.
    now rewrite skipn_app, skipn_all, Nat.sub_diag.
  - intros ->. rewrite startswith_app.
    now rewrite skipn_app, skipn_all, Nat.sub_diag.
Qed.

Lemma strip_suffix_iff (t s r : str) :
  strip_suffix t s = Some r <-> s = r ++ t.
Proof.
  unfold strip_suffix. split.
  - destruct (endswith t s) eqn:E; [|discriminate].
    apply endswith_iff in E as [r' ->]. intros H; inversion H.
    rewrite length_app, Nat.add_sub.
    now rewrite firstn_app, firstn_all, Nat.sub_diag, app_nil_r.
  - intros ->. replace (endswith t (r ++ t)) with true
      by (symmetry; apply endswith_iff; now exists r).
    rewrite length_app, Nat.add_sub.
    now rewrite firstn_app, firstn_all, Nat.sub_diag, app_nil_r.
Qed.

Lemma link_rewrite_iff (min : nat) (T R c out : str) :
  link_rewrite min T R c = Some out <->
  exists X, c = "](" ++ X ++ T /\ min <= length X /\ out = "](" ++ X ++ R.
Proof.
  unfold link_rewrite. split.
  - destruct (strip_prefix "](" c) as [r|] eqn:E1; [|discriminate].
    destruct (strip_suffix T r) as [X|] eqn:E2; [|discriminate].
    destruct (Nat.leb_spec min (length X)) as [Hle|Hgt]; [|discriminate].
    intros Hout; inversion Hout. apply strip_prefix_iff in E1.
    apply strip_suffix_iff in E2. subst. now exists X.
  - intros (X & -> & Hmin & ->).
    replace (strip_prefix "](" ("](" ++ X ++ T)) with (Some (X ++ T))
      by (symmetry; now apply strip_prefix_iff).
    replace (strip_suffix T (X ++ T)) with (Some X)
      by (symmetry; now apply strip_suffix_iff).
    now destruct (Nat.leb_spec min (length X)); [|lia].
Qed.

(** *** Text without a closing parenthesis *)

Lemma rparen_free_app (a b : str) :
  rparen_free (a ++ b) <-> rparen_free a /\ rparen_free b.
Proof. unfold rparen_free. rewrite forallb_app. apply andb_true_iff. Qed.

Lemma rparen_free_cons (x : ascii) (a : str) :
  rparen_free (x :: a) <-> x <> ")"%char /\ rparen_free a.
Proof.
  unfold rparen_free. cbn [forallb]. rewrite andb_true_iff.
  unfold not_rparen. rewrite negb_true_iff.
  destruct (Ascii.eqb_spec x ")"%char); split; intros [H1 H2]; split;
    congruence.
Qed.

(** The first closing parenthesis of a text is where it is. *)
Lemma first_rparen_unique (a a' b b' : str) :
  rparen_free a -> rparen_free a' ->
  a ++ ")"%char :: b = a' ++ ")"%char :: b' -> a = a' /\ b = b'.
Proof.
  revert a'. induction a as [|x a IH]; intros [|y a'] Ha Ha' H; cbn in H.
  - inversion H. auto.
  - inversion H; subst. apply rparen_free_cons in Ha' as [F _]. congruence.
  - inversion H; subst. apply rparen_free_cons in Ha as [F _]. congruence.
  - inversion H; subst.
    apply rparen_free_cons in Ha as [_ Ha].
    apply rparen_free_cons in Ha' as [_ Ha'].
    destruct (IH a' Ha Ha' H2) as [-> ->]. auto.
Qed.

Lemma startswith_rparen_free (L c rest : str) :
  rparen_free L -> rparen_free c ->
  startswith (L ++ ")") (c ++ ")"%char :: rest) = true -> c = L.
Proof.
  intros HL Hc H. apply startswith_iff in H as [r Hr].
  rewrite <- app_assoc in Hr. cbn in Hr.
  now destruct (@first_rparen_unique c L rest r Hc HL Hr).
Qed.

(** *** Matches of the two patterns with a group *)

Section LinkPattern.
Variables (min : nat) (T : str).
Hypothesis T_free : rparen_free T.

Lemma link_k_prev q q' t i : link_k T q t i = link_k T q' t i.
Proof.
  unfold link_k. apply match_at_prev. cbn [no_bol].
  rewrite <- (app_nil_r (lits _)). now rewrite no_bol_lits.
Qed.

Lemma link_k_eq q t i :
  link_k T q t i = if startswith (T ++ ")") t
            then Some (i + length (T ++ ")"), (2, i)) else None.
Proof. unfold link_k. cbn [match_at fst]. apply match_at_lits. Qed.

Lemma link_match_eq p s :
  match_at (link_re min T) p ("](" ++ s) 0 (0, 0)
  = greedy not_rparen min (link_k T) None s 2 0.
Proof.
  unfold link_re. rewrite match_at_lits_hit.
  - cbn [match_at length Nat.add snd String.list_ascii_of_string].
    apply greedy_ext. intros q q' t i. unfold link_k.
    cbn [match_at fst snd]. apply match_at_prev.
    rewrite <- (app_nil_r (lits _)). now rewrite no_bol_lits.
  - cbn [app no_bol]. rewrite <- (app_nil_r (lits _)). now rewrite no_bol_lits.
Qed.

(** Completeness: a link target of the right shape is matched, up to
    its closing parenthesis, the group being what stands before [T]. *)
Lemma link_match_complete p X rest :
  rparen_free X -> min <= length X ->
  match_at (link_re min T) p ("](" ++ X ++ T ++ ")" ++ rest) 0 (0, 0)
  = Some (2 + length X + length (T ++ ")"), (2, 2 + length X)).
Proof.
  intros HX Hmin. rewrite link_match_eq.
  apply greedy_take; [exact HX|]. intros q.
  rewrite greedy_stop.
  - cbn [Nat.add]. destruct (Nat.leb_spec min (length X)); [|lia].
    rewrite link_k_eq. rewrite app_assoc, startswith_app. reflexivity.
  - apply link_k_prev.
  - intros j Hj Hall. rewrite link_k_eq.
    destruct (startswith (T ++ ")") (skipn j (T ++ ")" ++ rest))) eqn:E;
      [exfalso | reflexivity].
    assert (Hle : j <= length T).
    { destruct (Nat.le_gt_cases j (length T)) as [|Hgt]; [assumption|].
      exfalso. rewrite firstn_app in Hall. rewrite forallb_app in Hall.
      apply andb_true_iff in Hall as [_ Hall].
      destruct (j - length T) as [|d] eqn:Ed; [lia|].
      cbn in Hall. discriminate Hall. }
    rewrite skipn_app in E.
    replace (j - length T) with 0 in E by lia. cbn [skipn app] in E.
    assert (Hfree : rparen_free (skipn j T)).
    { rewrite <- (firstn_skipn j T) in T_free.
      now apply rparen_free_app in T_free. }
    apply (@startswith_rparen_free T (skipn j T) rest T_free Hfree) in E.
    apply (f_equal (@length ascii)) in E. rewrite length_skipn in E. lia.
Qed.

(** Soundness: a match has that shape. *)
Lemma link_match_sound p s e gs ge :
  match_at (link_re min T) p s 0 (0, 0) = Some (e, (gs, ge)) ->
  exists X rest,
    s = "](" ++ X ++ T ++ ")" ++ rest /\ rparen_free X /\ min <= length X
    /\ e = 2 + length X + length (T ++ ")") /\ gs = 2 /\ ge = 2 + length X.
Proof.
  intros H. destruct (startswith "](" s) eqn:E.
  - apply startswith_iff in E as [r ->]. rewrite link_match_eq in H.
    apply greedy_sound in H as (X & rest & -> & HX & Hmin & Hk);
      [|apply link_k_prev].
    rewrite link_k_eq in Hk.
    destruct (startswith (T ++ ")") rest) eqn:E2; [|discriminate Hk].
    apply startswith_iff in E2 as [rest' ->]. inversion Hk; subst.
    exists X, rest'. rewrite <- !app_assoc. repeat split; auto.
  - unfold link_re in H. rewrite match_at_lits_miss in H by assumption.
    discriminate H.
Qed.
End LinkPattern.

(* ================================================================= *)
(** ** re.sub *)

Lemma skipn_past (c : str) (z : ascii) (rest : str) :
  skipn (S (length c)) (c ++ z :: rest) = rest.
Proof. induction c as [|x c IH]; [reflexivity | exact IH]. Qed.

Section Sub.
Variables (re : regex) (repl : list repl_item).
Hypothesis re_no_bol : no_bol re = true.

Lemma sub_scan_prev s : forall p p' k,
  sub_scan re repl p s k = sub_scan re repl p' s k.
Proof.
  induction s as [|x s IH]; intros p p' [|k]; cbn [sub_scan];
    try reflexivity; now rewrite (match_at_prev re re_no_bol p p').
Qed.

Lemma sub_scan_skip s : forall p k, k <= length s ->
  sub_scan re repl p s k = sub_scan re repl p (skipn k s) 0.
Proof.
  induction s as [|x s IH]; intros p [|k] Hk; try reflexivity.
  - cbn in Hk. lia.
  - cbn [sub_scan skipn]. cbn in Hk. rewrite IH by lia.
    apply sub_scan_prev.
Qed.

(** The scanning equations of [re.sub]. *)
Lemma re_sub_hit s e gs ge :
  match_at re None s 0 (0, 0) = Some (e, (gs, ge)) ->
  0 < e <= length s ->
  re_sub re repl s = expand repl (slice s gs ge) ++ re_sub re repl (skipn e s).
Proof.
  intros Hm He. unfold re_sub. destruct s as [|x s]; [cbn in He; lia|].
  cbn [sub_scan]. rewrite Hm. destruct e as [|e]; [lia|]. f_equal.
  cbn [skipn]. cbn in He. rewrite sub_scan_skip by lia. apply sub_scan_prev.
Qed.

Lemma re_sub_miss x s :
  match_at re None (x :: s) 0 (0, 0) = None ->
  re_sub re repl (x :: s) = x :: re_sub re repl s.
Proof.
  intros Hm. unfold re_sub. cbn [sub_scan]. rewrite Hm. f_equal.
  apply sub_scan_prev.
Qed.

Lemma re_sub_nil :
  match_at re None [] 0 (0, 0) = None -> re_sub re repl [] = [].
Proof. intros Hm. unfold re_sub. cbn [sub_scan]. now rewrite Hm. Qed.

(** A substitution whose matches all end at the first closing
    parenthesis works on one link target at a time. *)
Variable rw : str -> option str.
Hypothesis rw_hit : forall c rest out,
  rparen_free c -> rw c = Some out ->
  exists gs ge,
    match_at re None (c ++ ")"%char :: rest) 0 (0, 0)
      = Some (S (length c), (gs, ge))
    /\ expand repl (slice (c ++ ")"%char :: rest) gs ge) = out ++ ")".
Hypothesis rw_miss : forall c rest,
  rparen_free c -> rw c = None ->
  match_at re None (c ++ ")"%char :: rest) 0 (0, 0) = None.
Hypothesis rw_free : forall c,
  rparen_free c -> match_at re None c 0 (0, 0) = None.

Lemma re_sub_chunk c rest :
  rparen_free c ->
  re_sub re repl (c ++ ")"%char :: rest)
  = chunk_sub rw c ++ ")"%char :: re_sub re repl rest.
Proof.
  induction c as [|x c IH]; intros Hc.
  - cbn [chunk_sub]. destruct (rw []) as [out|] eqn:E.
    + destruct (@rw_hit [] rest out Hc E) as (gs & ge & Hm & Hx).
      rewrite (re_sub_hit _ Hm) by (cbn; lia). rewrite Hx.
      rewrite skipn_past. now rewrite <- app_assoc.
    + cbn [app]. rewrite re_sub_miss; [reflexivity|].
      now apply (@rw_miss [] rest).
  - cbn [chunk_sub]. destruct (rw (x :: c)) as [out|] eqn:E.
    + destruct (@rw_hit (x :: c) rest out Hc E) as (gs & ge & Hm & Hx).
      rewrite (re_sub_hit _ Hm) by (rewrite length_app; cbn; lia).
      rewrite Hx. rewrite skipn_past. now rewrite <- app_assoc.
    + change ((x :: c) ++ ")"%char :: rest) with (x :: (c ++ ")"%char :: rest)).
      rewrite re_sub_miss by now apply (@rw_miss (x :: c) rest).
      cbn [app]. f_equal. apply IH.
      now apply rparen_free_cons in Hc.
Qed.

Lemma re_sub_rparen_free c :
  rparen_free c -> re_sub re repl c = c.
Proof.
  induction c as [|x c IH]; intros Hc.
  - apply re_sub_nil. now apply rw_free.
  - rewrite re_sub_miss by now apply rw_free.
    f_equal. apply IH. now apply rparen_free_cons in Hc.
Qed.
End Sub.

(* ================================================================= *)
(** ** convert_internal_links *)

(** *** Each substitution, one link target at a time *)

Section LinkSub.
Variables (min : nat) (T R : str).
Hypothesis T_free : rparen_free T.

Lemma link_re_no_bol : no_bol (link_re min T) = true.
Proof.
  unfold link_re. rewrite no_bol_lits. cbn [app no_bol].
  rewrite <- (app_nil_r (lits _)). now rewrite no_bol_lits.
Qed.

Lemma link_sub_hit c rest out :
  rparen_free c -> link_rewrite min T R c = Some out ->
  exists gs ge,
    match_at (link_re min T) None (c ++ ")"%char :: rest) 0 (0, 0)
      = Some (S (length c), (gs, ge))
    /\ expand (link_repl R) (slice (c ++ ")"%char :: rest) gs ge) = out ++ ")".
Proof.
  intros Hc Hrw. apply link_rewrite_iff in Hrw as (X & -> & Hmin & ->).
  assert (HX : rparen_free X).
  { apply rparen_free_app in Hc as [_ Hc]. now apply rparen_free_app in Hc. }
  exists 2, (2 + length X). split.
  - rewrite <- !app_assoc.
    change (T ++ ")"%char :: rest) with (T ++ ")" ++ rest).
    rewrite (link_match_complete T_free None rest HX Hmin).
    do 2 f_equal. rewrite !length_app. cbn. lia.
  - unfold slice. rewrite <- !app_assoc. cbn [skipn app String.list_ascii_of_string].
    replace (2 + length X - 2) with (length X) by lia.
    rewrite firstn_app, firstn_all, Nat.sub_diag. cbn [firstn].
    unfold link_repl, expand. cbn [flat_map].
    rewrite !app_nil_r. reflexivity.
Qed.

Lemma link_sub_miss c rest :
  rparen_free c -> link_rewrite min T R c = None ->
  match_at (link_re min T) None (c ++ ")"%char :: rest) 0 (0, 0) = None.
Proof.
  intros Hc Hrw.
  destruct (match_at (link_re min T) None (c ++ ")"%char :: rest) 0 (0, 0))
    as [[e [gs ge]]|] eqn:E; [exfalso | reflexivity].
  apply (@link_match_sound min T) in E
    as (X & rest' & Hs & HX & Hmin & _).
  rewrite !app_assoc in Hs. rewrite <- (app_assoc _ ")" rest') in Hs.
  cbn [app String.list_ascii_of_string] in Hs.
  assert (Hfree : rparen_free ((("]" :: "(" :: nil) ++ X) ++ T)%char).
  { apply rparen_free_app. split; [|exact T_free].
    apply rparen_free_app. split; [reflexivity | exact HX]. }
  destruct (@first_rparen_unique _ _ _ _ Hc Hfree Hs) as [-> _].
  assert (Hsome : link_rewrite min T R (((("]" :: "(" :: nil) ++ X) ++ T)%char)
                  = Some ("](" ++ X ++ R)).
  { apply link_rewrite_iff. exists X. rewrite <- app_assoc. auto. }
  congruence.
Qed.

Lemma link_sub_free c :
  rparen_free c -> match_at (link_re min T) None c 0 (0, 0) = None.
Proof.
  intros Hc.
  destruct (match_at (link_re min T) None c 0 (0, 0))
    as [[e [gs ge]]|] eqn:E; [exfalso | reflexivity].
  apply (@link_match_sound min T) in E as (X & rest' & -> & _).
  apply rparen_free_app in Hc as [_ Hc].
  apply rparen_free_app in Hc as [_ Hc].
  apply rparen_free_app in Hc as [_ Hc].
  apply rparen_free_app in Hc as [Hc _]. discriminate Hc.
Qed.

Lemma re_sub_link_chunk c rest :
  rparen_free c ->
  re_sub (link_re min T) (link_repl R) (c ++ ")"%char :: rest)
  = chunk_sub (link_rewrite min T R) c
      ++ ")"%char :: re_sub (link_re min T) (link_repl R) rest.
Proof.
  apply re_sub_chunk.
  - apply link_re_no_bol.
  - apply link_sub_hit.
  - apply link_sub_miss.
Qed.

Lemma re_sub_link_free c :
  rparen_free c -> re_sub (link_re min T) (link_repl R) c = c.
Proof.
  apply re_sub_rparen_free; [apply link_re_no_bol | apply link_sub_free].
Qed.
End LinkSub.

Lemma bare_no_bol : no_bol BARE_README_RE = true.
Proof. reflexivity. Qed.

Lemma bare_match s :
  match_at BARE_README_RE None s 0 (0, 0)
  = if startswith (BARE ++ ")") s then Some (14, (0, 0)) else None.
Proof. unfold BARE_README_RE. now rewrite match_at_lits. Qed.

Lemma bare_sub_hit c rest out :
  rparen_free c -> bare_rewrite c = Some out ->
  exists gs ge,
    match_at BARE_README_RE None (c ++ ")"%char :: rest) 0 (0, 0)
      = Some (S (length c), (gs, ge))
    /\ expand [RLit "](index.html)"] (slice (c ++ ")"%char :: rest) gs ge)
       = out ++ ")".
Proof.
  intros _ Hrw. unfold bare_rewrite in Hrw.
  destruct (str_eqb c "](README.html") eqn:E; [|discriminate Hrw].
  apply str_eqb_eq in E. subst c. inversion Hrw; subst out.
  exists 0, 0. split; reflexivity.
Qed.

Lemma bare_sub_miss c rest :
  rparen_free c -> bare_rewrite c = None ->
  match_at BARE_README_RE None (c ++ ")"%char :: rest) 0 (0, 0) = None.
Proof.
  intros Hc Hrw. rewrite bare_match.
  destruct (startswith (BARE ++ ")") (c ++ ")"%char :: rest)) eqn:E;
    [exfalso | reflexivity].
  apply startswith_rparen_free in E; [|reflexivity | exact Hc].
  subst c. discriminate Hrw.
Qed.

Lemma bare_sub_free c :
  rparen_free c -> match_at BARE_README_RE None c 0 (0, 0) = None.
Proof.
  intros Hc. rewrite bare_match.
  destruct (startswith (BARE ++ ")") c) eqn:E; [exfalso | reflexivity].
  apply startswith_iff in E as [r ->].
  apply rparen_free_app in Hc as [Hc _]. discriminate Hc.
Qed.

(** *** Shape of a rewritten link target *)

Lemma endswith_cons (t c : str) (x : ascii) :
  endswith t c = true -> endswith t (x :: c) = true.
Proof.
  rewrite !endswith_iff. intros [r ->]. now exists (x :: r).
Qed.

Section ChunkShape.
Variables (rw : str -> option str) (T R : str).
Hypothesis rw_shape : forall c out,
  rw c = Some out -> (exists U, out = U ++ R) /\ endswith T c = true.
Hypothesis rw_keeps_free : forall c out,
  rparen_free c -> rw c = Some out -> rparen_free out.

(** A target is left as it is or comes out ending in [R]. *)
Lemma chunk_sub_shape c :
  chunk_sub rw c = c \/ exists U, chunk_sub rw c = U ++ R.
Proof.
  induction c as [|x c IH]; cbn [chunk_sub].
  - destruct (rw []) as [out|] eqn:E; [|now left].
    right. now apply rw_shape in E as [HU _].
  - destruct (rw (x :: c)) as [out|] eqn:E.
    + right. now apply rw_shape in E as [HU _].
    + destruct IH as [->|[U ->]]; [now left|]. right. now exists (x :: U).
Qed.

(** A target that does not end in [T] is left as it is. *)
Lemma chunk_sub_fixed c :
  endswith T c = false -> chunk_sub rw c = c.
Proof.
  induction c as [|x c IH]; intros H; cbn [chunk_sub].
  - destruct (rw []) as [out|] eqn:E; [|reflexivity].
    apply rw_shape in E as [_ E]. congruence.
  - destruct (rw (x :: c)) as [out|] eqn:E.
    + apply rw_shape in E as [_ E]. congruence.
    + f_equal. apply IH. destruct (endswith T c) eqn:Ec; [|reflexivity].
      apply (endswith_cons _ _ x) in Ec. congruence.
Qed.

Lemma chunk_sub_free c :
  rparen_free c -> rparen_free (chunk_sub rw c).
Proof.
  induction c as [|x c IH]; intros Hc; cbn [chunk_sub].
  - destruct (rw []) as [out|] eqn:E; [|exact Hc].
    now apply (rw_keeps_free Hc).
  - destruct (rw (x :: c)) as [out|] eqn:E.
    + now apply (rw_keeps_free Hc).
    + apply rparen_free_cons in Hc as [Hx Hc].
      apply rparen_free_cons. auto.
Qed.
End ChunkShape.

Lemma link_rewrite_shape min T R c out :
  link_rewrite min T R c = Some out ->
  (exists U, out = U ++ R) /\ endswith T c = true.
Proof.
  intros H. apply link_rewrite_iff in H as (X & -> & _ & ->). split.
  - exists ("](" ++ X). now rewrite <- app_assoc.
  - apply endswith_iff. exists ("](" ++ X). now rewrite <- app_assoc.
Qed.

Lemma link_rewrite_free min T R c out :
  rparen_free R ->
  rparen_free c -> link_rewrite min T R c = Some out -> rparen_free out.
Proof.
  intros HR Hc H. apply link_rewrite_iff in H as (X & -> & _ & ->).
  apply rparen_free_app in Hc as [_ Hc]. apply rparen_free_app in Hc as [HX _].
  apply rparen_free_app. split; [reflexivity|].
  apply rparen_free_app. auto.
Qed.

Lemma bare_rewrite_shape c out :
  bare_rewrite c = Some out ->
  (exists U, out = U ++ "](index.html") /\ endswith "](README.html" c = true.
Proof.
  unfold bare_rewrite. destruct (str_eqb c "](README.html") eqn:E; [|discriminate].
  apply str_eqb_eq in E. subst c. intros H; inversion H. split.
  - now exists [].
  - reflexivity.
Qed.

Lemma bare_rewrite_free c out :
  rparen_free c -> bare_rewrite c = Some out -> rparen_free out.
Proof.
  unfold bare_rewrite. destruct (str_eqb c "](README.html"); [|discriminate].
  intros _ H; inversion H. reflexivity.
Qed.

(** The endings a rewritten target can have are not endings a rewrite
    looks for. *)
Ltac other_ending :=
  intros; unfold endswith; rewrite rev_app_distr; reflexivity.

Lemma html_not_md U : endswith ".md" (U ++ ".html") = false.
Proof. other_ending. Qed.

Lemma index_not_md U : endswith ".md" (U ++ "/index.html") = false.
Proof. other_ending. Qed.

Lemma bare_index_not_md U : endswith ".md" (U ++ "](index.html") = false.
Proof. other_ending. Qed.

Lemma index_not_readme U : endswith "/README.html" (U ++ "/index.html") = false.
Proof. other_ending. Qed.

Lemma bare_index_not_readme U :
  endswith "/README.html" (U ++ "](index.html") = false.
Proof. other_ending. Qed.

Lemma bare_index_not_bare U :
  endswith "](README.html" (U ++ "](index.html") = false.
Proof. other_ending. Qed.

Lemma md_shape c :
  chunk_sub md_rewrite c = c \/ exists U, chunk_sub md_rewrite c = U ++ ".html".
Proof. apply chunk_sub_shape with (T := ".md" : str). apply link_rewrite_shape. Qed.

Lemma md_fixed c : endswith ".md" c = false -> chunk_sub md_rewrite c = c.
Proof. apply chunk_sub_fixed with (R := ".html" : str). apply link_rewrite_shape. Qed.

Lemma readme_shape c :
  chunk_sub readme_rewrite c = c
  \/ exists U, chunk_sub readme_rewrite c = U ++ "/index.html".
Proof.
  apply chunk_sub_shape with (T := "/README.html" : str). apply link_rewrite_shape.
Qed.

Lemma readme_fixed c :
  endswith "/README.html" c = false -> chunk_sub readme_rewrite c = c.
Proof.
  apply chunk_sub_fixed with (R := "/index.html" : str). apply link_rewrite_shape.
Qed.

Lemma bare_shape c :
  chunk_sub bare_rewrite c = c
  \/ exists U, chunk_sub bare_rewrite c = U ++ "](index.html".
Proof.
  apply chunk_sub_shape with (T := "](README.html" : str). apply bare_rewrite_shape.
Qed.

Lemma bare_fixed c :
  endswith "](README.html" c = false -> chunk_sub bare_rewrite c = c.
Proof.
  apply chunk_sub_fixed with (R := "](index.html" : str). apply bare_rewrite_shape.
Qed.

Lemma md_free c : rparen_free c -> rparen_free (chunk_sub md_rewrite c).
Proof.
  apply chunk_sub_free. intros c' out. now apply link_rewrite_free.
Qed.

Lemma readme_free c : rparen_free c -> rparen_free (chunk_sub readme_rewrite c).
Proof.
  apply chunk_sub_free. intros c' out. now apply link_rewrite_free.
Qed.

(** On one link target the three substitutions reach a fixed point in one
    pass. *)
Lemma convert_chunk_idem c : convert_chunk (convert_chunk c) = convert_chunk c.
Proof.
  unfold convert_chunk.
  set (c1 := chunk_sub md_rewrite c).
  set (c2 := chunk_sub readme_rewrite c1).
  set (c3 := chunk_sub bare_rewrite c2).
  assert (A : chunk_sub md_rewrite c3 = c3).
  { destruct (bare_shape c2) as [E3|[U E3]]; fold c3 in E3; rewrite E3;
      [|apply md_fixed, bare_index_not_md].
    destruct (readme_shape c1) as [E2|[U E2]]; fold c2 in E2; rewrite E2;
      [|apply md_fixed, index_not_md].
    destruct (md_shape c) as [E1|[U E1]]; fold c1 in E1; rewrite E1;
      [|apply md_fixed, html_not_md].
    rewrite <- E1 at 2. reflexivity. }
  assert (B : chunk_sub readme_rewrite c3 = c3).
  { destruct (bare_shape c2) as [E3|[U E3]]; fold c3 in E3; rewrite E3;
      [|apply readme_fixed, bare_index_not_readme].
    destruct (readme_shape c1) as [E2|[U E2]]; fold c2 in E2; rewrite E2;
      [|apply readme_fixed, index_not_readme].
    rewrite <- E2 at 2. reflexivity. }
  assert (C : chunk_sub bare_rewrite c3 = c3).
  { destruct (bare_shape c2) as [E3|[U E3]]; fold c3 in E3; rewrite E3;
      [|apply bare_fixed, bare_index_not_bare].
    rewrite <- E3 at 2. reflexivity. }
  now rewrite A, B, C.
Qed.

(** *** From link targets to whole texts *)

Lemma by_link_targets (P : str -> Prop) :
  (forall c, rparen_free c -> P c) ->
  (forall c rest, rparen_free c -> P rest -> P (c ++ ")"%char :: rest)) ->
  forall s, P s.
Proof.
  intros Hfree Hstep s.
  enough (H : forall pre, rparen_free pre -> P (pre ++ s)) by now apply (H []).
  induction s as [|x s IH]; intros pre Hpre.
  - rewrite app_nil_r. now apply Hfree.
  - destruct (Ascii.eqb_spec x ")"%char) as [->|Hx].
    + apply Hstep; [exact Hpre|]. now apply (IH []).
    + change (x :: s) with ([x] ++ s). rewrite app_assoc. apply IH.
      apply rparen_free_app. split; [exact Hpre|].
      apply rparen_free_cons. split; [exact Hx | reflexivity].
Qed.

Lemma convert_links_chunk c rest :
  rparen_free c ->
  convert_internal_links (c ++ ")"%char :: rest)
  = convert_chunk c ++ ")"%char :: convert_internal_links rest.
Proof.
  intros Hc. unfold convert_internal_links, convert_chunk.
  change MD_LINK_RE with (link_re 1 ".md").
  change README_LINK_RE with (link_re 0 "/README.html").
  change [RLit "]("; RGroup1; RLit ".html)"] with (link_repl ".html").
  change [RLit "]("; RGroup1; RLit "/index.html)"] with (link_repl "/index.html").
  rewrite re_sub_link_chunk by (reflexivity || exact Hc).
  rewrite re_sub_link_chunk by (reflexivity || now apply md_free).
  apply re_sub_chunk.
  - apply bare_no_bol.
  - apply bare_sub_hit.
  - apply bare_sub_miss.
  - now apply readme_free, md_free.
Qed.

Lemma convert_links_free c :
  rparen_free c -> convert_internal_links c = c.
Proof.
  intros Hc. unfold convert_internal_links.
  change MD_LINK_RE with (link_re 1 ".md").
  change README_LINK_RE with (link_re 0 "/README.html").
  change [RLit "]("; RGroup1; RLit ".html)"] with (link_repl ".html").
  change [RLit "]("; RGroup1; RLit "/index.html)"] with (link_repl "/index.html").
  rewrite re_sub_link_free with (T := ".md" : str) by (reflexivity || exact Hc).
  rewrite re_sub_link_free by (reflexivity || exact Hc).
  apply re_sub_rparen_free; [apply bare_no_bol | apply bare_sub_free | exact Hc].
Qed.

Lemma convert_chunk_free c : rparen_free c -> rparen_free (convert_chunk c).
Proof.
  intros Hc. unfold convert_chunk.
  apply chunk_sub_free; [intros c' out; apply bare_rewrite_free|].
  now apply readme_free, md_free.
Qed.

(** C5.  The link rewriter is idempotent: rewriting an already rewritten
    text changes nothing. *)
Theorem convert_internal_links_idempotent (content : str) :
  convert_internal_links (convert_internal_links content)
  = convert_internal_links content.
Proof.
  pattern content. apply by_link_targets; clear content.
  - intros c Hc. pose proof (@convert_links_free c Hc) as E. now rewrite !E.
  - intros c rest Hc IH.
    rewrite convert_links_chunk by assumption.
    rewrite convert_links_chunk by now apply convert_chunk_free.
    now rewrite convert_chunk_idem, IH.
Qed.

(* ================================================================= *)
(** ** The heading pattern *)

Lemma prev_after_snoc prev a x : prev_after prev (a ++ [x]) = Some x.
Proof. unfold prev_after. now rewrite fold_left_app. Qed.

Lemma prev_after_line_start a :
  match prev_after None a with
  | None => a = []
  | Some c => exists p, a = p ++ [c]
  end.
Proof.
  destruct a as [|x a] using rev_ind; [reflexivity|].
  rewrite prev_after_snoc. now exists a.
Qed.

(** [re.search] steps over the positions where the pattern does not
    match. *)
Lemma search_from_skip (re : regex) (a : str) : forall prev i s,
  (forall a1 x a2, a = a1 ++ x :: a2 ->
     match_at re (prev_after prev a1) (x :: a2 ++ s) (i + length a1) (0, 0) = None) ->
  search_from re prev (a ++ s) i
  = search_from re (prev_after prev a) s (i + length a).
Proof.
  induction a as [|x a IH]; intros prev i s H.
  - cbn. now rewrite Nat.add_0_r.
  - cbn [app search_from].
    specialize (H [] x a eq_refl) as H0. cbn in H0. rewrite Nat.add_0_r in H0.
    rewrite H0. rewrite IH.
    + cbn [length]. now rewrite Nat.add_succ_r.
    + intros a1 y a2 E. specialize (H (x :: a1) y a2).
      cbn [length] in H. rewrite Nat.add_succ_r in H. apply H.
      now rewrite E.
Qed.

(** Where the pattern fails: not at the start of a line, or not on "#",
    or on "#" followed by something else than whitespace. *)
Lemma heading_no_match prev (x : ascii) (t : str) pos :
  (prev = None \/ prev = Some newline -> x = "#"%char ->
   exists y t', t = y :: t' /\ is_space y = false) ->
  match_at HEADING_RE prev (x :: t) pos (0, 0) = None.
Proof.
  intros H. unfold HEADING_RE. cbn [match_at].
  destruct prev as [c|].
  - destruct (Ascii.eqb_spec c newline) as [->|Hc]; [|reflexivity].
    destruct (Ascii.eqb_spec x "#"%char) as [->|Hx]; [|reflexivity].
    destruct H as (y & t' & -> & Hy); auto.
    cbn [greedy]. rewrite Hy. reflexivity.
  - destruct (Ascii.eqb_spec x "#"%char) as [->|Hx]; [|reflexivity].
    destruct H as (y & t' & -> & Hy); auto.
    cbn [greedy]. rewrite Hy. reflexivity.
Qed.

(** Where it matches: at the start of a line, on "#", a run of whitespace
    [ws], and a text that starts with a character that is not whitespace
    and runs to the end of its line. *)
Lemma heading_match prev (ws rest : str) (t0 : ascii) (text' : str) pos :
  prev = None \/ prev = Some newline ->
  ws <> [] -> forallb is_space ws = true ->
  is_space t0 = false ->
  forallb not_newline (t0 :: text') = true ->
  rest = [] \/ (exists r, rest = newline :: r) ->
  match_at HEADING_RE prev ("#" ++ ws ++ (t0 :: text') ++ rest) pos (0, 0)
  = Some (S pos + length ws + length (t0 :: text'),
          (S pos + length ws, S pos + length ws + length (t0 :: text'))).
Proof.
  intros Hprev Hws Hsp Ht0 Hnl Hrest.
  assert (Hbol : match_at HEADING_RE prev ("#" ++ ws ++ (t0 :: text') ++ rest)
                   pos (0, 0)
                 = greedy is_space 1
                     (fun prev' s' pos' =>
                        match_at [GOpen; Rep not_newline 1; GClose; Eol]
                          prev' s' pos' (0, 0))
                     (Some "#"%char) (ws ++ (t0 :: text') ++ rest) (S pos) 0).
  { destruct Hprev as [->| ->]; reflexivity. }
  rewrite Hbol. apply greedy_take; [exact Hsp|]. intros q.
  assert (Hlen : 1 <= length ws) by (destruct ws; [congruence | cbn; lia]).
  change ((t0 :: text') ++ rest) with (t0 :: (text' ++ rest)).
  cbn [greedy]. rewrite Ht0.
  destruct (Nat.leb_spec 1 (0 + length ws)) as [_|F]; [|lia].
  cbn [match_at fst snd].
  change (t0 :: (text' ++ rest)) with ((t0 :: text') ++ rest).
  apply greedy_take; [exact Hnl|]. intros q'.
  assert (Hlen' : 1 <= length (t0 :: text')) by (cbn; lia).
  destruct Hrest as [->|[r ->]]; cbn [greedy not_newline].
  - destruct (Nat.leb_spec 1 (0 + length (t0 :: text'))) as [_|F]; [|lia].
    reflexivity.
  - change (not_newline newline) with false. cbv iota.
    destruct (Nat.leb_spec 1 (0 + length (t0 :: text'))) as [_|F]; [|lia].
    reflexivity.
Qed.

Lemma slice_middle (a b c : str) :
  slice (a ++ b ++ c) (length a) (length a + length b) = b.
Proof.
  unfold slice. rewrite skipn_app, skipn_all, Nat.sub_diag. cbn [skipn app].
  replace (length a + length b - length a) with (length b) by lia.
  now rewrite firstn_app, firstn_all, Nat.sub_diag, app_nil_r.
Qed.

(** The title of a document whose first line opening with "#" and
    whitespace is a heading with text on the same line: that text,
    trimmed. *)
Lemma get_title_first_heading
    (pre ws rest : str) (t0 : ascii) (text' : str) (filepath : path) :
  at_line_start pre -> no_hash_space pre ->
  ws <> [] -> forallb is_space ws = true ->
  is_space t0 = false ->
  forallb not_newline (t0 :: text') = true ->
  rest = [] \/ (exists r, rest = newline :: r) ->
  get_title_from_markdown (pre ++ "#" ++ ws ++ (t0 :: text') ++ rest) filepath
  = strip (t0 :: text').
Proof.
  intros Hpre Hno Hws Hsp Ht0 Hnl Hrest.
  unfold get_title_from_markdown, re_search.
  rewrite search_from_skip.
  - assert (Hprev : prev_after None pre = None \/ prev_after None pre = Some newline).
    { destruct Hpre as [->|[p ->]]; [now left|]. right. apply prev_after_snoc. }
    cbn [Nat.add].
    pose proof (@heading_match _ ws rest t0 text' (length pre)
                  Hprev Hws Hsp Ht0 Hnl Hrest) as Hm.
    change (("#" : str) ++ ws ++ (t0 :: text') ++ rest)
      with ("#"%char :: ws ++ (t0 :: text') ++ rest) in *.
    cbn [search_from]. rewrite Hm.
    unfold group1. cbn [m_span1 fst snd].
    f_equal.
    change (pre ++ "#"%char :: ws ++ (t0 :: text') ++ rest)
      with (pre ++ ("#" : str) ++ ws ++ (t0 :: text') ++ rest).
    replace (pre ++ "#" ++ ws ++ (t0 :: text') ++ rest)
      with ((pre ++ "#" ++ ws) ++ (t0 :: text') ++ rest)
      by now rewrite <- !app_assoc.
    replace (S (length pre) + length ws) with (length (pre ++ "#" ++ ws))
      by (rewrite !length_app; cbn; lia).
    apply slice_middle.
  - intros a1 x a2 E. apply heading_no_match. intros Hp Hx. subst x.
    assert (Ha1 : at_line_start a1).
    { pose proof (prev_after_line_start a1) as Hl.
      destruct Hp as [Hp|Hp]; rewrite Hp in Hl; [now left | now right]. }
    destruct (Hno a1 a2 E Ha1) as (y & b' & -> & Hy).
    exists y, (b' ++ "#" ++ ws ++ (t0 :: text') ++ rest).
    split; [reflexivity | exact Hy].
Qed.

Lemma no_hash_space_plain (pre : str) : ~ In "#"%char pre -> no_hash_space pre.
Proof.
  intros H a b E _. exfalso. apply H. rewrite E. apply in_elt.
Qed.

Example get_title_second_line :
  get_title_from_markdown
    (("intro" ++ [newline]) ++ "#" ++ " " ++ "Install  " ++ newline :: "more")
    [("docs" : str); ("install.md" : str)]
  = ("Install" : str).
Proof.
  rewrite get_title_first_heading with (t0 := "I"%char) (text' := "nstall  ");
    try reflexivity.
  - right. now exists ("intro" : str).
  - apply no_hash_space_plain. cbn. intuition discriminate.
  - discriminate.
  - right. now exists ("more" : str).
Qed.

(* ================================================================= *)
(** ** get_title_from_markdown *)

Lemma lstrip_keeps (s : str) :
  (exists c, In c s /\ is_space c = false) ->
  exists c, In c (lstrip s) /\ is_space c = false.
Proof.
  induction s as [|x s IH]; intros (c & Hin & Hc); [destruct Hin|].
  cbn [lstrip]. destruct (is_space x) eqn:Ex.
  - apply IH. exists c. split; [|exact Hc].
    destruct Hin as [->|Hin]; [congruence | exact Hin].
  - exists c. auto.
Qed.

Lemma strip_nonempty (s : str) :
  (exists c, In c s /\ is_space c = false) -> strip s <> [].
Proof.
  intros H. apply lstrip_keeps in H as (c & Hin & Hc).
  unfold strip, rstrip.
  destruct (lstrip_keeps (rev (lstrip s))) as (d & Hd & _).
  { exists c. split; [now apply in_rev in Hin | exact Hc]. }
  intros E. apply (f_equal (@rev ascii)) in E. rewrite rev_involutive in E.
  cbn in E. rewrite E in Hd. destruct Hd.
Qed.

Lemma title_scan_length (b : bool) (s : str) :
  length (title_scan b s) = length s.
Proof.
  revert b; induction s as [|c s IH]; intros b; [reflexivity|].
  cbn [title_scan length]. now rewrite IH.
Qed.

Lemma str_replace_char_length (a b : ascii) (s : str) :
  length (str_replace [a] [b] s) = length s.
Proof.
  unfold str_replace. induction s as [|c s IH]; [reflexivity|].
  cbn [replace_scan startswith length Nat.sub].
  destruct (Ascii.eqb a c); cbn [andb app length]; now rewrite IH.
Qed.

Lemma fallback_title_nonempty (name : str) :
  name <> [] ->
  str_title (str_replace "_" " " (str_replace "-" " " name)) <> [].
Proof.
  intros Hne E. apply (f_equal (@length ascii)) in E.
  unfold str_title in E. rewrite title_scan_length in E.
  change ("_" : str) with ["_"%char] in E. change (" " : str) with [" "%char] in E.
  change ("-" : str) with ["-"%char] in E.
  rewrite !str_replace_char_length in E.
  destruct name; [congruence | discriminate E].
Qed.

Lemma name_stem_nonempty (name : str) : name <> [] -> name_stem name <> [].
Proof.
  intros Hne. unfold name_stem. destruct (rfind "." name) as [i|]; [|exact Hne].
  destruct (Nat.ltb_spec 0 i) as [Hi|Hi]; cbn [andb]; [|exact Hne].
  destruct (i <? length name - 1); [|exact Hne].
  destruct name as [|c name]; [congruence|].
  destruct i as [|i]; [lia | discriminate].
Qed.

(** C3.  A line that is a bare "#" makes the pattern's whitespace run
    cross the line end: for the document whose first line is "#" and
    whose second line is the heading "# Title", the extractor returns
    "# Title", not the heading's text "Title". *)
Lemma get_title_after_bare_hash :
  get_title_from_markdown ("#" ++ newline :: "# Title")
    [("docs" : str); ("page.md" : str)]
  = ("# Title" : str).
Proof. vm_compute. reflexivity. Qed.

(** C4 (as amended).  The title is not empty when the heading match, if
    there is one, captures some character that is not whitespace, and,
    if there is none, the file name is not empty and, for a README or
    index file, neither is the name of the parent directory. *)
Theorem get_title_nonempty (content : str) (filepath : path) :
  (forall m, re_search HEADING_RE content = Some m ->
             exists c, In c (group1 content m) /\ is_space c = false) ->
  (re_search HEADING_RE content = None ->
   path_name filepath <> [] /\
   (str_eqb (path_stem filepath) "README" || str_eqb (path_stem filepath) "index"
      = true -> path_name (path_parent filepath) <> [])) ->
  get_title_from_markdown content filepath <> [].
Proof.
  intros Hm Hn. unfold get_title_from_markdown.
  destruct (re_search HEADING_RE content) as [m|].
  - apply strip_nonempty. now apply Hm.
  - destruct (Hn eq_refl) as [Hname Hparent].
    apply fallback_title_nonempty.
    destruct (str_eqb (path_stem filepath) "README"
              || str_eqb (path_stem filepath) "index"); [auto|].
    now apply name_stem_nonempty.
Qed.

Lemma get_title_nonempty_witness :
  get_title_from_markdown "# Install" [("docs" : str); ("install.md" : str)] <> []
  /\ get_title_from_markdown "no heading" [("docs" : str); ("README.md" : str)] <> [].
Proof.
  split.
  - apply get_title_nonempty.
    + intros m Hm. vm_compute in Hm. inversion Hm; subst m.
      exists "I"%char. split; [vm_compute; auto | reflexivity].
    + intros Hn. vm_compute in Hn. discriminate Hn.
  - apply get_title_nonempty.
    + intros m Hm. vm_compute in Hm. discriminate Hm.
    + intros _. split; [vm_compute; discriminate|].
      intros _. vm_compute. discriminate.
Defined.

(** C4, the claim as written: a heading line whose text is only
    whitespace gives the empty title, and so does a README.md that has
    no heading and no parent directory. *)
Lemma get_title_empty :
  get_title_from_markdown "#  " [("docs" : str); ("page.md" : str)] = []
  /\ path_name [("docs" : str); ("page.md" : str)] <> []
  /\ get_title_from_markdown "no heading" [("README.md" : str)] = []
  /\ path_name [("README.md" : str)] <> [].
Proof. repeat split; try (vm_compute; reflexivity); vm_compute; discriminate. Qed.

(* ================================================================= *)
(** ** Order and sorting *)

Section Lex.
Variables (A : Type) (eqb ltb : A -> A -> bool).
Hypothesis eqb_eq : forall x y, eqb x y = true <-> x = y.
Hypothesis ltb_irrefl : forall x, ltb x x = false.
Hypothesis ltb_trans : forall x y z,
  ltb x y = true -> ltb y z = true -> ltb x z = true.
Hypothesis ltb_total : forall x y, ltb x y = false -> ltb y x = false -> x = y.

Lemma eqb_refl' x : eqb x x = true.
Proof. now apply eqb_eq. Qed.

Lemma lex_irrefl a : lex_ltb eqb ltb a a = false.
Proof.
  induction a as [|x a IH]; [reflexivity|]. cbn. now rewrite eqb_refl'.
Qed.

Lemma lex_trans a : forall b c,
  lex_ltb eqb ltb a b = true -> lex_ltb eqb ltb b c = true ->
  lex_ltb eqb ltb a c = true.
Proof.
  induction a as [|x a IH]; intros [|y b] [|z c] H1 H2; cbn in *;
    try discriminate; try reflexivity.
  destruct (eqb x y) eqn:Exy.
  - apply eqb_eq in Exy. subst y. destruct (eqb x z); [now apply (IH b) | exact H2].
  - destruct (eqb y z) eqn:Eyz.
    + apply eqb_eq in Eyz. subst z. now rewrite Exy.
    + destruct (eqb x z) eqn:Exz; [|now apply ltb_trans with y].
      apply eqb_eq in Exz. subst z.
      assert (F : ltb x x = true) by now apply ltb_trans with y.
      rewrite ltb_irrefl in F. discriminate F.
Qed.

Lemma lex_total a : forall b,
  lex_ltb eqb ltb a b = false -> lex_ltb eqb ltb b a = false -> a = b.
Proof.
  induction a as [|x a IH]; intros [|y b] H1 H2; cbn in *;
    try discriminate; try reflexivity.
  destruct (eqb x y) eqn:Exy.
  - apply eqb_eq in Exy. subst y. rewrite eqb_refl' in H2.
    f_equal. now apply IH.
  - destruct (eqb y x) eqn:Eyx.
    + apply eqb_eq in Eyx. subst y. rewrite eqb_refl' in Exy. discriminate Exy.
    + assert (x = y) by now apply ltb_total. subst y.
      rewrite eqb_refl' in Exy. discriminate Exy.
Qed.

Lemma lex_app p a b :
  lex_ltb eqb ltb (p ++ a) (p ++ b) = lex_ltb eqb ltb a b.
Proof.
  induction p as [|x p IH]; [reflexivity|]. cbn. now rewrite eqb_refl'.
Qed.

Lemma lex_single x y :
  lex_ltb eqb ltb [x] [y] = ltb x y.
Proof.
  cbn. destruct (eqb x y) eqn:E; [|reflexivity].
  apply eqb_eq in E. subst y. now rewrite ltb_irrefl.
Qed.
End Lex.

Lemma nat_of_ascii_inj (x y : ascii) : nat_of_ascii x = nat_of_ascii y -> x = y.
Proof.
  intros H. rewrite <- (ascii_nat_embedding x), <- (ascii_nat_embedding y).
  now rewrite H.
Qed.

Lemma char_ltb_irrefl x : char_ltb x x = false.
Proof. apply Nat.ltb_irrefl. Qed.

Lemma char_ltb_trans x y z :
  char_ltb x y = true -> char_ltb y z = true -> char_ltb x z = true.
Proof. unfold char_ltb. rewrite !Nat.ltb_lt. lia. Qed.

Lemma char_ltb_total x y :
  char_ltb x y = false -> char_ltb y x = false -> x = y.
Proof.
  unfold char_ltb. rewrite !Nat.ltb_ge. intros. apply nat_of_ascii_inj. lia.
Qed.

Ltac char_order :=
  first [ apply Ascii.eqb_eq
        | apply char_ltb_irrefl | apply char_ltb_trans | apply char_ltb_total ].

Lemma str_ltb_irrefl a : str_ltb a a = false.
Proof. apply lex_irrefl; char_order. Qed.

Lemma str_ltb_trans a b c :
  str_ltb a b = true -> str_ltb b c = true -> str_ltb a c = true.
Proof.
  apply lex_trans; char_order.
Qed.

Lemma str_ltb_total a b : str_ltb a b = false -> str_ltb b a = false -> a = b.
Proof.
  apply lex_total; char_order.
Qed.

Ltac str_order :=
  first [ apply str_eqb_eq
        | apply str_ltb_irrefl | apply str_ltb_trans | apply str_ltb_total ].

Lemma path_ltb_irrefl p : path_ltb p p = false.
Proof. apply lex_irrefl; str_order. Qed.

Lemma path_ltb_trans p q r :
  path_ltb p q = true -> path_ltb q r = true -> path_ltb p r = true.
Proof.
  apply lex_trans; str_order.
Qed.

Lemma path_ltb_total p q : path_ltb p q = false -> path_ltb q p = false -> p = q.
Proof.
  apply lex_total; str_order.
Qed.

(** Siblings are ordered by their names. *)
Lemma path_ltb_siblings (d : path) (m n : str) :
  path_ltb (d ++ [m]) (d ++ [n]) = str_ltb m n.
Proof.
  unfold path_ltb. rewrite lex_app by str_order.
  apply lex_single; str_order.
Qed.

Lemma path_lt_le p q : path_ltb p q = true -> path_le p q.
Proof.
  intros H. unfold path_le. destruct (path_ltb q p) eqn:E; [|reflexivity].
  assert (F : path_ltb p p = true) by now apply path_ltb_trans with q.
  rewrite path_ltb_irrefl in F. discriminate F.
Qed.

Lemma path_le_trans p q r : path_le p q -> path_le q r -> path_le p r.
Proof.
  unfold path_le. intros H1 H2.
  destruct (path_ltb r p) eqn:E; [exfalso | reflexivity].
  destruct (path_ltb q r) eqn:E2.
  - assert (F : path_ltb q p = true) by now apply path_ltb_trans with r.
    congruence.
  - assert (q = r) by now apply path_ltb_total. subst r. congruence.
Qed.

(** *** sorted *)

Lemma insert_sorted_perm x l : Permutation (insert_sorted x l) (x :: l).
Proof.
  induction l as [|y l IH]; cbn; [reflexivity|].
  destruct (path_ltb x y); [reflexivity|].
  rewrite IH. apply perm_swap.
Qed.

Lemma sorted_acc_perm l : forall acc,
  Permutation (fold_left (fun acc x => insert_sorted x acc) l acc) (l ++ acc).
Proof.
  induction l as [|x l IH]; intros acc; cbn; [reflexivity|].
  rewrite IH, insert_sorted_perm. symmetry. apply Permutation_middle.
Qed.

Lemma sorted_perm l : Permutation (sorted l) l.
Proof. unfold sorted. rewrite sorted_acc_perm. now rewrite app_nil_r. Qed.

Lemma insert_sorted_ok x l :
  StronglySorted path_le l -> StronglySorted path_le (insert_sorted x l).
Proof.
  induction l as [|y l IH]; intros Hs; cbn.
  - constructor; constructor.
  - inversion Hs as [|y' l' Hl Hy]; subst.
    destruct (path_ltb x y) eqn:E.
    + constructor; [exact Hs|]. constructor; [now apply path_lt_le|].
      eapply Forall_impl; [|exact Hy]. intros z Hz.
      apply path_le_trans with y; [now apply path_lt_le | exact Hz].
    + constructor; [now apply IH|].
      apply Forall_forall. intros z Hz.
      apply (Permutation_in _ (insert_sorted_perm x l)) in Hz.
      destruct Hz as [<-|Hz]; [exact E|].
      rewrite Forall_forall in Hy. now apply Hy.
Qed.

Lemma sorted_ok l : StronglySorted path_le (sorted l).
Proof.
  unfold sorted.
  enough (H : forall acc, StronglySorted path_le acc ->
            StronglySorted path_le
              (fold_left (fun acc x => insert_sorted x acc) l acc))
    by (apply H; constructor).
  induction l as [|x l IH]; intros acc Hacc; cbn; [exact Hacc|].
  apply IH. now apply insert_sorted_ok.
Qed.

Lemma StronglySorted_filter {A : Type} (R : A -> A -> Prop) (f : A -> bool) l :
  StronglySorted R l -> StronglySorted R (filter f l).
Proof.
  induction 1 as [|x l Hl IH Hx]; cbn; [constructor|].
  destruct (f x); [|exact IH]. constructor; [exact IH|].
  apply Forall_forall. intros y Hy. apply filter_In in Hy as [Hy _].
  rewrite Forall_forall in Hx. now apply Hx.
Qed.

Lemma Permutation_filter {A : Type} (f : A -> bool) l l' :
  Permutation l l' -> Permutation (filter f l) (filter f l').
Proof.
  induction 1 as [|x l l' H IH|x y l|l l' l'' H1 IH1 H2 IH2]; cbn.
  - constructor.
  - destruct (f x); [now constructor | exact IH].
  - destruct (f x), (f y); try reflexivity. apply perm_swap.
  - now transitivity (filter f l').
Qed.

(** Names of siblings in path order are in text order. *)
Lemma sorted_siblings (d : path) (names : list str) :
  StronglySorted path_le (map (path_div d) names) ->
  StronglySorted str_le names.
Proof.
  induction names as [|n names IH]; cbn; intros H; [constructor|].
  inversion H as [|p l Hl Hn]; subst. constructor; [now apply IH|].
  apply Forall_forall. intros m Hm. rewrite Forall_forall in Hn.
  specialize (Hn (path_div d m) (in_map _ _ _ Hm)).
  unfold path_le, path_div in Hn. rewrite path_ltb_siblings in Hn. exact Hn.
Qed.

(* ================================================================= *)
(** ** get_files_in_section *)

Lemma fold_append_filter {A : Type} (p : A -> bool) (l acc : list A) :
  fold_left (fun files f => if p f then files ++ [f] else files) l acc
  = acc ++ filter p l.
Proof.
  revert acc; induction l as [|x l IH]; intros acc; cbn.
  - now rewrite app_nil_r.
  - rewrite IH. destruct (p x); [|reflexivity].
    now rewrite <- app_assoc.
Qed.

Lemma get_files_in_section_missing fs d :
  path_exists fs d = false -> get_files_in_section fs d = [].
Proof. intros H. unfold get_files_in_section. now rewrite H. Qed.

Lemma get_files_in_section_eq fs d :
  path_exists fs d = true ->
  get_files_in_section fs d
  = (if path_exists fs (path_div d "README.md")
     then [path_div d "README.md"] else [])
    ++ listed_files fs d.
Proof.
  intros H. unfold get_files_in_section. rewrite H. cbn [negb].
  rewrite fold_append_filter.
  now destruct (path_exists fs (path_div d "README.md")).
Qed.

Lemma is_readme_div d : is_readme (path_div d "README.md") = true.
Proof. unfold is_readme, path_div. now rewrite path_name_snoc. Qed.

Lemma filter_filter_same {A : Type} (p : A -> bool) l :
  filter p (filter p l) = filter p l.
Proof.
  induction l as [|x l IH]; [reflexivity|]. cbn.
  destruct (p x) eqn:E; [|exact IH]. cbn. now rewrite E, IH.
Qed.

(** Of the files of a section, the ones that are not README.md. *)
Lemma listed_of_files fs d :
  filter (fun f => negb (is_readme f)) (get_files_in_section fs d)
  = if path_exists fs d then listed_files fs d else [].
Proof.
  destruct (path_exists fs d) eqn:E.
  - rewrite get_files_in_section_eq by assumption. rewrite filter_app.
    unfold listed_files. rewrite filter_filter_same.
    destruct (path_exists fs (path_div d "README.md")); [|reflexivity].
    cbn [filter]. now rewrite is_readme_div.
  - now rewrite get_files_in_section_missing.
Qed.

Lemma glob_md_names fs d :
  glob_md fs d = map (path_div d) (filter (endswith ".md") (dir_names fs d)).
Proof.
  unfold glob_md, dir_names. destruct (lookup fs d) as [[t|entries]|]; try reflexivity.
  induction entries as [|[n c] es IH]; [reflexivity|]. cbn [filter map fst].
  destruct (endswith ".md" n); cbn [map]; now rewrite IH.
Qed.

Lemma names_of_listed d (names : list str) :
  map path_name
    (filter (fun f => negb (is_readme f)) (map (path_div d) names))
  = filter (fun n => negb (str_eqb n "README.md")) names.
Proof.
  unfold is_readme, path_div.
  induction names as [|n names IH]; [reflexivity|]. cbn [map filter].
  rewrite (path_name_snoc d n).
  destruct (str_eqb n "README.md"); cbn [negb map]; [exact IH|].
  now rewrite (path_name_snoc d n), IH.
Qed.

Lemma filter_and {A : Type} (p q : A -> bool) l :
  filter q (filter p l) = filter (fun x => p x && q x) l.
Proof.
  induction l as [|x l IH]; [reflexivity|]. cbn.
  destruct (p x); cbn; [|exact IH]. destruct (q x); now rewrite IH.
Qed.

Lemma listed_files_div fs d :
  listed_files fs d = map (path_div d) (map path_name (listed_files fs d)).
Proof.
  unfold listed_files.
  assert (H : forall f, In f (sorted (glob_md fs d)) -> exists n, f = path_div d n).
  { intros f Hf. apply (Permutation_in _ (sorted_perm _)) in Hf.
    rewrite glob_md_names in Hf. apply in_map_iff in Hf as (n & <- & _).
    now exists n. }
  induction (sorted (glob_md fs d)) as [|f l IH]; [reflexivity|].
  cbn [filter]. destruct (negb (is_readme f)).
  - cbn [map]. destruct (H f (or_introl eq_refl)) as [n ->].
    replace (path_name (path_div d n)) with n
      by (unfold path_div; now rewrite path_name_snoc).
    f_equal. apply IH. intros g Hg. apply H. now right.
  - apply IH. intros g Hg. apply H. now right.
Qed.

(** The listed files of a section: which, and in what order. *)
Lemma listed_files_spec fs d :
  let names := map path_name (listed_files fs d) in
  listed_files fs d = map (path_div d) names
  /\ Permutation names (filter listed_name (dir_names fs d))
  /\ StronglySorted str_le names
  /\ ~ In ("README.md" : str) names.
Proof.
  intros names. subst names. split; [apply listed_files_div|]. split; [|split].
  - unfold listed_files.
    rewrite (Permutation_map path_name
               (Permutation_filter _ (sorted_perm (glob_md fs d)))).
    rewrite glob_md_names, names_of_listed, filter_and. reflexivity.
  - apply sorted_siblings with d. rewrite <- listed_files_div.
    apply StronglySorted_filter, sorted_ok.
  - intros Hin. apply in_map_iff in Hin as (f & Hn & Hf).
    apply filter_In in Hf as [_ Hf]. unfold is_readme in Hf.
    rewrite Hn in Hf. discriminate Hf.
Qed.

(* ================================================================= *)
(** ** build_sidebar *)

Lemma md_to_html_path_child (dir name : str) :
  name <> [] ->
  exists u, md_to_html_path (path_div (path_div DOCS_DIR dir) name) = Some u.
Proof.
  intros Hne. unfold md_to_html_path, path_div. rewrite <- app_assoc.
  rewrite relative_to_app. cbn [app].
  change [dir; name] with ([dir] ++ [name]). rewrite path_name_snoc.
  destruct (str_eqb name "README.md"); [eauto|].
  unfold with_suffix. rewrite path_name_snoc.
  destruct name; [congruence|]. cbn [option_map]. eauto.
Qed.

Lemma files_have_urls fs (dir : str) f :
  In f (get_files_in_section fs (path_div DOCS_DIR dir)) ->
  exists u, md_to_html_path f = Some u.
Proof.
  intros Hf. destruct (path_exists fs (path_div DOCS_DIR dir)) eqn:E.
  - rewrite get_files_in_section_eq in Hf by assumption.
    apply in_app_or in Hf as [Hf|Hf].
    + destruct (path_exists fs (path_div (path_div DOCS_DIR dir) "README.md"));
        [|destruct Hf].
      destruct Hf as [<-|[]]. now apply md_to_html_path_child.
    + unfold listed_files in Hf. apply filter_In in Hf as [Hf _].
      apply (Permutation_in _ (sorted_perm _)) in Hf.
      unfold glob_md in Hf.
      destruct (lookup fs (path_div DOCS_DIR dir)) as [[t|es]|]; try destruct Hf.
      apply in_map_iff in Hf as (e & <- & He). apply filter_In in He as [_ He].
      apply md_to_html_path_child. intros Hnil. rewrite Hnil in He.
      discriminate He.
  - rewrite get_files_in_section_missing in Hf by assumption. destruct Hf.
Qed.

Lemma can_read_some fs f :
  can_read fs f = true -> exists content, read_text fs f = Some content.
Proof. unfold can_read. destruct (read_text fs f); [eauto | discriminate]. Qed.

(** The loop over the children appends one link per child that is not
    README.md. *)
Lemma for_each_sidebar_child fs cur (children : list path) :
  (forall f, In f children ->
     (exists u, md_to_html_path f = Some u) /\ can_read fs f = true) ->
  exists lines,
    Forall2 (child_link fs cur)
      (filter (fun f => negb (is_readme f)) children) lines
    /\ forall html,
         for_each (sidebar_child fs cur) children html = Some (html ++ lines).
Proof.
  induction children as [|f children IH]; intros H.
  - exists []. split; [constructor|]. intros html. cbn. now rewrite app_nil_r.
  - destruct IH as (lines & HF & Hrun); [intros g Hg; apply H; now right|].
    destruct (H f (or_introl eq_refl)) as [[u Hu] Hr].
    apply can_read_some in Hr as [content Hc].
    cbn [filter]. unfold is_readme at 1.
    destruct (str_eqb (path_name f) "README.md") eqn:E; cbn [negb].
    + exists lines. split; [exact HF|]. intros html. cbn [for_each].
      unfold sidebar_child at 1. rewrite Hu, Hc. cbn [bind]. rewrite E.
      cbn [bind]. apply Hrun.
    + exists (child_li u (active_class_for cur u)
                (get_title_from_markdown content f) :: lines).
      split.
      * constructor; [|exact HF]. exists u, content. auto.
      * intros html. cbn [for_each].
        unfold sidebar_child at 1. rewrite Hu, Hc. cbn [bind]. rewrite E.
        cbn [bind]. rewrite Hrun. rewrite <- app_assoc. reflexivity.
Qed.

(** What the loop body appends for an entry with a section directory. *)
Lemma sidebar_entry_section fs cur (title url dir : str) :
  dir <> [] ->
  forallb (can_read fs) (get_files_in_section fs (path_div DOCS_DIR dir)) = true ->
  let children := get_files_in_section fs (path_div DOCS_DIR dir) in
  exists lines,
    Forall2 (child_link fs cur)
      (filter (fun f => negb (is_readme f)) children) lines
    /\ forall html,
         sidebar_entry fs cur html (title, url, Some dir)
         = Some (html ++ section_li url title
                   :: nested_list children lines ++ ["</li>" : str]).
Proof.
  intros Hne Hread children. subst children.
  destruct (@for_each_sidebar_child fs cur
              (get_files_in_section fs (path_div DOCS_DIR dir)))
    as (lines & HF & Hrun).
  { intros f Hf. split; [now apply (files_have_urls fs dir)|].
    rewrite forallb_forall in Hread. now apply Hread. }
  exists lines. split; [exact HF|]. intros html.
  unfold sidebar_entry. destruct dir as [|d0 dir]; [congruence|].
  rewrite Hrun.
  destruct (get_files_in_section fs (path_div DOCS_DIR (d0 :: dir)));
    cbn [bind nested_list]; f_equal;
    repeat (rewrite <- app_assoc; cbn [app]); reflexivity.
Qed.

(** What it appends for an entry without one. *)
Lemma sidebar_entry_page fs cur html (title url : str) :
  sidebar_entry fs cur html (title, url, None)
  = Some (html ++ [page_li url (active_class_for cur url) title]).
Proof. reflexivity. Qed.

Lemma sidebar_entry_block fs cur (e : nav_entry) :
  entry_readable fs e = true ->
  exists rest, forall html,
    sidebar_entry fs cur html e = Some (html ++ entry_first_line cur e :: rest).
Proof.
  destruct e as [[title url] [dir|]]; unfold entry_readable; cbn [snd]; intros H.
  - destruct dir as [|d0 dir].
    + exists []. intros html. reflexivity.
    + destruct (@sidebar_entry_section fs cur title url (d0 :: dir))
        as (lines & _ & Hrun); [discriminate | exact H |].
      eexists. intros html. rewrite Hrun. reflexivity.
  - exists []. intros html. reflexivity.
Qed.

(** The loop over the navigation list appends the entries' blocks in the
    order of the list. *)
Lemma for_each_blocks fs cur (entries : list nav_entry) :
  forallb (entry_readable fs) entries = true ->
  exists blocks,
    Forall2 (fun e block =>
               (forall html, sidebar_entry fs cur html e = Some (html ++ block))
               /\ exists rest, block = entry_first_line cur e :: rest)
      entries blocks
    /\ forall html,
         for_each (sidebar_entry fs cur) entries html
         = Some (html ++ concat blocks).
Proof.
  induction entries as [|e entries IH]; cbn [forallb]; intros H.
  - exists []. split; [constructor|]. intros html. cbn. now rewrite app_nil_r.
  - apply andb_true_iff in H as [He H].
    destruct (IH H) as (blocks & HF & Hrun).
    destruct (sidebar_entry_block fs cur e He) as (rest & Hb).
    exists ((entry_first_line cur e :: rest) :: blocks). split.
    + constructor; [|exact HF]. split; [exact Hb | now exists rest].
    + intros html. cbn [for_each]. rewrite Hb. cbn [bind concat].
      rewrite Hrun. now rewrite <- app_assoc.
Qed.

(* ================================================================= *)
(** ** The navigation claims *)

Lemma Forall2_map_l {A B C : Type} (P : B -> C -> Prop) (f : A -> B) l l' :
  Forall2 P (map f l) l' -> Forall2 (fun a c => P (f a) c) l l'.
Proof.
  revert l'; induction l as [|a l IH]; intros l' H; inversion H; subst;
    constructor; auto.
Qed.

Lemma Forall2_impl_in {A B : Type} (P Q : A -> B -> Prop) l l' :
  (forall a b, In a l -> P a b -> Q a b) ->
  Forall2 P l l' -> Forall2 Q l l'.
Proof.
  intros H HF. induction HF as [|a b l l' Hab HF IH]; constructor.
  - apply H; [now left | exact Hab].
  - apply IH. intros a' b' Hin. apply H. now right.
Qed.

Lemma occurs_iff (sub s : str) : occurs sub s = true <-> contains sub s.
Proof.
  induction s as [|c s IH]; cbn [occurs]; rewrite orb_true_iff.
  - split.
    + intros [H|H]; [|discriminate H].
      apply startswith_iff in H as [r Hr]. now exists [], r.
    + intros (a & b & H). left. destruct a; [|discriminate H].
      apply startswith_iff. now exists b.
  - rewrite IH. split.
    + intros [H|H]; [|now apply contains_cons].
      apply startswith_iff in H as [r Hr]. now exists [], r.
    + intros ([|x a] & b & H).
      * left. apply startswith_iff. now exists b.
      * right. inversion H; subst. now exists a, b.
Qed.

Lemma nav_entry_readable fs (e : nav_entry) :
  all_readable fs = true -> In e NAV_STRUCTURE -> entry_readable fs e = true.
Proof. unfold all_readable. rewrite forallb_forall. auto. Qed.

(** Facts about the configured sections, by inspection of the list. *)
Lemma nav_sections (title url dir : str) :
  In (title, url, Some dir) NAV_STRUCTURE ->
  dir <> [] /\ ~ In "/"%char dir
  /\ url = dir ++ "/index.html"
  /\ str_title (str_replace "_" " " (str_replace "-" " " dir)) = title
  /\ occurs ACTIVE (section_li url title) = false.
Proof.
  intros H. cbn in H.
  repeat (destruct H as [H|H];
          [inversion H; subst;
           (split; [discriminate|]);
           (split; [cbn; intuition discriminate|]);
           (split; [reflexivity|]);
           (split; vm_compute; reflexivity) |]).
  destruct H.
Qed.

Lemma build_sidebar_blocks fs cur :
  all_readable fs = true ->
  exists blocks,
    build_sidebar fs cur
    = Some (join newline_str (("<ul>" : str) :: concat blocks ++ ["</ul>" : str]))
    /\ Forall2 (fun e block =>
                  (forall html, sidebar_entry fs cur html e = Some (html ++ block))
                  /\ exists rest, block = entry_first_line cur e :: rest)
         NAV_STRUCTURE blocks.
Proof.
  intros H. destruct (for_each_blocks fs cur NAV_STRUCTURE H) as (blocks & HF & Hrun).
  exists blocks. split; [|exact HF].
  unfold build_sidebar. rewrite Hrun. reflexivity.
Qed.

(** C7.  The sidebar is the blocks of the navigation entries in the order
    of the navigation list, each block opening with its entry's link.
    Under a section whose directory exists, the nested list holds one
    link per "*.md" file of the directory other than README.md, in the
    order of the file names. *)
Theorem sidebar_order (fs : node) (current_page : str) :
  all_readable fs = true ->
  (exists blocks,
     build_sidebar fs current_page
     = Some (join newline_str (("<ul>" : str) :: concat blocks ++ ["</ul>" : str]))
     /\ Forall2 (fun e block =>
                   sidebar_entry fs current_page [] e = Some block
                   /\ exists rest, block = entry_first_line current_page e :: rest)
          NAV_STRUCTURE blocks)
  /\ (forall title url dir,
        In (title, url, Some dir) NAV_STRUCTURE ->
        path_exists fs (path_div DOCS_DIR dir) = true ->
        exists names lines,
          sidebar_entry fs current_page [] (title, url, Some dir)
          = Some (section_li url title
                    :: nested_list (get_files_in_section fs (path_div DOCS_DIR dir)) lines
                    ++ ["</li>" : str])
          /\ Forall2 (fun name line =>
                        child_link fs current_page
                          (path_div (path_div DOCS_DIR dir) name) line)
               names lines
          /\ ~ In ("README.md" : str) names
          /\ StronglySorted str_le names
          /\ Permutation names
               (filter listed_name (dir_names fs (path_div DOCS_DIR dir)))).
Proof.
  intros Hread. split.
  - destruct (@build_sidebar_blocks fs current_page Hread) as (blocks & Hb & HF).
    exists blocks. split; [exact Hb|].
    eapply Forall2_impl_in; [|exact HF]. cbn beta.
    intros e block _ [Hrun Hfirst]. split; [apply (Hrun []) | exact Hfirst].
  - intros title url dir Hin Hex.
    destruct (nav_sections Hin) as (Hne & _).
    pose proof (@nav_entry_readable fs _ Hread Hin) as He.
    unfold entry_readable in He. cbn [snd] in He.
    destruct (@sidebar_entry_section fs current_page title url dir Hne He)
      as (lines & HF & Hrun).
    rewrite listed_of_files, Hex in HF.
    destruct (listed_files_spec fs (path_div DOCS_DIR dir))
      as (Hdiv & Hperm & Hsorted & Hnot).
    exists (map path_name (listed_files fs (path_div DOCS_DIR dir))), lines.
    split; [apply (Hrun [])|]. split; [|auto].
    apply Forall2_map_l. now rewrite <- Hdiv.
Qed.

Lemma sidebar_order_witness :
  exists names lines,
    sidebar_entry example_docs "getting-started/install.html" []
      ("Getting Started" : str, "getting-started/index.html" : str,
       Some ("getting-started" : str))
    = Some (section_li "getting-started/index.html" "Getting Started"
              :: nested_list
                   (get_files_in_section example_docs
                      (path_div DOCS_DIR "getting-started")) lines
              ++ ["</li>" : str])
    /\ Forall2 (fun name line =>
                  child_link example_docs "getting-started/install.html"
                    (path_div (path_div DOCS_DIR "getting-started") name) line)
         names lines
    /\ ~ In ("README.md" : str) names
    /\ StronglySorted str_le names
    /\ Permutation names
         (filter listed_name
            (dir_names example_docs (path_div DOCS_DIR "getting-started"))).
Proof.
  refine (proj2 (@sidebar_order example_docs "getting-started/install.html" _)
            "Getting Started" "getting-started/index.html" "getting-started" _ _).
  - vm_compute. reflexivity.
  - cbn. auto.
  - vm_compute. reflexivity.
Defined.

(** C9.  A section directory that does not exist has no files, and its
    sidebar entry is rendered all the same: the section link and the
    closing tag, with no nested list. *)
Theorem sidebar_missing_section
    (fs : node) (current_page : str) (html : list str) (title url dir : str) :
  dir <> [] ->
  path_exists fs (path_div DOCS_DIR dir) = false ->
  get_files_in_section fs (path_div DOCS_DIR dir) = []
  /\ sidebar_entry fs current_page html (title, url, Some dir)
     = Some (html ++ [section_li url title; "</li>" : str]).
Proof.
  intros Hne Hex.
  pose proof (get_files_in_section_missing fs _ Hex) as Hfiles.
  split; [exact Hfiles|].
  unfold sidebar_entry. destruct dir as [|d0 dir]; [congruence|].
  rewrite Hfiles. cbn [bind]. now rewrite <- app_assoc.
Qed.

Lemma sidebar_missing_section_witness :
  get_files_in_section example_docs (path_div DOCS_DIR "core-guides") = []
  /\ sidebar_entry example_docs "index.html" [("<ul>" : str)]
       ("Core Guides" : str, "core-guides/index.html" : str,
        Some ("core-guides" : str))
     = Some ([("<ul>" : str)]
               ++ [section_li "core-guides/index.html" "Core Guides";
                   "</li>" : str]).
Proof.
  apply (@sidebar_missing_section example_docs "index.html" [("<ul>" : str)]
           "Core Guides" "core-guides/index.html" "core-guides").
  - discriminate.
  - vm_compute. reflexivity.
Defined.

Lemma active_class_for_iff (current_page url : str) :
  (active_class_for current_page url = ACTIVE <-> current_page = url)
  /\ (active_class_for current_page url = [] <-> current_page <> url).
Proof.
  unfold active_class_for. destruct (str_eqb current_page url) eqn:E.
  - apply str_eqb_eq in E. split; split; intros H; try congruence; auto.
    discriminate H.
  - apply str_eqb_neq in E. split; split; intros H; try congruence; auto.
    discriminate H.
Qed.

Lemma marked_tag (current_page url : str) :
  marked_when_current current_page url (anchor_tag url (str_eqb current_page url)).
Proof.
  unfold marked_when_current. destruct (str_eqb current_page url) eqn:E.
  - apply str_eqb_eq in E. split; [reflexivity | congruence].
  - apply str_eqb_neq in E. split; [congruence | reflexivity].
Qed.

(** The three lines of the sidebar, read as a link in its frame. *)
Lemma section_li_rendered (url title : str) :
  section_li url title = title_span ++ anchor_tag url false ++ title ++ "</a></span>".
Proof.
  unfold section_li, SECTION_SPAN, title_span, anchor_tag.
  now rewrite <- !app_assoc.
Qed.

Lemma page_li_rendered (current_page url title : str) :
  page_li url (active_class_for current_page url) title
  = title_span ++ anchor_tag url (str_eqb current_page url) ++ title
      ++ "</a></span></li>".
Proof.
  unfold page_li, SECTION_SPAN, title_span, anchor_tag, active_class_for.
  destruct (str_eqb current_page url); now rewrite <- !app_assoc.
Qed.

Lemma child_li_rendered (current_page child_url child_title : str) :
  child_li child_url (active_class_for current_page child_url) child_title
  = "<li>" ++ anchor_tag child_url (str_eqb current_page child_url)
      ++ child_title ++ "</a></li>".
Proof.
  unfold child_li, anchor_tag, active_class_for.
  destruct (str_eqb current_page child_url); now rewrite <- !app_assoc.
Qed.

Lemma child_link_rendered fs current_page f line :
  child_link fs current_page f line -> rendered_child fs current_page f line.
Proof.
  intros (child_url & content & Hu & Hc & ->).
  exists child_url, content, (anchor_tag child_url (str_eqb current_page child_url)).
  repeat split; try assumption; try apply marked_tag.
  apply child_li_rendered.
Qed.

(** C10.  In the sidebar of any page, as it is rendered: the link of an
    entry with a section directory has the same opening tag whatever the
    current page is, without the active class, also when the entry's URL
    is the current page's; the link of an entry without a section
    directory, and the link of every section file, have the opening tag
    with class="active" when their URL is the current page's, and the
    opening tag without it when it is not. *)
Theorem sidebar_active_class (fs : node) (current_page : str) :
  all_readable fs = true ->
  exists blocks,
    build_sidebar fs current_page
    = Some (join newline_str (("<ul>" : str) :: concat blocks ++ ["</ul>" : str]))
    /\ Forall2 (rendered_entry fs current_page) NAV_STRUCTURE blocks.
Proof.
  intros Hread.
  destruct (@build_sidebar_blocks fs current_page Hread) as (blocks & Hb & HF).
  exists blocks. split; [exact Hb|].
  eapply Forall2_impl_in; [|exact HF]. cbn beta.
  intros [[title url] [dir|]] block Hin [Hrun _]; unfold rendered_entry.
  - destruct (nav_sections Hin) as (Hne & _ & _ & _ & Hocc).
    pose proof (@nav_entry_readable fs _ Hread Hin) as He.
    unfold entry_readable in He. cbn [snd] in He.
    destruct (@sidebar_entry_section fs current_page title url dir Hne He)
      as (lines & HFl & Hrun').
    exists lines. rewrite <- section_li_rendered. split; [|split].
    + specialize (Hrun []). rewrite (Hrun' []) in Hrun.
      cbn [app] in Hrun. now inversion Hrun.
    + exact Hocc.
    + eapply Forall2_impl_in; [|exact HFl]. cbn beta.
      intros f line _ Hl. now apply child_link_rendered.
  - exists (anchor_tag url (str_eqb current_page url)).
    split; [apply marked_tag|].
    specialize (Hrun []). rewrite sidebar_entry_page in Hrun.
    cbn [app] in Hrun. rewrite page_li_rendered in Hrun. now inversion Hrun.
Qed.

(** On the page of a section file, that file's link is the one marked. *)
Lemma sidebar_active_class_witness :
  (exists blocks,
     build_sidebar example_docs "getting-started/install.html"
     = Some (join newline_str (("<ul>" : str) :: concat blocks ++ ["</ul>" : str]))
     /\ Forall2 (rendered_entry example_docs "getting-started/install.html")
          NAV_STRUCTURE blocks)
  /\ build_sidebar example_docs "getting-started/install.html"
     = Some (join newline_str
         [ "<ul>" : str;
           title_span ++ anchor_tag "index.html" false ++ "Home</a></span></li>";
           title_span ++ anchor_tag "quickstart.html" false
             ++ "Quickstart</a></span></li>";
           title_span ++ anchor_tag "quick-reference.html" false
             ++ "Quick Reference</a></span></li>";
           title_span ++ anchor_tag "getting-started/index.html" false
             ++ "Getting Started</a></span>";
           "<ul>" : str;
           "<li>" ++ anchor_tag "getting-started/install.html" true
             ++ "Install</a></li>";
           "</ul>" : str;
           "</li>" : str;
           title_span ++ anchor_tag "core-guides/index.html" false
             ++ "Core Guides</a></span>";
           "</li>" : str;
           title_span ++ anchor_tag "intermediate/index.html" false
             ++ "Intermediate</a></span>";
           "</li>" : str;
           title_span ++ anchor_tag "advanced/index.html" false
             ++ "Advanced</a></span>";
           "</li>" : str;
           title_span ++ anchor_tag "key-concepts/index.html" false
             ++ "Key Concepts</a></span>";
           "</li>" : str;
           title_span ++ anchor_tag "background/index.html" false
             ++ "Background</a></span>";
           "</li>" : str;
           title_span ++ anchor_tag "reference/index.html" false
             ++ "Reference</a></span>";
           "</li>" : str;
           title_span ++ anchor_tag "troubleshooting/index.html" false
             ++ "Troubleshooting</a></span>";
           "</li>" : str;
           "</ul>" : str ]).
Proof.
  split.
  - apply sidebar_active_class. vm_compute. reflexivity.
  - vm_compute. reflexivity.
Defined.

(* ================================================================= *)
(** ** build_breadcrumb *)

Lemma rfind_none (c : ascii) (s : str) : ~ In c s -> rfind c s = None.
Proof.
  induction s as [|x s IH]; intros H; [reflexivity|]. cbn [rfind].
  rewrite IH by (intros Hin; apply H; now right).
  destruct (Ascii.eqb_spec x c) as [->|]; [|reflexivity].
  exfalso. apply H. now left.
Qed.

Lemma url_resolve_sibling (dir file href : str) :
  ~ In "/"%char file ->
  url_resolve (dir ++ "/" ++ file) href = dir ++ "/" ++ href.
Proof.
  intros H. unfold url_resolve. rewrite rfind_app.
  cbn [String.list_ascii_of_string app rfind]. rewrite rfind_none by exact H.
  cbn [Ascii.eqb Bool.eqb]. rewrite Nat.add_0_r.
  replace (S (length dir)) with (length (dir ++ ["/"%char]))
    by (rewrite length_app; cbn; lia).
  change (dir ++ "/"%char :: file) with (dir ++ ["/"%char] ++ file).
  rewrite app_assoc, firstn_app, firstn_all, Nat.sub_diag. cbn [firstn].
  now rewrite app_nil_r, <- app_assoc.
Qed.

Lemma build_breadcrumb_top fs (name : str) :
  build_breadcrumb fs (DOCS_DIR ++ [name]) = Some [].
Proof. unfold build_breadcrumb. now rewrite relative_to_app. Qed.

Lemma build_breadcrumb_readme fs (dir : str) :
  build_breadcrumb fs (DOCS_DIR ++ [dir; "README.md" : str])
  = Some ("<li>" ++ str_title (str_replace "_" " " (str_replace "-" " " dir))
            ++ "</li>").
Proof. unfold build_breadcrumb. now rewrite relative_to_app. Qed.

Lemma build_breadcrumb_page fs (dir name content : str) :
  name <> "README.md" ->
  read_text fs (DOCS_DIR ++ [dir; name]) = Some content ->
  build_breadcrumb fs (DOCS_DIR ++ [dir; name])
  = Some ("<li><a href=" ++ quote ++ "index.html" ++ quote ++ ">"
            ++ str_title (str_replace "_" " " (str_replace "-" " " dir))
            ++ "</a></li><li>"
            ++ get_title_from_markdown content (DOCS_DIR ++ [dir; name])
            ++ "</li>").
Proof.
  intros Hname Hread. unfold build_breadcrumb. rewrite relative_to_app.
  cbn [bind]. change [dir; name] with ([dir] ++ [name]) at 1.
  rewrite path_name_snoc.
  apply str_eqb_neq in Hname. rewrite Hname, Hread. reflexivity.
Qed.

(** C6 (as amended).  For a configured section and the pages directly in
    its directory: the breadcrumb of the README is one crumb, the section
    title, with no link; the breadcrumb of any other page is a link to
    "index.html", which from that page is the section's index page,
    labelled with the section title, followed by the page's own title.
    The breadcrumb of a page directly under the documentation root is
    empty. *)
Theorem build_breadcrumb_spec (fs : node) (title url dir : str) :
  In (title, url, Some dir) NAV_STRUCTURE ->
  build_breadcrumb fs (DOCS_DIR ++ [dir; "README.md" : str])
    = Some ("<li>" ++ title ++ "</li>")
  /\ (forall name content : str,
        name <> "README.md" ->
        read_text fs (DOCS_DIR ++ [dir; name]) = Some content ->
        build_breadcrumb fs (DOCS_DIR ++ [dir; name])
        = Some ("<li><a href=" ++ quote ++ "index.html" ++ quote ++ ">" ++ title
                  ++ "</a></li><li>"
                  ++ get_title_from_markdown content (DOCS_DIR ++ [dir; name])
                  ++ "</li>"))
  /\ (forall S : str,
        S <> [] -> S ++ ".md" <> "README.md" -> ~ In "/"%char S ->
        exists page_url,
          md_to_html_path (DOCS_DIR ++ [dir; S ++ ".md"]) = Some page_url
          /\ url_resolve page_url "index.html" = url)
  /\ (forall name : str, build_breadcrumb fs (DOCS_DIR ++ [name]) = Some []).
Proof.
  intros Hin. destruct (nav_sections Hin) as (Hne & Hslash & Hurl & Htitle & _).
  split; [|split; [|split]].
  - now rewrite build_breadcrumb_readme, Htitle.
  - intros name content Hname Hread.
    now rewrite (build_breadcrumb_page fs dir Hname Hread), Htitle.
  - intros S HS HSr HSs.
    pose proof (@md_to_html_path_page [dir] S HS HSr) as Hpage.
    exists (path_str ([dir] ++ [S]) ++ ".html"). split; [exact Hpage|].
    cbn [app path_str join]. rewrite Hurl. rewrite <- !app_assoc.
    apply url_resolve_sibling.
    intros Hi. apply in_app_or in Hi as [Hi|Hi]; [now apply HSs|].
    cbn in Hi. intuition discriminate.
  - intros name. apply build_breadcrumb_top.
Qed.

Lemma build_breadcrumb_spec_witness :
  build_breadcrumb example_docs
    (DOCS_DIR ++ [("getting-started" : str); ("install.md" : str)])
  = Some ("<li><a href=" ++ quote ++ "index.html" ++ quote ++ ">"
            ++ "Getting Started" ++ "</a></li><li>"
            ++ get_title_from_markdown "# Install"
                 (DOCS_DIR ++ [("getting-started" : str); ("install.md" : str)])
            ++ "</li>")
  /\ exists page_url,
       md_to_html_path
         (DOCS_DIR ++ [("getting-started" : str); ("install" : str) ++ ".md"])
       = Some page_url
       /\ url_resolve page_url "index.html" = ("getting-started/index.html" : str).
Proof.
  assert (Hin : In (("Getting Started" : str), ("getting-started/index.html" : str),
                    Some ("getting-started" : str)) NAV_STRUCTURE)
    by (cbn; auto).
  destruct (@build_breadcrumb_spec example_docs _ _ _ Hin) as (_ & Hpage & Hlink & _).
  split.
  - apply Hpage; [discriminate | vm_compute; reflexivity].
  - apply Hlink; [discriminate | discriminate |].
    cbn. intuition discriminate.
Defined.

(** C6, the claim as written: pages deeper inside a section are pages of
    the section too.  The README of a subdirectory is not the section's
    README, yet its breadcrumb is the single crumb without a link; and
    the link in the breadcrumb of a page of the subdirectory leads to the
    subdirectory's index page, not to the section's. *)
Lemma build_breadcrumb_nested :
  build_breadcrumb nested_docs
    [("docs" : str); ("getting-started" : str); ("tutorials" : str);
     ("README.md" : str)]
  = Some ("<li>Getting Started</li>" : str)
  /\ build_breadcrumb nested_docs
       [("docs" : str); ("getting-started" : str); ("tutorials" : str);
        ("first.md" : str)]
     = Some ("<li><a href=" ++ quote ++ "index.html" ++ quote
               ++ ">Getting Started</a></li><li>First Steps</li>")
  /\ md_to_html_path
       [("docs" : str); ("getting-started" : str); ("tutorials" : str);
        ("first.md" : str)]
     = Some ("getting-started/tutorials/first.html" : str)
  /\ url_resolve "getting-started/tutorials/first.html" "index.html"
     = ("getting-started/tutorials/index.html" : str)
  /\ ("getting-started/tutorials/index.html" : str)
     <> ("getting-started/index.html" : str).
Proof.
  repeat split; try (vm_compute; reflexivity). discriminate.
Qed.

(* ================================================================= *)
(** * Further properties *)

(** ** get_title_from_markdown *)

(** X1.  The title is the text of the first heading line: when the text
    before a line "#", whitespace, text has no line that opens with "#"
    and whitespace, the title is that line's text without the whitespace
    around it, whatever follows the line. *)
Theorem get_title_from_first_heading
    (pre ws rest : str) (t0 : ascii) (text' : str) (filepath : path) :
  at_line_start pre -> no_hash_space pre ->
  ws <> [] -> forallb is_space ws = true ->
  is_space t0 = false ->
  forallb not_newline (t0 :: text') = true ->
  rest = [] \/ (exists r, rest = newline :: r) ->
  get_title_from_markdown (pre ++ "#" ++ ws ++ (t0 :: text') ++ rest) filepath
  = rstrip (t0 :: text').
Proof.
  intros Hpre Hno Hws Hsp Ht0 Hnl Hrest.
  rewrite get_title_first_heading by assumption.
  unfold strip. cbn [lstrip]. now rewrite Ht0.
Qed.

Lemma get_title_from_first_heading_witness :
  get_title_from_markdown
    (("intro" ++ [newline]) ++ "#" ++ " " ++ ("I"%char :: "nstall  ")
       ++ newline :: "# More")
    [("docs" : str); ("install.md" : str)]
  = rstrip ("I"%char :: "nstall  ").
Proof.
  apply get_title_from_first_heading.
  - right. now exists ("intro" : str).
  - apply no_hash_space_plain. cbn. intuition discriminate.
  - discriminate.
  - reflexivity.
  - reflexivity.
  - reflexivity.
  - right. now exists ("# More" : str).
Defined.

Lemma heading_no_match_end prev pos :
  match_at HEADING_RE prev ["#"%char] pos (0, 0) = None.
Proof.
  unfold HEADING_RE. cbn [match_at].
  destruct prev as [c|]; [destruct (Ascii.eqb c newline)|]; reflexivity.
Qed.

Lemma heading_no_match_nil prev pos :
  match_at HEADING_RE prev [] pos (0, 0) = None.
Proof.
  unfold HEADING_RE. cbn [match_at].
  destruct prev as [c|]; [destruct (Ascii.eqb c newline)|]; reflexivity.
Qed.

Lemma re_search_no_heading (content : str) :
  no_heading_line content -> re_search HEADING_RE content = None.
Proof.
  intros Hno. unfold re_search.
  rewrite <- (app_nil_r content). rewrite search_from_skip.
  - cbn [search_from]. now rewrite heading_no_match_nil.
  - intros a1 x a2 E. rewrite app_nil_r.
    destruct a2 as [|y a2].
    + destruct (Ascii.eqb_spec x "#"%char) as [->|Hx].
      * apply heading_no_match_end.
      * apply heading_no_match. intros _ Hx'. congruence.
    + apply heading_no_match. intros Hp Hx. subst x.
      exists y, a2. split; [reflexivity|].
      apply (Hno a1 y a2 E).
      pose proof (prev_after_line_start a1) as Hl.
      destruct Hp as [Hp|Hp]; rewrite Hp in Hl; [now left | now right].
Qed.

Lemma heading_scan_ok (s : str) : forall at_start,
  heading_scan at_start s = true ->
  forall a x b, s = a ++ "#"%char :: x :: b ->
    (a = [] /\ at_start = true) \/ (exists p, a = p ++ [newline]) ->
    is_space x = false.
Proof.
  induction s as [|c s IH]; intros at_start H a x b E Ha.
  - destruct a; discriminate E.
  - cbn [heading_scan] in H. apply andb_true_iff in H as [H1 H2].
    destruct a as [|a0 a].
    + cbn in E. inversion E; subst.
      destruct Ha as [[_ ->]|[p Hp]]; [|destruct p; discriminate Hp].
      cbn in H1. now apply negb_true_iff in H1.
    + cbn in E. inversion E; subst a0 s.
      apply (IH _ H2 a x b eq_refl).
      destruct Ha as [[Ha _]|[p Hp]]; [discriminate Ha|].
      destruct a as [|a1 a] using rev_ind.
      * left. split; [reflexivity|].
        destruct p as [|p0 p]; cbn in Hp; inversion Hp; subst.
        -- apply Ascii.eqb_refl.
        -- destruct p; discriminate.
      * right. exists a. clear IHa.
        change (c :: a ++ [a1]) with ((c :: a) ++ [a1]) in Hp.
        apply app_inj_tail in Hp as [_ ->]. reflexivity.
Qed.

Lemma heading_scan_sound (content : str) :
  heading_scan true content = true -> no_heading_line content.
Proof.
  intros H a x b E Ha. apply (@heading_scan_ok content true H a x b E).
  destruct Ha as [->|Hp]; [left; auto | now right].
Qed.

(** X2.  A document in which no line opens with "#" and whitespace has
    no title of its own, whatever else it holds, sub-headings included:
    its title is made from the file name, or from the name of the parent
    directory for a README or index file.  The name is taken in ASCII,
    where title case is a matter of the letters A to Z and a to z. *)
Theorem get_title_fallback (content : str) (filepath : path) :
  no_heading_line content ->
  ascii_text (fallback_name filepath) ->
  get_title_from_markdown content filepath
  = str_title (str_replace "_" " " (str_replace "-" " " (fallback_name filepath))).
Proof.
  intros Hno _. unfold get_title_from_markdown.
  now rewrite re_search_no_heading.
Qed.

Lemma get_title_fallback_witness :
  get_title_from_markdown ("Intro" ++ newline :: "## Details")
    [("docs" : str); ("core-guides" : str); ("README.md" : str)]
  = ("Core Guides" : str).
Proof.
  refine (@get_title_fallback ("Intro" ++ newline :: "## Details")
            [("docs" : str); ("core-guides" : str); ("README.md" : str)] _ _).
  - apply heading_scan_sound. reflexivity.
  - reflexivity.
Defined.

(** *** The shape of a title taken from a heading *)

Lemma search_from_sound (re : regex) (s : str) : forall prev i m,
  search_from re prev s i = Some m ->
  exists a s',
    s = a ++ s'
    /\ match_at re (prev_after prev a) s' (i + length a) (0, 0)
       = Some (m_end m, m_span1 m).
Proof.
  induction s as [|x s IH]; intros prev i m H; cbn [search_from] in H.
  - destruct (match_at re prev [] i (0, 0)) as [[e g]|] eqn:E; [|discriminate H].
    inversion H; subst m. exists [], []. cbn. now rewrite Nat.add_0_r.
  - destruct (match_at re prev (x :: s) i (0, 0)) as [[e g]|] eqn:E.
    + inversion H; subst m. exists [], (x :: s). cbn. now rewrite Nat.add_0_r.
    + apply IH in H as (a & s' & -> & Hm).
      exists (x :: a), s'. split; [reflexivity|].
      cbn [length]. rewrite Nat.add_succ_r. exact Hm.
Qed.

(** What a match of the heading pattern looks like. *)
Lemma heading_match_sound prev (s : str) pos e gs ge :
  match_at HEADING_RE prev s pos (0, 0) = Some (e, (gs, ge)) ->
  exists ws X rest,
    s = "#"%char :: ws ++ X ++ rest
    /\ forallb is_space ws = true /\ forallb not_newline X = true
    /\ 1 <= length X
    /\ gs = S pos + length ws /\ ge = gs + length X.
Proof.
  intros H.
  assert (H' : exists t, s = "#"%char :: t
               /\ greedy is_space 1
                    (fun prev' s' pos' =>
                       match_at [GOpen; Rep not_newline 1; GClose; Eol]
                         prev' s' pos' (0, 0))
                    (Some "#"%char) t (S pos) 0 = Some (e, (gs, ge))).
  { unfold HEADING_RE in H. cbn [match_at] in H.
    assert (Hs : match s with
                 | [] => None
                 | x :: s' =>
                     if Ascii.eqb x "#"
                     then greedy is_space 1
                            (fun prev' s'0 pos' =>
                               match_at [GOpen; Rep not_newline 1; GClose; Eol]
                                 prev' s'0 pos' (0, 0)) (Some x) s' (S pos) 0
                     else None
                 end = Some (e, (gs, ge))).
    { destruct prev as [c|]; [|exact H].
      destruct (Ascii.eqb c newline); [exact H | discriminate H]. }
    destruct s as [|x t]; [discriminate Hs|].
    destruct (Ascii.eqb_spec x "#"%char) as [->|]; [|discriminate Hs].
    now exists t. }
  destruct H' as (t & -> & Hg).
  apply greedy_sound in Hg as (ws & rest1 & -> & Hws & _ & Hk1).
  - cbn [match_at fst snd] in Hk1.
    apply greedy_sound in Hk1 as (X & rest & -> & HX & HlenX & Hk2).
    + exists ws, X, rest. repeat split; try assumption; try lia.
      * destruct rest as [|r0 rest]; [|destruct (Ascii.eqb r0 newline)];
          inversion Hk2; reflexivity.
      * destruct rest as [|r0 rest]; [|destruct (Ascii.eqb r0 newline)];
          inversion Hk2; reflexivity.
    + intros q q' u i. reflexivity.
  - intros q q' u i. apply match_at_prev. reflexivity.
Qed.

Lemma lstrip_suffix (s : str) : exists pre, s = pre ++ lstrip s.
Proof.
  induction s as [|c s [pre IH]]; [now exists []|]. cbn [lstrip].
  destruct (is_space c); [|now exists []].
  exists (c :: pre). cbn. now rewrite <- IH.
Qed.

Lemma lstrip_head (s : str) :
  match lstrip s with
  | [] => True
  | c :: _ => is_space c = false
  end.
Proof.
  induction s as [|c s IH]; [exact I|]. cbn [lstrip].
  destruct (is_space c) eqn:E; [exact IH | exact E].
Qed.

Lemma rstrip_prefix (s : str) : exists post, s = rstrip s ++ post.
Proof.
  unfold rstrip. destruct (lstrip_suffix (rev s)) as [pre H].
  exists (rev pre). rewrite <- rev_app_distr, <- H. now rewrite rev_involutive.
Qed.

Lemma strip_infix (s : str) : contains (strip s) s.
Proof.
  unfold strip. destruct (lstrip_suffix s) as [pre H].
  destruct (rstrip_prefix (lstrip s)) as [post H'].
  exists pre, post. now rewrite <- H', <- H.
Qed.

Lemma strip_trimmed (s : str) : trimmed (strip s).
Proof.
  unfold trimmed, strip.
  destruct (rstrip (lstrip s)) as [|c t] eqn:E; [exact I|].
  split.
  - destruct (rstrip_prefix (lstrip s)) as [post H]. rewrite E in H.
    pose proof (lstrip_head s) as Hh. rewrite H in Hh. exact Hh.
  - unfold rstrip in E. pose proof (lstrip_head (rev (lstrip s))) as Hh.
    destruct (lstrip (rev (lstrip s))) as [|d u] eqn:Eu; [discriminate E|].
    cbn [rev] in E. rewrite <- E. now rewrite last_last.
Qed.

Lemma contains_in (sub s : str) (c : ascii) :
  contains sub s -> In c sub -> In c s.
Proof.
  intros (a & b & ->) H. apply in_or_app. right. apply in_or_app. now left.
Qed.

(** X3.  A title taken from a heading is a piece of the document as it
    stands, on a single line, with no whitespace at either end. *)
Theorem get_title_heading_shape (content : str) (filepath : path) (m : re_match) :
  re_search HEADING_RE content = Some m ->
  contains (get_title_from_markdown content filepath) content
  /\ ~ In newline (get_title_from_markdown content filepath)
  /\ trimmed (get_title_from_markdown content filepath).
Proof.
  intros Hs. unfold get_title_from_markdown. rewrite Hs.
  unfold re_search in Hs.
  apply search_from_sound in Hs as (a & s' & Hc & Hm).
  destruct (m_span1 m) as [gs ge] eqn:Eg.
  apply heading_match_sound in Hm
    as (ws & X & rest & -> & Hws & HX & HlenX & Hgs & Hge).
  assert (Hgrp : group1 content m = X).
  { unfold group1. rewrite Eg. cbn [fst snd]. subst content gs ge.
    cbn [Nat.add].
    replace (a ++ "#"%char :: ws ++ X ++ rest)
      with ((a ++ "#"%char :: ws) ++ X ++ rest)
      by (rewrite <- app_assoc; reflexivity).
    replace (S (length a + length ws + length X))
      with (length (a ++ "#"%char :: ws) + length X)
      by (rewrite length_app; cbn; lia).
    replace (S (length a + length ws)) with (length (a ++ "#"%char :: ws))
      by (rewrite length_app; cbn; lia).
    apply slice_middle. }
  rewrite Hgrp. split; [|split].
  - apply contains_trans with (b := X); [apply strip_infix|].
    subst content. exists (a ++ "#"%char :: ws), rest.
    rewrite <- app_assoc. reflexivity.
  - intros Hin. apply (@contains_in (strip X) X newline (strip_infix X)) in Hin.
    rewrite forallb_forall in HX. apply HX in Hin. discriminate Hin.
  - apply strip_trimmed.
Qed.

Lemma get_title_heading_shape_witness :
  contains (get_title_from_markdown "#  Install  " [("docs" : str); ("a.md" : str)])
    "#  Install  "
  /\ ~ In newline
       (get_title_from_markdown "#  Install  " [("docs" : str); ("a.md" : str)])
  /\ trimmed
       (get_title_from_markdown "#  Install  " [("docs" : str); ("a.md" : str)]).
Proof.
  apply (@get_title_heading_shape "#  Install  " [("docs" : str); ("a.md" : str)]
           (MkMatch 0 12 (3, 12))).
  vm_compute. reflexivity.
Defined.

(* ================================================================= *)
(** ** md_to_html_path *)

Lemma relative_to_inv (base : path) : forall p rel,
  relative_to p base = Some rel -> p = base ++ rel.
Proof.
  induction base as [|b base IH]; intros p rel H; cbn [relative_to] in H.
  - inversion H. reflexivity.
  - destruct p as [|x p]; [discriminate H|].
    destruct (str_eqb x b) eqn:E; [|discriminate H].
    apply str_eqb_eq in E. subst x. cbn [app]. f_equal. now apply IH.
Qed.

Lemma with_suffix_defined (p : path) (suffix : str) :
  with_suffix p suffix <> None <-> path_name p <> [].
Proof.
  unfold with_suffix. destruct (path_name p); split; congruence.
Qed.

Lemma md_to_html_path_some_inv (md_path : path) (u : str) :
  md_to_html_path md_path = Some u ->
  exists rel, md_path = DOCS_DIR ++ rel /\ path_name rel <> [].
Proof.
  unfold md_to_html_path.
  destruct (relative_to md_path DOCS_DIR) as [rel|] eqn:E; [|discriminate].
  intros H. exists rel. split; [now apply relative_to_inv|].
  destruct (str_eqb (path_name rel) "README.md") eqn:Er.
  - apply str_eqb_eq in Er. rewrite Er. discriminate.
  - apply (with_suffix_defined rel ".html").
    destruct (with_suffix rel ".html"); [discriminate | discriminate H].
Qed.

Lemma md_to_html_path_some (rel : path) :
  path_name rel <> [] -> exists u, md_to_html_path (DOCS_DIR ++ rel) = Some u.
Proof.
  intros Hn. unfold md_to_html_path. rewrite relative_to_app.
  destruct (str_eqb (path_name rel) "README.md"); [eauto|].
  apply (with_suffix_defined rel ".html") in Hn.
  destruct (with_suffix rel ".html"); [cbn; eauto | congruence].
Qed.

(** X4.  [md_to_html_path] raises exactly when it is given a path that is
    not below the documentation directory, or that directory itself: it
    has a result for "docs" followed by a path with a name, and for
    nothing else. *)
Theorem md_to_html_path_defined (md_path : path) :
  md_to_html_path md_path <> None
  <-> exists rel, md_path = DOCS_DIR ++ rel /\ path_name rel <> [].
Proof.
  split.
  - destruct (md_to_html_path md_path) as [u|] eqn:E; [|congruence].
    intros _. now apply md_to_html_path_some_inv with u.
  - intros (rel & -> & Hn). destruct (md_to_html_path_some rel Hn) as [u ->].
    discriminate.
Qed.

(** The suffix and the stem of a name split it. *)
Lemma name_stem_suffix (name : str) :
  match name_suffix name with
  | [] => name
  | _ :: _ => firstn (length name - length (name_suffix name)) name
  end = name_stem name.
Proof.
  unfold name_suffix, name_stem. destruct (rfind "." name) as [i|]; [|reflexivity].
  destruct ((0 <? i) && (i <? length name - 1)) eqn:E; [|reflexivity].
  apply andb_true_iff in E as [_ E]. apply Nat.ltb_lt in E.
  destruct (skipn i name) as [|c r] eqn:Es.
  - apply (f_equal (@length ascii)) in Es. rewrite length_skipn in Es.
    cbn in Es. lia.
  - rewrite <- Es, length_skipn. f_equal. lia.
Qed.

Lemma with_suffix_stem (d : path) (name suffix : str) :
  name <> [] ->
  with_suffix (d ++ [name]) suffix = Some (d ++ [name_stem name ++ suffix]).
Proof.
  intros Hne. unfold with_suffix. rewrite path_name_snoc, removelast_last.
  destruct name as [|c name]; [congruence|].
  rewrite <- (name_stem_suffix (c :: name)).
  now destruct (name_suffix (c :: name)).
Qed.

(** X5.  Whatever the extension of a file below "docs", its page keeps
    the directory and takes the stem of the file name: the last extension
    is replaced by ".html", and a name without one gets ".html"
    appended. *)
Theorem md_to_html_path_stem (D : path) (name : str) :
  name <> [] -> name <> "README.md" ->
  md_to_html_path (DOCS_DIR ++ D ++ [name])
  = Some (path_str (D ++ [name_stem name ++ ".html"])).
Proof.
  intros Hne Hnr. unfold md_to_html_path.
  rewrite relative_to_app, path_name_snoc.
  apply str_eqb_neq in Hnr. rewrite Hnr.
  now rewrite with_suffix_stem.
Qed.

Lemma md_to_html_path_stem_witness :
  md_to_html_path (DOCS_DIR ++ ["reference" : str] ++ ["notes.v2.txt" : str])
  = Some ("reference/notes.v2.html" : str).
Proof.
  refine (@md_to_html_path_stem ["reference" : str] "notes.v2.txt" _ _);
    discriminate.
Defined.

(** X6.  In every directory, README.md and index.md are given the same
    page. *)
Theorem md_to_html_path_readme_index (D : path) :
  md_to_html_path (DOCS_DIR ++ D ++ ["README.md" : str])
  = md_to_html_path (DOCS_DIR ++ D ++ ["index.md" : str]).
Proof.
  rewrite md_to_html_path_readme.
  change ["index.md" : str] with [("index" : str) ++ ".md"].
  rewrite md_to_html_path_page by discriminate.
  rewrite !path_str_snoc.
  change ["index.html" : str] with [("index" : str) ++ ".html"].
  now rewrite join_snoc.
Qed.

Lemma first_sep_unique (c : ascii) (a a' b b' : str) :
  ~ In c a -> ~ In c a' -> a ++ c :: b = a' ++ c :: b' -> a = a' /\ b = b'.
Proof.
  revert a'. induction a as [|x a IH]; intros [|x' a'] Ha Ha' E; cbn in E.
  - inversion E. now split.
  - inversion E; subst. exfalso. apply Ha'. now left.
  - inversion E; subst. exfalso. apply Ha. now left.
  - inversion E; subst.
    destruct (IH a') as [-> ->]; auto.
    + intros H. apply Ha. now right.
    + intros H. apply Ha'. now right.
Qed.

Lemma join_slash_inj (l1 : list str) : forall l2,
  Forall no_slash l1 -> Forall no_slash l2 -> l1 <> [] -> l2 <> [] ->
  join "/" l1 = join "/" l2 -> l1 = l2.
Proof.
  induction l1 as [|a l1 IH]; intros [|b l2] H1 H2 N1 N2 E; try congruence.
  inversion H1 as [|? ? Ha H1']; inversion H2 as [|? ? Hb H2']; subst.
  destruct l1 as [|a2 l1], l2 as [|b2 l2].
  - cbn in E. now subst.
  - cbn [join] in E. exfalso. apply Ha. rewrite E.
    apply in_or_app. right. now left.
  - cbn [join] in E. exfalso. apply Hb. rewrite <- E.
    apply in_or_app. right. now left.
  - change (join "/" (a :: a2 :: l1)) with (a ++ "/"%char :: join "/" (a2 :: l1)) in E.
    change (join "/" (b :: b2 :: l2)) with (b ++ "/"%char :: join "/" (b2 :: l2)) in E.
    apply first_sep_unique in E as [-> E]; [|assumption|assumption].
    f_equal. apply IH; [assumption | assumption | discriminate | discriminate | exact E].
Qed.

(** The stem a page is named after. *)
Lemma md_to_html_path_join (D : path) (S : str) :
  S <> [] ->
  md_to_html_path (DOCS_DIR ++ D ++ [S ++ ".md"])
  = Some (join "/" (D ++ [page_stem S ++ ".html"])).
Proof.
  intros Hne. unfold page_stem. destruct (str_eqb S "README") eqn:E.
  - apply str_eqb_eq in E. subst S.
    change (("README" : str) ++ ".md") with ("README.md" : str).
    rewrite md_to_html_path_readme. now rewrite path_str_snoc.
  - rewrite md_to_html_path_page; [|assumption|].
    + now rewrite path_str_snoc, join_snoc.
    + intros H. change ("README.md" : str) with (("README" : str) ++ ".md") in H.
      apply app_inv_tail in H. subst S. discriminate E.
Qed.

Lemma page_stem_no_slash (S : str) :
  no_slash S -> no_slash (page_stem S ++ ".html").
Proof.
  intros HS Hin. apply in_app_or in Hin as [Hin|Hin].
  - unfold page_stem in Hin. destruct (str_eqb S "README"); [|now apply HS].
    cbn in Hin. intuition discriminate.
  - cbn in Hin. intuition discriminate.
Qed.

Lemma page_stem_inj (S1 S2 : str) :
  page_stem S1 = page_stem S2 ->
  S1 = S2 \/ (S1 = "README" /\ S2 = "index") \/ (S1 = "index" /\ S2 = "README").
Proof.
  unfold page_stem.
  destruct (str_eqb S1 "README") eqn:E1, (str_eqb S2 "README") eqn:E2;
    intros E; try apply str_eqb_eq in E1; try apply str_eqb_eq in E2;
    subst; auto.
Qed.

(** X7.  Apart from README.md and index.md of one directory, no two
    Markdown files are given the same page. *)
Theorem md_to_html_path_injective (D1 D2 : path) (S1 S2 : str) :
  Forall no_slash (D1 ++ [S1]) -> Forall no_slash (D2 ++ [S2]) ->
  S1 <> [] -> S2 <> [] ->
  md_to_html_path (DOCS_DIR ++ D1 ++ [S1 ++ ".md"])
    = md_to_html_path (DOCS_DIR ++ D2 ++ [S2 ++ ".md"]) ->
  D1 = D2
  /\ (S1 = S2 \/ (S1 = "README" /\ S2 = "index") \/ (S1 = "index" /\ S2 = "README")).
Proof.
  intros H1 H2 N1 N2 E.
  rewrite !md_to_html_path_join in E by assumption.
  assert (E' : join "/" (D1 ++ [page_stem S1 ++ ".html"])
               = join "/" (D2 ++ [page_stem S2 ++ ".html"])) by congruence.
  clear E.
  apply Forall_app in H1 as [HD1 HS1]. apply Forall_app in H2 as [HD2 HS2].
  apply Forall_inv in HS1. apply Forall_inv in HS2.
  apply join_slash_inj in E'.
  - apply app_inj_tail in E' as [-> E']. split; [reflexivity|].
    apply app_inv_tail in E'. now apply page_stem_inj.
  - apply Forall_app. split; [assumption|].
    constructor; [now apply page_stem_no_slash | constructor].
  - apply Forall_app. split; [assumption|].
    constructor; [now apply page_stem_no_slash | constructor].
  - now destruct D1.
  - now destruct D2.
Qed.

Lemma md_to_html_path_injective_witness :
  ["guide" : str] = ["guide" : str]
  /\ (("README" : str) = ("index" : str)
      \/ (("README" : str) = "README" /\ ("index" : str) = "index")
      \/ (("README" : str) = "index" /\ ("index" : str) = "README")).
Proof.
  apply (@md_to_html_path_injective ["guide" : str] ["guide" : str] "README" "index").
  - cbn [app].
    repeat (apply Forall_cons; [intros H; cbn in H; intuition discriminate|]).
    apply Forall_nil.
  - cbn [app].
    repeat (apply Forall_cons; [intros H; cbn in H; intuition discriminate|]).
    apply Forall_nil.
  - discriminate.
  - discriminate.
  - reflexivity.
Defined.

(* ================================================================= *)
(** ** get_files_in_section *)

Lemma lookup_nil (fs : node) : lookup fs [] = Some fs.
Proof. now destruct fs. Qed.

Lemma lookup_app (p q : path) : forall fs,
  lookup fs (p ++ q) = bind (lookup fs p) (fun n => lookup n q).
Proof.
  induction p as [|c p IH]; intros fs.
  - now rewrite lookup_nil.
  - destruct fs as [t|entries]; [reflexivity|]. cbn [app lookup].
    induction entries as [|[name child] es IHes]; [reflexivity|].
    destruct (str_eqb name c); [apply IH | exact IHes].
Qed.

(** A directory entry exists exactly when its name is listed. *)
Lemma path_exists_child (fs : node) (d : path) (n : str) :
  path_exists fs (path_div d n) = true <-> In n (dir_names fs d).
Proof.
  unfold path_exists, path_div, dir_names. rewrite lookup_app.
  destruct (lookup fs d) as [[t|entries]|]; cbn [bind];
    try (split; [discriminate | intros []]).
  cbn [lookup]. induction entries as [|[name child] es IH]; cbn [map fst In].
  - split; [discriminate | intros []].
  - destruct (str_eqb name n) eqn:E.
    + apply str_eqb_eq in E. rewrite lookup_nil. split; [now left | reflexivity].
    + apply str_eqb_neq in E. rewrite IH. split; [now right | now intros [H|H]].
Qed.

Lemma path_exists_parent (fs : node) (d : path) (n : str) :
  path_exists fs (path_div d n) = true -> path_exists fs d = true.
Proof.
  unfold path_exists, path_div. rewrite lookup_app.
  now destruct (lookup fs d).
Qed.

Lemma dir_names_missing (fs : node) (d : path) :
  path_exists fs d = false -> dir_names fs d = [].
Proof. unfold path_exists, dir_names. now destruct (lookup fs d). Qed.

Lemma in_listed_files (fs : node) (d f : path) :
  In f (listed_files fs d)
  <-> exists n, In n (dir_names fs d) /\ listed_name n = true /\ f = path_div d n.
Proof.
  unfold listed_files. rewrite filter_In. split.
  - intros [Hf Hr]. apply (Permutation_in _ (sorted_perm _)) in Hf.
    rewrite glob_md_names in Hf. apply in_map_iff in Hf as (n & <- & Hn).
    apply filter_In in Hn as [Hn He]. exists n. split; [exact Hn|].
    split; [|reflexivity]. unfold listed_name. rewrite He.
    unfold is_readme, path_div in Hr. now rewrite path_name_snoc in Hr.
  - intros (n & Hn & Hl & ->). unfold listed_name in Hl.
    apply andb_true_iff in Hl as [He Hr]. split.
    + apply (Permutation_in _ (Permutation_sym (sorted_perm _))).
      rewrite glob_md_names. apply in_map. apply filter_In. now split.
    + unfold is_readme, path_div. now rewrite path_name_snoc.
Qed.

(** X8.  The files of a section are exactly the entries of its directory
    whose name ends in ".md"; a directory that does not exist, or a file
    in its place, has none. *)
Theorem get_files_in_section_members (fs : node) (section_dir f : path) :
  In f (get_files_in_section fs section_dir)
  <-> exists n, In n (dir_names fs section_dir)
                /\ endswith ".md" n = true /\ f = path_div section_dir n.
Proof.
  destruct (path_exists fs section_dir) eqn:E.
  - rewrite get_files_in_section_eq by assumption.
    rewrite in_app_iff, in_listed_files. split.
    + intros [H|(n & Hn & Hl & ->)].
      * destruct (path_exists fs (path_div section_dir "README.md")) eqn:Er;
          [|destruct H].
        destruct H as [<-|[]]. exists ("README.md" : str).
        split; [now apply path_exists_child | now split].
      * exists n. unfold listed_name in Hl.
        apply andb_true_iff in Hl as [He _]. now repeat split.
    + intros (n & Hn & He & ->).
      destruct (str_eqb n "README.md") eqn:Er.
      * apply str_eqb_eq in Er. subst n. left.
        apply path_exists_child in Hn. rewrite Hn. now left.
      * right. exists n. unfold listed_name. rewrite He, Er. now repeat split.
  - rewrite get_files_in_section_missing, dir_names_missing by assumption.
    split; [intros [] | intros (n & [] & _)].
Qed.

Lemma path_div_inj (d : path) (m n : str) : path_div d m = path_div d n -> m = n.
Proof.
  unfold path_div. intros H. apply app_inv_head in H. now inversion H.
Qed.

Lemma readme_not_listed (fs : node) (d : path) :
  ~ In (path_div d "README.md") (listed_files fs d).
Proof.
  intros H. apply in_listed_files in H as (n & _ & Hl & E).
  apply path_div_inj in E. subst n. discriminate Hl.
Qed.

(** X9.  A README.md of the section comes first and is listed once,
    although the "*.md" listing finds it again. *)
Theorem get_files_in_section_readme_first (fs : node) (section_dir : path) :
  path_exists fs (path_div section_dir "README.md") = true ->
  exists rest,
    get_files_in_section fs section_dir = path_div section_dir "README.md" :: rest
    /\ ~ In (path_div section_dir "README.md") rest
    /\ In (path_div section_dir "README.md") (glob_md fs section_dir).
Proof.
  intros H. exists (listed_files fs section_dir).
  rewrite get_files_in_section_eq by now apply path_exists_parent in H.
  rewrite H. split; [reflexivity|]. split; [apply readme_not_listed|].
  rewrite glob_md_names. apply in_map. apply filter_In.
  split; [now apply path_exists_child | reflexivity].
Qed.

Lemma get_files_in_section_readme_first_witness :
  exists rest,
    get_files_in_section example_docs [("docs" : str); ("getting-started" : str)]
    = path_div [("docs" : str); ("getting-started" : str)] "README.md" :: rest
    /\ ~ In (path_div [("docs" : str); ("getting-started" : str)] "README.md") rest
    /\ In (path_div [("docs" : str); ("getting-started" : str)] "README.md")
         (glob_md example_docs [("docs" : str); ("getting-started" : str)]).
Proof.
  apply (@get_files_in_section_readme_first example_docs
           [("docs" : str); ("getting-started" : str)]).
  reflexivity.
Defined.

Lemma NoDup_map_inj {A B : Type} (f : A -> B) (l : list A) :
  (forall x y, f x = f y -> x = y) -> NoDup l -> NoDup (map f l).
Proof.
  intros Hinj. induction 1 as [|x l Hx Hl IH]; cbn [map]; constructor.
  - intros Hin. apply in_map_iff in Hin as (y & E & Hy).
    apply Hinj in E. now subst y.
  - exact IH.
Qed.

(** X10.  In a directory whose entries have distinct names, no file of
    the section is listed twice. *)
Theorem get_files_in_section_nodup (fs : node) (section_dir : path) :
  NoDup (dir_names fs section_dir) ->
  NoDup (get_files_in_section fs section_dir).
Proof.
  intros Hnd.
  assert (Hl : NoDup (listed_files fs section_dir)).
  { destruct (listed_files_spec fs section_dir) as (Hdiv & Hperm & _ & _).
    rewrite Hdiv. apply NoDup_map_inj.
    - intros m n. apply path_div_inj.
    - apply (Permutation_NoDup (Permutation_sym Hperm)).
      now apply NoDup_filter. }
  destruct (path_exists fs section_dir) eqn:E.
  - rewrite get_files_in_section_eq by assumption.
    destruct (path_exists fs (path_div section_dir "README.md")); [|exact Hl].
    cbn [app]. constructor; [apply readme_not_listed | exact Hl].
  - rewrite get_files_in_section_missing by assumption. constructor.
Qed.

Lemma get_files_in_section_nodup_witness :
  NoDup (get_files_in_section example_docs [("docs" : str); ("getting-started" : str)]).
Proof.
  apply get_files_in_section_nodup.
  vm_compute. repeat (constructor; [cbn; intuition discriminate|]). constructor.
Defined.

(* ================================================================= *)
(** ** build_sidebar *)

(** A loop that ends normally ran its body normally on every element. *)
Lemma for_each_some {A S : Type} (body : S -> A -> option S) (l : list A) :
  forall st st', for_each body l st = Some st' ->
  Forall (fun a => exists s s', body s a = Some s') l.
Proof.
  induction l as [|a l IH]; intros st st' H; [constructor|].
  cbn [for_each] in H. destruct (body st a) as [st1|] eqn:E; [|discriminate H].
  cbn [bind] in H. constructor; [eauto | eapply IH; exact H].
Qed.

Lemma sidebar_child_some fs cur html child html' :
  sidebar_child fs cur html child = Some html' -> can_read fs child = true.
Proof.
  unfold sidebar_child, can_read.
  destruct (md_to_html_path child); [|discriminate]. cbn [bind].
  destruct (read_text fs child); [reflexivity | discriminate].
Qed.

Lemma sidebar_entry_some fs cur html (e : nav_entry) html' :
  snd e <> Some [] ->
  sidebar_entry fs cur html e = Some html' -> entry_readable fs e = true.
Proof.
  destruct e as [[title url] [dir|]]; [|reflexivity].
  unfold entry_readable. cbn [snd]. unfold sidebar_entry.
  destruct dir as [|d0 dir]; [intros H; now destruct H|]. intros _.
  destruct (get_files_in_section fs (path_div DOCS_DIR (d0 :: dir)))
    as [|c cs] eqn:Ec; [reflexivity|].
  destruct (for_each (sidebar_child fs cur) (c :: cs)
              ((html ++ [section_li url title]) ++ ["<ul>" : str]))
    as [h|] eqn:Er; [|discriminate].
  intros _. apply for_each_some in Er. apply forallb_forall.
  intros f Hf. rewrite Forall_forall in Er.
  destruct (Er f Hf) as (s & s' & Hs). now apply sidebar_child_some in Hs.
Qed.

Lemma build_sidebar_some fs cur sidebar :
  build_sidebar fs cur = Some sidebar -> all_readable fs = true.
Proof.
  unfold build_sidebar, all_readable.
  destruct (for_each (sidebar_entry fs cur) NAV_STRUCTURE ["<ul>" : str])
    as [html|] eqn:E; [|discriminate].
  intros _. apply for_each_some in E. apply forallb_forall. intros e He.
  rewrite Forall_forall in E. destruct (E e He) as (s & s' & Hs).
  apply sidebar_entry_some in Hs; [exact Hs|].
  destruct e as [[title url] [dir|]]; [|discriminate].
  apply nav_sections in He as [Hne _]. cbn [snd]. congruence.
Qed.

(** X11.  The sidebar can be built exactly when every "*.md" entry of
    every configured section can be read as a file: one that cannot, a
    directory named like a Markdown file for instance, makes the sidebar
    of every page fail, whichever page is the current one. *)
Theorem build_sidebar_defined (fs : node) (current_page : str) :
  build_sidebar fs current_page <> None <-> all_readable fs = true.
Proof.
  split.
  - destruct (build_sidebar fs current_page) as [sidebar|] eqn:E; [|congruence].
    intros _. now apply build_sidebar_some in E.
  - intros H. destruct (build_sidebar_blocks fs current_page H) as (blocks & -> & _).
    discriminate.
Qed.

(** A section holding a directory named like a Markdown file. *)
Lemma build_sidebar_unreadable_child :
  build_sidebar
    (Dir [ ("docs" : str,
            Dir [ ("reference" : str, Dir [ ("old.md" : str, Dir []) ]) ]) ])
    "index.html"
  = None.
Proof. reflexivity. Qed.

(* ================================================================= *)
(** ** build_breadcrumb *)

Lemma build_breadcrumb_some (fs : node) (rel : path) :
  rel <> [] -> can_read fs (DOCS_DIR ++ rel) = true ->
  exists b, build_breadcrumb fs (DOCS_DIR ++ rel) = Some b.
Proof.
  intros Hne Hr. unfold build_breadcrumb. rewrite relative_to_app. cbn [bind].
  destruct rel as [|x [|y r]]; [congruence | eauto |].
  destruct (str_eqb (path_name (x :: y :: r)) "README.md"); [eauto|].
  apply can_read_some in Hr as [content ->]. cbn [bind]. eauto.
Qed.

(** X12.  [build_breadcrumb] raises for a path that is not below "docs",
    for "docs" itself, and for a page inside a section that cannot be
    read, unless it is a README.md; in every other case it has a
    result. *)
Theorem build_breadcrumb_defined (fs : node) (filepath : path) :
  build_breadcrumb fs filepath <> None
  <-> exists rel, filepath = DOCS_DIR ++ rel /\ rel <> []
        /\ (length rel = 1 \/ path_name rel = "README.md"
            \/ can_read fs filepath = true).
Proof.
  unfold build_breadcrumb. split.
  - destruct (relative_to filepath DOCS_DIR) as [rel|] eqn:E; [|cbn; intros H; now destruct H].
    apply relative_to_inv in E. cbn [bind]. intros H. exists rel.
    split; [exact E|].
    destruct rel as [|x [|y r]];
      [now destruct H | split; [discriminate | now left] |].
    split; [discriminate|]. right.
    destruct (str_eqb (path_name (x :: y :: r)) "README.md") eqn:Er.
    + left. now apply str_eqb_eq.
    + right. unfold can_read.
      destruct (read_text fs filepath); [reflexivity | now cbn in H].
  - intros (rel & -> & Hne & H). rewrite relative_to_app. cbn [bind].
    destruct rel as [|x [|y r]]; [congruence | discriminate |].
    destruct H as [H|[H|H]]; [discriminate H | rewrite H; discriminate |].
    destruct (str_eqb (path_name (x :: y :: r)) "README.md"); [discriminate|].
    apply can_read_some in H as [content ->]. discriminate.
Qed.

(* ================================================================= *)
(** ** build_page *)

(** X13.  A page can be built exactly when its file can be read, lies
    below "docs", and every "*.md" entry of every configured section can
    be read; the template and the renderer play no part in this. *)
Theorem build_page_defined
    (md_convert : str -> str) (fs : node) (md_path : path) (template : str) :
  build_page md_convert fs md_path template <> None
  <-> can_read fs md_path = true
      /\ (exists rel, md_path = DOCS_DIR ++ rel /\ path_name rel <> [])
      /\ all_readable fs = true.
Proof.
  unfold build_page. split.
  - unfold can_read. destruct (read_text fs md_path) as [content|]; [|cbn; intros H; now destruct H].
    cbn [bind]. destruct (md_to_html_path md_path) as [u|] eqn:Eu; [|cbn; intros H; now destruct H].
    cbn [bind]. destruct (build_sidebar fs u) as [sb|] eqn:Es; [|cbn; intros H; now destruct H].
    intros _. split; [reflexivity|]. split.
    + now apply md_to_html_path_some_inv with u.
    + now apply build_sidebar_some in Es.
  - intros (Hr & (rel & -> & Hn) & Ha).
    destruct (can_read_some _ _ Hr) as [content Hc]. rewrite Hc. cbn [bind].
    destruct (md_to_html_path_some rel Hn) as [u ->]. cbn [bind].
    destruct (build_sidebar_blocks fs u Ha) as (blocks & -> & _). cbn [bind].
    destruct (@build_breadcrumb_some fs rel) as [b ->]; [|exact Hr|discriminate].
    intros ->. now apply Hn.
Qed.

(* ================================================================= *)
(** ** convert_internal_links *)

Lemma endswith_app_r (T a b : str) :
  endswith T b = true -> endswith T (a ++ b) = true.
Proof.
  rewrite !endswith_iff. intros [r ->]. exists (a ++ r). now rewrite app_assoc.
Qed.

Lemma endswith_shorter (T' T c : str) :
  endswith (T' ++ T) c = true -> endswith T c = true.
Proof.
  rewrite !endswith_iff. intros [r ->]. exists (r ++ T'). now rewrite <- app_assoc.
Qed.

Lemma endswith_false_shorter (T' T c : str) :
  endswith T c = false -> endswith (T' ++ T) c = false.
Proof.
  intros H. destruct (endswith (T' ++ T) c) eqn:E; [|reflexivity].
  apply endswith_shorter in E. congruence.
Qed.

Lemma closing_scan_sound (s : str) : forall seen,
  closing_scan seen s = true ->
  forall a b, s = a ++ ")"%char :: b ->
    endswith ".md" (seen ++ a) = false /\ endswith "README.html" (seen ++ a) = false.
Proof.
  induction s as [|x s IH]; intros seen H a b E.
  - now destruct a.
  - cbn [closing_scan] in H. apply andb_true_iff in H as [Hx Hs].
    destruct a as [|y a]; cbn [app] in E; inversion E; subst.
    + rewrite app_nil_r. cbn in Hx.
      apply andb_true_iff in Hx as [H1 H2].
      now rewrite negb_true_iff in H1, H2.
    + change (seen ++ y :: a) with (seen ++ [y] ++ a). rewrite app_assoc.
      now apply (IH _ Hs a b).
Qed.

(** X14.  A text in which no closing parenthesis comes right after ".md"
    or "README.html" is left as it is: a link with an anchor or a query
    after the file name, for one, is not rewritten. *)
Theorem convert_internal_links_unchanged (content : str) :
  no_link_ending content -> convert_internal_links content = content.
Proof.
  pattern content. apply by_link_targets; clear content.
  - intros c Hc _. now apply convert_links_free.
  - intros c rest Hc IH H. rewrite convert_links_chunk by assumption.
    destruct (H c rest eq_refl) as [Hmd Hre].
    assert (Hchunk : convert_chunk c = c).
    { unfold convert_chunk. rewrite (md_fixed _ Hmd).
      rewrite readme_fixed
        by (change ("/README.html" : str) with (("/" : str) ++ "README.html");
            now apply endswith_false_shorter).
      apply bare_fixed.
      change ("](README.html" : str) with (("](" : str) ++ "README.html").
      now apply endswith_false_shorter. }
    rewrite Hchunk. do 2 f_equal. apply IH. intros a b E.
    destruct (H (c ++ ")"%char :: a) b) as [H1 H2].
    { rewrite E, <- app_assoc. reflexivity. }
    split.
    + destruct (endswith ".md" a) eqn:Ea; [|reflexivity].
      apply (@endswith_app_r _ (c ++ [")"%char])) in Ea.
      rewrite <- app_assoc in Ea. cbn [app] in Ea. congruence.
    + destruct (endswith "README.html" a) eqn:Ea; [|reflexivity].
      apply (@endswith_app_r _ (c ++ [")"%char])) in Ea.
      rewrite <- app_assoc in Ea. cbn [app] in Ea. congruence.
Qed.

Lemma convert_internal_links_unchanged_witness :
  convert_internal_links "See [setup](install.md#linux) (or ask)."
  = "See [setup](install.md#linux) (or ask).".
Proof.
  apply convert_internal_links_unchanged.
  intros a b E.
  exact (@closing_scan_sound "See [setup](install.md#linux) (or ask)." []
           eq_refl a b E).
Defined.

(** *** One link *)

Lemma closed_text_tail (c rest : str) :
  closed_text (c ++ ")"%char :: rest) -> closed_text rest.
Proof.
  intros [H|[p H]]; [now destruct c|].
  destruct rest as [|y rest']; [now left|]. right.
  destruct (@exists_last _ (y :: rest')) as (r & z & E); [discriminate|].
  rewrite E in *. exists r. f_equal.
  assert (H' : (c ++ ")"%char :: r) ++ [z] = p ++ [")"%char])
    by (rewrite <- app_assoc; exact H).
  now apply app_inj_tail in H' as [_ ->].
Qed.

Lemma closed_text_free (c : str) : closed_text c -> rparen_free c -> c = [].
Proof.
  intros [H|[p ->]] Hc; [exact H|].
  apply rparen_free_app in Hc as [_ Hc]. discriminate Hc.
Qed.

(** The rewriter works on what follows a closed text as if it stood
    alone. *)
Lemma convert_links_app (pre s : str) :
  closed_text pre ->
  convert_internal_links (pre ++ s)
  = convert_internal_links pre ++ convert_internal_links s.
Proof.
  pattern pre. apply by_link_targets; clear pre.
  - intros c Hc Hcl. now rewrite (closed_text_free Hcl Hc).
  - intros c rest Hc IH Hcl. rewrite <- app_assoc. cbn [app].
    rewrite !convert_links_chunk by assumption.
    rewrite IH by now apply closed_text_tail in Hcl.
    now rewrite <- app_assoc.
Qed.

(** A rewrite that applies to [c] and nowhere in the label [lbl] before
    it is the one carried out. *)
Lemma chunk_sub_at (rw : str -> option str) (c out : str) : forall lbl,
  (forall a b, lbl = a ++ b -> b <> [] -> rw (b ++ c) = None) ->
  rw c = Some out ->
  chunk_sub rw (lbl ++ c) = lbl ++ out.
Proof.
  induction lbl as [|x lbl IH]; intros Hnone Hc.
  - cbn [app]. destruct c; cbn [chunk_sub]; now rewrite Hc.
  - cbn [app chunk_sub].
    assert (H0 : rw ((x :: lbl) ++ c) = None)
      by (apply (Hnone [] (x :: lbl) eq_refl); discriminate).
    cbn [app] in H0. rewrite H0. f_equal. apply IH; [|exact Hc].
    intros a b -> Hb. now apply (Hnone (x :: a) b).
Qed.

Lemma link_rewrite_in_label (min : nat) (T R lbl a b rest : str) :
  ~ contains "](" lbl -> lbl = a ++ b -> b <> [] ->
  link_rewrite min T R (b ++ "](" ++ rest) = None.
Proof.
  intros Hno -> Hb.
  destruct (link_rewrite min T R (b ++ "](" ++ rest)) as [out|] eqn:E;
    [|reflexivity].
  exfalso. apply link_rewrite_iff in E as (X & E & _).
  destruct b as [|b0 [|b1 b]]; [congruence | discriminate E |].
  inversion E; subst. apply Hno. exists a, b. reflexivity.
Qed.

Lemma bare_rewrite_longer (b : str) :
  b <> [] -> bare_rewrite (b ++ BARE) = None.
Proof.
  intros Hb. unfold bare_rewrite.
  destruct (str_eqb (b ++ BARE) "](README.html") eqn:E; [|reflexivity].
  apply str_eqb_eq in E. apply (f_equal (@length ascii)) in E.
  rewrite length_app in E. destruct b; [congruence|]. cbn in E. lia.
Qed.

Lemma md_at (lbl X : str) :
  ~ contains "](" lbl -> X <> [] ->
  chunk_sub md_rewrite (lbl ++ "](" ++ X ++ ".md") = lbl ++ "](" ++ X ++ ".html".
Proof.
  intros Hno HX. apply chunk_sub_at.
  - intros a b E Hb. now apply link_rewrite_in_label with lbl a.
  - apply link_rewrite_iff. exists X. repeat split.
    destruct X; [congruence | cbn; lia].
Qed.

Lemma readme_at (lbl D : str) :
  ~ contains "](" lbl ->
  chunk_sub readme_rewrite (lbl ++ "](" ++ D ++ "/README.html")
  = lbl ++ "](" ++ D ++ "/index.html".
Proof.
  intros Hno. apply chunk_sub_at.
  - intros a b E Hb. now apply link_rewrite_in_label with lbl a.
  - apply link_rewrite_iff. exists D. repeat split. lia.
Qed.

Lemma bare_at (lbl : str) :
  chunk_sub bare_rewrite (lbl ++ BARE) = lbl ++ "](index.html".
Proof.
  apply chunk_sub_at; [|reflexivity].
  intros a b _ Hb. now apply bare_rewrite_longer.
Qed.

Lemma endswith_html (T s : str) :
  endswith (T ++ ".html") (s ++ ".html") = endswith T s.
Proof. unfold endswith. rewrite !rev_app_distr. reflexivity. Qed.

Lemma endswith_behind (T a X : str) :
  endswith T (a ++ X) = true ->
  endswith T X = true
  \/ exists l l', l <> [] /\ T = l ++ X /\ a = l' ++ l.
Proof.
  intros H. apply endswith_iff in H as [r H].
  apply app_eq_app in H as [l [[Ha HT]|[Hr HX]]].
  - destruct l as [|z l].
    + left. apply endswith_iff. exists []. now rewrite HT.
    + right. exists (z :: l), r. repeat split; [discriminate | exact HT | exact Ha].
  - left. apply endswith_iff. now exists l.
Qed.

Lemma ends_with_paren (lbl l' l : str) :
  l <> [] -> lbl ++ "](" = l' ++ l -> exists l0, l = l0 ++ ["("%char].
Proof.
  intros Hl E. destruct (@exists_last _ l Hl) as (l0 & z & ->).
  exists l0. f_equal.
  assert (E' : (lbl ++ "]") ++ ["("%char] = (l' ++ l0) ++ [z])
    by (rewrite <- !app_assoc; exact E).
  now apply app_inj_tail in E' as [_ <-].
Qed.

Lemma not_readme_dir (lbl X : str) :
  endswith "/README" X = false ->
  endswith "/README.html" (lbl ++ "](" ++ X ++ ".html") = false.
Proof.
  intros HX.
  replace (lbl ++ "](" ++ X ++ ".html") with (((lbl ++ "](") ++ X) ++ ".html")
    by (now rewrite <- !app_assoc).
  change ("/README.html" : str) with (("/README" : str) ++ ".html").
  rewrite endswith_html.
  destruct (endswith "/README" ((lbl ++ "](") ++ X)) eqn:E; [|reflexivity].
  apply endswith_behind in E as [E|(l & l' & Hl & HT & Ha)]; [congruence|].
  apply ends_with_paren in Ha as [l0 ->]; [|exact Hl].
  rewrite <- app_assoc in HT. exfalso.
  assert (Hin : In "("%char ("/README" : str)) by (rewrite HT; apply in_elt).
  cbn in Hin. intuition discriminate.
Qed.

Lemma not_bare_readme (lbl X : str) :
  X <> "README" -> ~ contains "](" X ->
  endswith "](README.html" (lbl ++ "](" ++ X ++ ".html") = false.
Proof.
  intros HX Hno.
  replace (lbl ++ "](" ++ X ++ ".html") with (((lbl ++ "](") ++ X) ++ ".html")
    by (now rewrite <- !app_assoc).
  change ("](README.html" : str) with (("](README" : str) ++ ".html").
  rewrite endswith_html.
  destruct (endswith "](README" ((lbl ++ "](") ++ X)) eqn:E; [|reflexivity].
  exfalso. apply endswith_behind in E as [E|(l & l' & Hl & HT & Ha)].
  - apply endswith_iff in E as [r ->]. apply Hno. now exists r, ("README" : str).
  - apply ends_with_paren in Ha as [l0 ->]; [|exact Hl].
    rewrite <- app_assoc in HT. cbn [app] in HT.
    destruct l0 as [|c1 [|c2 l0]]; cbn [app] in HT.
    + discriminate HT.
    + inversion HT. now apply HX.
    + injection HT as _ _ H3.
      pose proof (in_elt "("%char l0 X) as Hin. rewrite <- H3 in Hin.
      cbn in Hin. intuition discriminate.
Qed.

Lemma index_not_bare U : endswith "](README.html" (U ++ "/index.html") = false.
Proof. other_ending. Qed.

Lemma bare_not_readme U : endswith "/README.html" (U ++ "](README.html") = false.
Proof. other_ending. Qed.

(** What becomes of a link target that ends in ".md". *)
Lemma convert_chunk_md (lbl X : str) :
  ~ contains "](" lbl -> X <> [] ->
  X <> "README" -> endswith "/README" X = false -> ~ contains "](" X ->
  convert_chunk (lbl ++ "](" ++ X ++ ".md") = lbl ++ "](" ++ X ++ ".html".
Proof.
  intros Hl HX Hr Hd Hno. unfold convert_chunk.
  rewrite md_at by assumption.
  rewrite readme_fixed by now apply not_readme_dir.
  apply bare_fixed. now apply not_bare_readme.
Qed.

Lemma convert_chunk_readme (lbl D : str) :
  ~ contains "](" lbl ->
  convert_chunk (lbl ++ "](" ++ (D ++ "/README") ++ ".md")
  = lbl ++ "](" ++ D ++ "/index.html".
Proof.
  intros Hl. unfold convert_chunk.
  rewrite md_at; [|assumption | now destruct D].
  replace (lbl ++ "](" ++ (D ++ "/README") ++ ".html")
    with (lbl ++ "](" ++ D ++ "/README.html")
    by (now rewrite <- !app_assoc).
  rewrite readme_at by assumption.
  apply bare_fixed.
  replace (lbl ++ "](" ++ D ++ "/index.html")
    with ((lbl ++ "](" ++ D) ++ "/index.html")
    by (now rewrite <- !app_assoc).
  apply index_not_bare.
Qed.

Lemma convert_chunk_bare (lbl : str) :
  ~ contains "](" lbl ->
  convert_chunk (lbl ++ "](" ++ "README" ++ ".md") = lbl ++ "](index.html".
Proof.
  intros Hl. unfold convert_chunk.
  rewrite md_at; [|assumption | discriminate].
  change (lbl ++ "](" ++ "README" ++ ".html") with (lbl ++ "](README.html").
  rewrite readme_fixed by apply bare_not_readme.
  apply bare_at.
Qed.

Lemma link_target_free (lbl X T : str) :
  rparen_free lbl -> rparen_free X -> rparen_free T ->
  rparen_free (lbl ++ "](" ++ X ++ T).
Proof.
  intros Hl HX HT. apply rparen_free_app. split; [exact Hl|].
  apply rparen_free_app. split; [reflexivity|].
  apply rparen_free_app. now split.
Qed.

(** X15.  A link to a Markdown file, "](" X ".md)" with X other than a
    README, becomes a link to X.html, and nothing around it moves: the
    text up to the last closing parenthesis before the link and the text
    after the link are rewritten on their own. *)
Theorem convert_link_md (pre lbl X rest : str) :
  closed_text pre -> rparen_free lbl -> ~ contains "](" lbl ->
  rparen_free X -> X <> [] ->
  X <> "README" -> endswith "/README" X = false -> ~ contains "](" X ->
  convert_internal_links (pre ++ lbl ++ "](" ++ X ++ ".md)" ++ rest)
  = convert_internal_links pre ++ lbl ++ "](" ++ X ++ ".html)"
      ++ convert_internal_links rest.
Proof.
  intros Hpre Hl Hno HX Hne Hr Hd HnoX.
  rewrite convert_links_app by assumption. f_equal.
  replace (lbl ++ "](" ++ X ++ ".md)" ++ rest)
    with ((lbl ++ "](" ++ X ++ ".md") ++ ")"%char :: rest)
    by (now rewrite <- !app_assoc).
  rewrite convert_links_chunk by (now apply link_target_free).
  rewrite convert_chunk_md by assumption.
  now rewrite <- !app_assoc.
Qed.

Lemma convert_link_md_witness :
  convert_internal_links
    ("(see)" ++ " the [guide" ++ "](" ++ "setup/install" ++ ".md)" ++ " first")
  = convert_internal_links "(see)" ++ " the [guide" ++ "](" ++ "setup/install"
      ++ ".html)" ++ convert_internal_links " first".
Proof.
  apply convert_link_md.
  - right. now exists ("(see" : str).
  - reflexivity.
  - intros H. apply occurs_iff in H. discriminate H.
  - reflexivity.
  - discriminate.
  - discriminate.
  - reflexivity.
  - intros H. apply occurs_iff in H. discriminate H.
Defined.

(** X16.  A link to the README.md of a directory D, "](" D "/README.md)",
    becomes a link to D/index.html. *)
Theorem convert_link_readme (pre lbl D rest : str) :
  closed_text pre -> rparen_free lbl -> ~ contains "](" lbl -> rparen_free D ->
  convert_internal_links (pre ++ lbl ++ "](" ++ D ++ "/README.md)" ++ rest)
  = convert_internal_links pre ++ lbl ++ "](" ++ D ++ "/index.html)"
      ++ convert_internal_links rest.
Proof.
  intros Hpre Hl Hno HD.
  rewrite convert_links_app by assumption. f_equal.
  replace (lbl ++ "](" ++ D ++ "/README.md)" ++ rest)
    with ((lbl ++ "](" ++ (D ++ "/README") ++ ".md") ++ ")"%char :: rest)
    by (now rewrite <- !app_assoc).
  rewrite convert_links_chunk
    by (apply link_target_free;
        [assumption | apply rparen_free_app; now split | reflexivity]).
  rewrite convert_chunk_readme by assumption.
  now rewrite <- !app_assoc.
Qed.

Lemma convert_link_readme_witness :
  convert_internal_links
    ([] ++ "[Guides" ++ "](" ++ "../core-guides" ++ "/README.md)" ++ " and more")
  = convert_internal_links [] ++ "[Guides" ++ "](" ++ "../core-guides"
      ++ "/index.html)" ++ convert_internal_links " and more".
Proof.
  apply convert_link_readme.
  - now left.
  - reflexivity.
  - intros H. apply occurs_iff in H. discriminate H.
  - reflexivity.
Defined.

(** X17.  A link to the README.md next to the page, "](README.md)",
    becomes a link to index.html. *)
Theorem convert_link_bare_readme (pre lbl rest : str) :
  closed_text pre -> rparen_free lbl -> ~ contains "](" lbl ->
  convert_internal_links (pre ++ lbl ++ "](README.md)" ++ rest)
  = convert_internal_links pre ++ lbl ++ "](index.html)"
      ++ convert_internal_links rest.
Proof.
  intros Hpre Hl Hno.
  rewrite convert_links_app by assumption. f_equal.
  change (lbl ++ "](README.md)" ++ rest)
    with (lbl ++ "](" ++ "README" ++ ".md" ++ ")"%char :: rest).
  replace (lbl ++ "](" ++ "README" ++ ".md" ++ ")"%char :: rest)
    with ((lbl ++ "](" ++ "README" ++ ".md") ++ ")"%char :: rest)
    by (now rewrite <- !app_assoc).
  rewrite convert_links_chunk by (now apply link_target_free).
  rewrite convert_chunk_bare by assumption.
  now rewrite <- !app_assoc.
Qed.

Lemma convert_link_bare_readme_witness :
  convert_internal_links ([] ++ "Back to the [overview" ++ "](README.md)" ++ ".")
  = convert_internal_links [] ++ "Back to the [overview" ++ "](index.html)"
      ++ convert_internal_links ".".
Proof.
  apply convert_link_bare_readme.
  - now left.
  - reflexivity.
  - intros H. apply occurs_iff in H. discriminate H.
Defined.

(** *** No link to a Markdown file is left *)

Lemma chunk_sub_fires (rw : str -> option str) (T R : str) :
  (forall c out, rw c = Some out -> (exists U, out = U ++ R) /\ endswith T c = true) ->
  forall a c out, rw c = Some out -> exists U, chunk_sub rw (a ++ c) = U ++ R.
Proof.
  intros Hshape a c out Hc. induction a as [|x a [U IH]].
  - cbn [app]. apply Hshape in Hc as Hout. destruct Hout as [[U ->] _].
    exists U. destruct c; cbn [chunk_sub]; now rewrite Hc.
  - cbn [app chunk_sub]. destruct (rw (x :: a ++ c)) as [out'|] eqn:E.
    + apply Hshape in E as [HU _]. exact HU.
    + exists (x :: U). now rewrite IH.
Qed.

(** After the first substitution a link target no longer ends the way a
    link to a Markdown file does. *)
Lemma md_pass_leaves_none (c a X : str) :
  X <> [] -> chunk_sub md_rewrite c <> a ++ "](" ++ X ++ ".md".
Proof.
  intros HX E.
  destruct (md_shape c) as [Hfix|[U HU]].
  - rewrite Hfix in E. subst c.
    destruct (@chunk_sub_fires md_rewrite ".md" ".html"
                (@link_rewrite_shape 1 ".md" ".html")
                a ("](" ++ X ++ ".md") ("](" ++ X ++ ".html")) as [U HU].
    { apply link_rewrite_iff. exists X. repeat split.
      destruct X; [congruence | cbn; lia]. }
    rewrite Hfix in HU.
    pose proof (html_not_md U) as Hn. rewrite <- HU in Hn.
    replace (a ++ "](" ++ X ++ ".md") with ((a ++ "](" ++ X) ++ ".md") in Hn
      by (now rewrite <- !app_assoc).
    assert (Hy : endswith ".md" ((a ++ "](" ++ X) ++ ".md") = true)
      by (apply endswith_iff; now exists (a ++ "](" ++ X)).
    congruence.
  - rewrite HU in E. pose proof (html_not_md U) as Hn. rewrite E in Hn.
    assert (Hy : endswith ".md" (a ++ "](" ++ X ++ ".md") = true).
    { apply endswith_iff. exists (a ++ "](" ++ X). now rewrite <- !app_assoc. }
    congruence.
Qed.

Lemma convert_chunk_no_md (c a X : str) :
  X <> [] -> convert_chunk c <> a ++ "](" ++ X ++ ".md".
Proof.
  intros HX E. unfold convert_chunk in E.
  assert (Hend : endswith ".md" (a ++ "](" ++ X ++ ".md") = true).
  { apply endswith_iff. exists (a ++ "](" ++ X). now rewrite <- !app_assoc. }
  rewrite <- E in Hend.
  destruct (bare_shape (chunk_sub readme_rewrite (chunk_sub md_rewrite c)))
    as [E3|[U E3]]; rewrite E3 in *; [|now rewrite bare_index_not_md in Hend].
  destruct (readme_shape (chunk_sub md_rewrite c))
    as [E2|[U E2]]; rewrite E2 in *; [|now rewrite index_not_md in Hend].
  now apply md_pass_leaves_none in E.
Qed.

Lemma first_rparen (a : str) :
  rparen_free a \/ exists a1 a2, a = a1 ++ ")"%char :: a2 /\ rparen_free a1.
Proof.
  induction a as [|x a IH]; [now left|].
  destruct (Ascii.eqb_spec x ")"%char) as [->|Hx].
  - right. now exists [], a.
  - destruct IH as [IH|(a1 & a2 & -> & H1)].
    + left. apply rparen_free_cons. now split.
    + right. exists (x :: a1), a2. split; [reflexivity|].
      apply rparen_free_cons. now split.
Qed.

(** X27.  The rewritten text holds no link to a Markdown file: nowhere in
    it does "](" come with a target that ends in ".md" before the
    closing parenthesis. *)
Theorem convert_internal_links_no_md_link (content a X b : str) :
  X <> [] -> rparen_free X ->
  convert_internal_links content <> a ++ "](" ++ X ++ ".md)" ++ b.
Proof.
  intros HX HfX. revert a b. pattern content. apply by_link_targets; clear content.
  - intros c Hc a b E. rewrite (convert_links_free Hc) in E. subst c.
    apply rparen_free_app in Hc as [_ Hc]. apply rparen_free_app in Hc as [_ Hc].
    apply rparen_free_app in Hc as [_ Hc]. apply rparen_free_app in Hc as [Hc _].
    discriminate Hc.
  - intros c rest Hc IH a b E. rewrite convert_links_chunk in E by assumption.
    destruct (first_rparen a) as [Ha|(a1 & a2 & -> & Ha1)].
    + replace (a ++ "](" ++ X ++ ".md)" ++ b)
        with ((a ++ "](" ++ X ++ ".md") ++ ")"%char :: b) in E
        by (now rewrite <- !app_assoc).
      apply first_rparen_unique in E as [E _].
      * now apply convert_chunk_no_md in E.
      * now apply convert_chunk_free.
      * now apply link_target_free.
    + rewrite <- app_assoc in E. cbn [app] in E.
      apply first_rparen_unique in E as [_ E];
        [|now apply convert_chunk_free | exact Ha1].
      now apply IH in E.
Qed.

Lemma convert_internal_links_no_md_link_witness :
  convert_internal_links "See [setup](guide/install.md) first"
  <> "See [setup" ++ "](" ++ "guide/install" ++ ".md)" ++ " first".
Proof.
  apply convert_internal_links_no_md_link; [discriminate | reflexivity].
Defined.

(* ================================================================= *)
(** ** The file system, written *)

Lemma lookup_cons (es : list (str * node)) (c : str) (p : path) :
  lookup (Dir es) (c :: p) = bind (find_entry c es) (fun ch => lookup ch p).
Proof.
  cbn [lookup]. induction es as [|[k v] es IH]; [reflexivity|].
  cbn [find_entry]. destruct (str_eqb k c); [reflexivity | exact IH].
Qed.

Lemma lookup_file (t : str) (c : str) (p : path) : lookup (File t) (c :: p) = None.
Proof. reflexivity. Qed.

Lemma find_entry_set_same (c : str) (n : node) (es : list (str * node)) :
  find_entry c (set_entry c n es) = Some n.
Proof.
  induction es as [|[k v] es IH]; cbn [set_entry find_entry].
  - now rewrite str_eqb_refl.
  - destruct (str_eqb k c) eqn:E; cbn [find_entry].
    + now rewrite str_eqb_refl.
    + now rewrite E.
Qed.

Lemma find_entry_set_other (c k : str) (n : node) (es : list (str * node)) :
  k <> c -> find_entry k (set_entry c n es) = find_entry k es.
Proof.
  intros Hk. assert (Hck : str_eqb c k = false) by (apply str_eqb_neq; congruence).
  induction es as [|[k' v] es IH]; cbn [set_entry find_entry].
  - now rewrite Hck.
  - destruct (str_eqb k' c) eqn:E; cbn [find_entry].
    + apply str_eqb_eq in E. subst k'. now rewrite Hck.
    + now rewrite IH.
Qed.

Lemma find_entry_remove_same (c : str) (es : list (str * node)) :
  find_entry c (remove_entry c es) = None.
Proof.
  unfold remove_entry.
  induction es as [|[k v] es IH]; [reflexivity|]. cbn [filter fst].
  destruct (str_eqb k c) eqn:E; cbn [negb find_entry]; [exact IH|].
  now rewrite E.
Qed.

Lemma find_entry_remove_other (c k : str) (es : list (str * node)) :
  k <> c -> find_entry k (remove_entry c es) = find_entry k es.
Proof.
  intros Hk. unfold remove_entry.
  induction es as [|[k' v] es IH]; [reflexivity|].
  cbn [filter fst find_entry].
  destruct (str_eqb k' c) eqn:E; cbn [negb find_entry].
  - apply str_eqb_eq in E. subst k'.
    replace (str_eqb c k) with false by (symmetry; apply str_eqb_neq; congruence).
    exact IH.
  - now rewrite IH.
Qed.


(** *** What a change below one top-level name leaves alone *)

Lemma same_outside_refl (top : str) (fs : node) : same_outside top fs fs.
Proof. intros c q _. reflexivity. Qed.

Lemma same_outside_trans (top : str) (fs1 fs2 fs3 : node) :
  same_outside top fs1 fs2 -> same_outside top fs2 fs3 -> same_outside top fs1 fs3.
Proof. intros H1 H2 c q Hc. now rewrite H2, H1. Qed.

Lemma set_entry_outside (top : str) (n : node) (es : list (str * node)) :
  same_outside top (Dir es) (Dir (set_entry top n es)).
Proof.
  intros c q Hc. rewrite !lookup_cons. now rewrite find_entry_set_other.
Qed.

Lemma remove_entry_outside (top : str) (es : list (str * node)) :
  same_outside top (Dir es) (Dir (remove_entry top es)).
Proof.
  intros c q Hc. rewrite !lookup_cons. now rewrite find_entry_remove_other.
Qed.

Lemma mkdir_p_outside (top : str) (p : path) (fs fs' : node) :
  mkdir_p fs (top :: p) = Some fs' -> same_outside top fs fs'.
Proof.
  destruct fs as [t|es]; [discriminate|]. cbn [mkdir_p].
  destruct (mkdir_p _ p) as [child'|]; [|cbn; discriminate].
  cbn [bind]. intros H. inversion H. apply set_entry_outside.
Qed.

Lemma mkdir_p_nil (fs fs' : node) : mkdir_p fs [] = Some fs' -> fs' = fs.
Proof. destruct fs; cbn; congruence. Qed.

Lemma mkdir_outside (top : str) (exist_ok : bool) (p : path) (fs fs' : node) :
  p = [] \/ (exists p', p = top :: p') ->
  mkdir exist_ok fs p = Some fs' -> same_outside top fs fs'.
Proof.
  unfold mkdir. intros Hp.
  destruct (path_exists fs p && negb exist_ok); [discriminate|].
  destruct Hp as [->|[p' ->]].
  - intros H. apply mkdir_p_nil in H. subst fs'. apply same_outside_refl.
  - apply mkdir_p_outside.
Qed.

Lemma write_text_last (es : list (str * node)) (name text : str) :
  write_text (Dir es) [name] text
  = match find_entry name es with
    | Some (Dir _) => None
    | _ => Some (Dir (set_entry name (File text) es))
    end.
Proof. reflexivity. Qed.

Lemma write_text_step (es : list (str * node)) (c c2 : str) (p : path) (text : str) :
  write_text (Dir es) (c :: c2 :: p) text
  = (child <- find_entry c es ;;
     child' <- write_text child (c2 :: p) text ;;
     Some (Dir (set_entry c child' es))).
Proof. reflexivity. Qed.

Lemma write_text_in_file (t : str) (p : path) (text : str) :
  write_text (File t) p text = None.
Proof. now destruct p as [|c [|c2 p]]. Qed.

Lemma rmtree_last (es : list (str * node)) (name : str) :
  rmtree (Dir es) [name]
  = match find_entry name es with
    | Some (Dir _) => Some (Dir (remove_entry name es))
    | _ => None
    end.
Proof. reflexivity. Qed.

Lemma rmtree_step (es : list (str * node)) (c c2 : str) (p : path) :
  rmtree (Dir es) (c :: c2 :: p)
  = (child <- find_entry c es ;;
     child' <- rmtree child (c2 :: p) ;;
     Some (Dir (set_entry c child' es))).
Proof. reflexivity. Qed.

Lemma rmtree_in_file (t : str) (p : path) : rmtree (File t) p = None.
Proof. now destruct p as [|c [|c2 p]]. Qed.

Lemma write_text_outside (top : str) (p : path) (text : str) (fs fs' : node) :
  write_text fs (top :: p) text = Some fs' -> same_outside top fs fs'.
Proof.
  destruct fs as [t|es]; [now rewrite write_text_in_file|].
  destruct p as [|c p].
  - rewrite write_text_last.
    destruct (find_entry top es) as [[t|es']|]; try discriminate;
      intros H; inversion H; apply set_entry_outside.
  - rewrite write_text_step.
    destruct (find_entry top es) as [child|]; [|discriminate]. cbn [bind].
    destruct (write_text child (c :: p) text) as [child'|]; [|discriminate].
    cbn [bind]. intros H. inversion H. apply set_entry_outside.
Qed.

Lemma rmtree_outside (top : str) (p : path) (fs fs' : node) :
  rmtree fs (top :: p) = Some fs' -> same_outside top fs fs'.
Proof.
  destruct fs as [t|es]; [now rewrite rmtree_in_file|].
  destruct p as [|c p].
  - rewrite rmtree_last.
    destruct (find_entry top es) as [[t|es']|]; try discriminate.
    intros H; inversion H; apply remove_entry_outside.
  - rewrite rmtree_step.
    destruct (find_entry top es) as [child|]; [|discriminate]. cbn [bind].
    destruct (rmtree child (c :: p)) as [child'|]; [|discriminate].
    cbn [bind]. intros H. inversion H. apply set_entry_outside.
Qed.

(** *** Steps of a run *)

Lemma keeps_ret {A : Type} (top : str) (a : A) : keeps_outside top (ret a).
Proof. intros w. apply same_outside_refl. Qed.

Lemma keeps_print (top : str) (line : str) : keeps_outside top (print line).
Proof. intros w. apply same_outside_refl. Qed.

Lemma keeps_attempt {A : Type} (top : str) (f : node -> option A) :
  keeps_outside top (attempt f).
Proof. intros w. apply same_outside_refl. Qed.

Lemma keeps_update (top : str) (f : node -> option node) :
  (forall fs fs', f fs = Some fs' -> same_outside top fs fs') ->
  keeps_outside top (update f).
Proof.
  intros Hf w. unfold update, final.
  destruct (f (w_fs w)) as [fs'|] eqn:E; cbn [fst w_fs].
  - now apply Hf.
  - apply same_outside_refl.
Qed.

Lemma keeps_bind {A B : Type} (top : str) (m : run A) (k : A -> run B) :
  keeps_outside top m -> (forall a, keeps_outside top (k a)) ->
  keeps_outside top (bind_run m k).
Proof.
  intros Hm Hk w. unfold bind_run, final.
  specialize (Hm w). unfold final in Hm.
  destruct (m w) as [w1 [a|]]; cbn [fst] in *; [|exact Hm].
  eapply same_outside_trans; [exact Hm | apply Hk].
Qed.

Lemma keeps_for_each {A : Type} (top : str) (body : A -> run unit) (l : list A) :
  (forall a, keeps_outside top (body a)) ->
  keeps_outside top (for_each_run body l).
Proof.
  intros Hb. induction l as [|a l IH]; cbn [for_each_run].
  - apply keeps_ret.
  - apply keeps_bind; [apply Hb | intros _; exact IH].
Qed.

Lemma output_parent_shape (u : str) :
  path_parent (output_path_of u) = []
  \/ exists p', path_parent (output_path_of u) = ("site" : str) :: p'.
Proof.
  unfold output_path_of, OUTPUT_DIR, path_parent. cbn [app].
  destruct (parse_path u) as [|x pp]; [now left|]. right.
  cbn [removelast]. eauto.
Qed.

Lemma main_page_keeps (md_convert : str -> str) (template : str) (md_path : path) :
  keeps_outside "site" (main_page md_convert template md_path).
Proof.
  unfold main_page.
  apply keeps_bind; [apply keeps_attempt|]. intros u.
  apply keeps_bind.
  { apply keeps_update. intros fs fs'. apply mkdir_outside, output_parent_shape. }
  intros _. apply keeps_bind; [apply keeps_attempt|]. intros html.
  apply keeps_bind; [|intros _; apply keeps_print].
  apply keeps_update. intros fs fs'. apply write_text_outside.
Qed.

Lemma main_keeps (md_convert : str -> str) : keeps_outside "site" (main md_convert).
Proof.
  unfold main.
  apply keeps_bind; [apply keeps_print|]. intros _.
  apply keeps_bind; [apply keeps_attempt|]. intros output_exists.
  apply keeps_bind.
  { destruct output_exists; [|apply keeps_ret].
    apply keeps_update. intros fs fs'. apply rmtree_outside. }
  intros _. apply keeps_bind.
  { apply keeps_update. intros fs fs'. apply mkdir_outside. right. now exists []. }
  intros _. apply keeps_bind; [apply keeps_attempt|]. intros template.
  apply keeps_bind; [apply keeps_attempt|]. intros md_files.
  apply keeps_bind; [apply keeps_print|]. intros _.
  apply keeps_bind; [|intros _; apply keeps_print].
  apply keeps_for_each. intros md_path. apply main_page_keeps.
Qed.

(** X18.  However a run of [main] ends, normally or with an exception, it
    has changed nothing outside the output directory: every path that
    does not start with "site" leads where it led before. *)
Theorem main_writes_below_site
    (md_convert : str -> str) (w : world) (c : str) (q : path) :
  c <> "site" ->
  lookup (w_fs (final (main md_convert w))) (c :: q) = lookup (w_fs w) (c :: q).
Proof. intros Hc. now apply main_keeps. Qed.

Lemma main_writes_below_site_witness :
  lookup (w_fs (final (main render_paragraph site_example)))
    [("docs" : str); ("index.md" : str)]
  = lookup (w_fs site_example) [("docs" : str); ("index.md" : str)].
Proof.
  apply (@main_writes_below_site render_paragraph site_example "docs" ["index.md" : str]).
  discriminate.
Defined.

(** *** The output directory is emptied first *)

Lemma lookup_top (es : list (str * node)) (c : str) :
  lookup (Dir es) [c] = find_entry c es.
Proof. rewrite lookup_cons. destruct (find_entry c es) as [ch|]; [apply lookup_nil | reflexivity]. Qed.

(** With no file in the way, [main] reaches the build with an empty
    output directory, the rest of the tree as it was. *)
Lemma main_cleans (md_convert : str -> str) (es : list (str * node)) (out : list str) :
  (forall t, lookup (Dir es) OUTPUT_DIR <> Some (File t)) ->
  exists fs1,
    same_outside "site" (Dir es) fs1
    /\ lookup fs1 OUTPUT_DIR = Some (Dir [])
    /\ main md_convert (World (Dir es) out)
       = build_all md_convert (World fs1 (out ++ [START_LINE])).
Proof.
  intros Hfile. unfold OUTPUT_DIR in *. rewrite lookup_top in Hfile.
  unfold main. fold (build_all md_convert).
  unfold bind_run at 1. cbn [print w_fs w_out]. fold START_LINE.
  unfold bind_run at 1. cbn [attempt w_fs].
  unfold path_exists, OUTPUT_DIR. rewrite lookup_top.
  destruct (find_entry "site" es) as [[t|d]|] eqn:E.
  - now destruct (Hfile t).
  - exists (Dir (set_entry "site" (Dir []) (remove_entry "site" es))).
    split; [|split].
    + eapply same_outside_trans; [apply remove_entry_outside | apply set_entry_outside].
    + rewrite lookup_top. apply find_entry_set_same.
    + unfold bind_run at 1. unfold update at 1. cbn [w_fs w_out].
      rewrite rmtree_last, E.
      unfold bind_run at 1. unfold update at 1. cbn [w_fs w_out].
      unfold mkdir, path_exists. rewrite lookup_top, find_entry_remove_same.
      cbn [andb mkdir_p]. rewrite find_entry_remove_same. cbn [bind]. reflexivity.
  - exists (Dir (set_entry "site" (Dir []) es)).
    split; [|split].
    + apply set_entry_outside.
    + rewrite lookup_top. apply find_entry_set_same.
    + unfold bind_run at 1. cbn [ret].
      unfold bind_run at 1. unfold update at 1. cbn [w_fs w_out].
      unfold mkdir, path_exists. rewrite lookup_top, E.
      cbn [andb mkdir_p]. rewrite E. cbn [bind]. reflexivity.
Qed.

Lemma read_text_outside (top : str) (fs fs' : node) (c : str) (q : path) :
  same_outside top fs fs' -> c <> top ->
  read_text fs' (c :: q) = read_text fs (c :: q).
Proof. intros H Hc. unfold read_text. now rewrite H. Qed.

Lemma build_all_no_template (md_convert : str -> str) (w : world) :
  read_text (w_fs w) TEMPLATE_FILE = None -> build_all md_convert w = (w, None).
Proof.
  intros E. unfold build_all. unfold bind_run at 1. cbn [attempt]. now rewrite E.
Qed.

(** X19.  The output directory is emptied before the template is read:
    without a readable template the run ends with an exception, and the
    site built earlier is gone all the same. *)
Theorem main_without_template
    (md_convert : str -> str) (es : list (str * node)) (out : list str) :
  (forall t, lookup (Dir es) OUTPUT_DIR <> Some (File t)) ->
  read_text (Dir es) TEMPLATE_FILE = None ->
  ~ succeeded (main md_convert (World (Dir es) out))
  /\ lookup (w_fs (final (main md_convert (World (Dir es) out)))) OUTPUT_DIR
     = Some (Dir []).
Proof.
  intros Hfile Htpl.
  destruct (@main_cleans md_convert es out Hfile) as (fs1 & Hout & Hsite & ->).
  assert (E : read_text fs1 TEMPLATE_FILE = None).
  { unfold TEMPLATE_FILE, TEMPLATE_DIR, path_div in *. cbn [app] in *.
    rewrite (read_text_outside _ Hout) by discriminate. exact Htpl. }
  rewrite build_all_no_template by exact E.
  unfold succeeded, final. cbn [fst snd w_fs]. split; [congruence | exact Hsite].
Qed.

Lemma main_without_template_witness :
  ~ succeeded
      (main render_paragraph
         (World (Dir [ ("site" : str, Dir [ ("old.html" : str, File "stale") ]) ]) []))
  /\ lookup
       (w_fs (final
          (main render_paragraph
             (World (Dir [ ("site" : str, Dir [ ("old.html" : str, File "stale") ]) ])
                []))))
       OUTPUT_DIR
     = Some (Dir []).
Proof.
  apply main_without_template.
  - intros t. discriminate.
  - reflexivity.
Defined.

Lemma main_file_in_way
    (md_convert : str -> str) (es : list (str * node)) (out : list str) (t : str) :
  find_entry "site" es = Some (File t) ->
  main md_convert (World (Dir es) out)
  = (World (Dir es) (out ++ [START_LINE]), None).
Proof.
  intros E.
  unfold main. unfold bind_run at 1. cbn [print w_fs w_out]. fold START_LINE.
  unfold bind_run at 1. cbn [attempt w_fs].
  unfold path_exists, OUTPUT_DIR. rewrite lookup_top, E.
  unfold bind_run at 1. unfold update at 1. cbn [w_fs w_out].
  now rewrite rmtree_last, E.
Qed.

(** X20.  A file in the place of the output directory stops the run at
    once: [main] raises after its first line, and the tree is as it
    was. *)
Theorem main_output_is_file
    (md_convert : str -> str) (es : list (str * node)) (out : list str) (t : str) :
  lookup (Dir es) OUTPUT_DIR = Some (File t) ->
  ~ succeeded (main md_convert (World (Dir es) out))
  /\ final (main md_convert (World (Dir es) out))
     = World (Dir es) (out ++ [START_LINE]).
Proof.
  unfold OUTPUT_DIR. rewrite lookup_top. intros E.
  rewrite (@main_file_in_way md_convert es out t E).
  split; [|reflexivity]. unfold succeeded. cbn [snd]. congruence.
Qed.

Lemma main_output_is_file_witness :
  ~ succeeded (main render_paragraph (World (Dir [ ("site" : str, File "notes") ]) []))
  /\ final (main render_paragraph (World (Dir [ ("site" : str, File "notes") ]) []))
     = World (Dir [ ("site" : str, File "notes") ]) ([] ++ [START_LINE]).
Proof.
  apply main_output_is_file with (t := "notes" : str). reflexivity.
Defined.

(** *** Which files a change leaves in place *)

Lemma mkdir_p_step (es : list (str * node)) (c : str) (p : path) :
  mkdir_p (Dir es) (c :: p)
  = (child' <- mkdir_p (match find_entry c es with
                        | Some ch => ch
                        | None => Dir []
                        end) p ;;
     Some (Dir (set_entry c child' es))).
Proof. reflexivity. Qed.

Lemma lookup_empty_dir (q : path) (t : str) : lookup (Dir []) q <> Some (File t).
Proof. destruct q; discriminate. Qed.

(** Making directories neither makes nor removes a file. *)
Lemma mkdir_p_files (p : path) : forall fs fs',
  mkdir_p fs p = Some fs' ->
  forall q t, lookup fs' q = Some (File t) <-> lookup fs q = Some (File t).
Proof.
  induction p as [|c p IH]; intros fs fs' H q t.
  - apply mkdir_p_nil in H. now subst.
  - destruct fs as [t0|es]; [discriminate H|]. rewrite mkdir_p_step in H.
    destruct (mkdir_p _ p) as [child'|] eqn:E; [|discriminate H].
    cbn [bind] in H. inversion H. subst fs'. clear H.
    destruct q as [|k q]; [rewrite !lookup_nil; split; discriminate|].
    rewrite !lookup_cons. destruct (str_eqb k c) eqn:Ek.
    + apply str_eqb_eq in Ek. subst k. rewrite find_entry_set_same. cbn [bind].
      rewrite (IH _ _ E q t).
      destruct (find_entry c es) as [ch|]; cbn [bind]; [reflexivity|].
      split; [intros H; now apply lookup_empty_dir in H | discriminate].
    + apply str_eqb_neq in Ek. now rewrite find_entry_set_other.
Qed.

Lemma mkdir_files (exist_ok : bool) (p : path) (fs fs' : node) :
  mkdir exist_ok fs p = Some fs' ->
  forall q t, lookup fs' q = Some (File t) <-> lookup fs q = Some (File t).
Proof.
  unfold mkdir. destruct (path_exists fs p && negb exist_ok); [discriminate|].
  apply mkdir_p_files.
Qed.

(** Writing a file puts its text at its path and leaves every other file
    as it was. *)
Lemma write_text_files (p : path) : forall fs fs' text,
  write_text fs p text = Some fs' ->
  forall q t,
    lookup fs' q = Some (File t)
    <-> (q = p /\ t = text) \/ (q <> p /\ lookup fs q = Some (File t)).
Proof.
  induction p as [|c p IH]; intros fs fs' text H q t.
  - destruct fs; discriminate H.
  - destruct fs as [t0|es]; [now rewrite write_text_in_file in H|].
    destruct p as [|c2 p].
    + rewrite write_text_last in H.
      assert (Hf : fs' = Dir (set_entry c (File text) es)
                   /\ forall d, find_entry c es <> Some (Dir d)).
      { destruct (find_entry c es) as [[t1|d1]|]; inversion H;
          split; try reflexivity; intros d; discriminate. }
      destruct Hf as [-> Hf]. clear H.
      destruct q as [|k q].
      { rewrite !lookup_nil. split; [discriminate|].
        intros [[Hq _]|[_ Hq]]; discriminate. }
      rewrite !lookup_cons. destruct (str_eqb k c) eqn:Ek.
      * apply str_eqb_eq in Ek. subst k. rewrite find_entry_set_same. cbn [bind].
        destruct q as [|k2 q].
        -- rewrite lookup_nil. split.
           ++ intros Ht. inversion Ht. now left.
           ++ intros [[_ ->]|[Hq _]]; [reflexivity | congruence].
        -- rewrite lookup_file. split; [discriminate|].
           intros [[Hq _]|[_ Hq]]; [discriminate Hq|].
           destruct (find_entry c es) as [[t1|d1]|]; cbn [bind] in Hq;
             [discriminate Hq | now destruct (Hf d1) | discriminate Hq].
      * apply str_eqb_neq in Ek. rewrite find_entry_set_other by assumption.
        split.
        -- intros Hq. right. split; [congruence | exact Hq].
        -- intros [[Hq _]|[_ Hq]]; [congruence | exact Hq].
    + rewrite write_text_step in H.
      destruct (find_entry c es) as [child|] eqn:Ef; [|discriminate H].
      cbn [bind] in H.
      destruct (write_text child (c2 :: p) text) as [child'|] eqn:Ew;
        [|discriminate H].
      cbn [bind] in H. inversion H. subst fs'. clear H.
      destruct q as [|k q].
      { rewrite !lookup_nil. split; [discriminate|].
        intros [[Hq _]|[_ Hq]]; discriminate. }
      rewrite !lookup_cons. destruct (str_eqb k c) eqn:Ek.
      * apply str_eqb_eq in Ek. subst k. rewrite find_entry_set_same, Ef.
        cbn [bind]. rewrite (IH _ _ _ Ew q t). split.
        -- intros [[-> ->]|[Hq Hl]]; [now left|]. right. split; [congruence | exact Hl].
        -- intros [[Hq ->]|[Hq Hl]]; [left; split; congruence|].
           right. split; [congruence | exact Hl].
      * apply str_eqb_neq in Ek. rewrite find_entry_set_other by assumption.
        split.
        -- intros Hq. right. split; [congruence | exact Hq].
        -- intros [[Hq _]|[_ Hq]]; [congruence | exact Hq].
Qed.

(** *** Building a page reads the documentation only *)

Lemma docs_agree_outside (fs fs' : node) :
  same_outside "site" fs fs' -> docs_agree fs fs'.
Proof. intros H. apply (H "docs" []). discriminate. Qed.

Lemma lookup_docs (fs fs' : node) (q : path) :
  docs_agree fs fs' -> lookup fs' (DOCS_DIR ++ q) = lookup fs (DOCS_DIR ++ q).
Proof. intros H. rewrite !lookup_app. now rewrite H. Qed.

Lemma read_text_docs (fs fs' : node) (q : path) :
  docs_agree fs fs' -> read_text fs' (DOCS_DIR ++ q) = read_text fs (DOCS_DIR ++ q).
Proof. intros H. unfold read_text. now rewrite (lookup_docs q H). Qed.

Lemma get_files_in_section_docs (fs fs' : node) (q : path) :
  docs_agree fs fs' ->
  get_files_in_section fs' (DOCS_DIR ++ q) = get_files_in_section fs (DOCS_DIR ++ q).
Proof.
  intros H. unfold get_files_in_section, path_exists, glob_md, path_div.
  rewrite <- !app_assoc. now rewrite !(lookup_docs _ H).
Qed.

Lemma get_files_in_section_child (fs : node) (d f : path) :
  In f (get_files_in_section fs d) -> exists n, f = d ++ [n].
Proof.
  intros Hf. destruct (path_exists fs d) eqn:E.
  - rewrite get_files_in_section_eq in Hf by assumption.
    apply in_app_or in Hf as [Hf|Hf].
    + destruct (path_exists fs (path_div d "README.md")); [|destruct Hf].
      destruct Hf as [<-|[]]. now exists ("README.md" : str).
    + apply in_listed_files in Hf as (n & _ & _ & ->). now exists n.
  - rewrite get_files_in_section_missing in Hf by assumption. destruct Hf.
Qed.

Lemma for_each_ext {A S : Type} (body body' : S -> A -> option S) (l : list A) :
  (forall a, In a l -> forall s, body s a = body' s a) ->
  forall st, for_each body l st = for_each body' l st.
Proof.
  induction l as [|a l IH]; intros H st; [reflexivity|]. cbn [for_each].
  rewrite (H a (or_introl eq_refl)). destruct (body' st a); [|reflexivity].
  cbn [bind]. apply IH. intros b Hb. apply H. now right.
Qed.

Lemma sidebar_entry_docs (fs fs' : node) cur html (e : nav_entry) :
  docs_agree fs fs' -> sidebar_entry fs' cur html e = sidebar_entry fs cur html e.
Proof.
  intros H. destruct e as [[title url] [[|d0 dir]|]]; try reflexivity.
  unfold sidebar_entry, path_div.
  rewrite !(get_files_in_section_docs _ H).
  rewrite (@for_each_ext _ _ (sidebar_child fs' cur) (sidebar_child fs cur));
    [reflexivity|].
  intros f Hf s.
  apply get_files_in_section_child in Hf as [n ->].
  unfold sidebar_child. rewrite <- app_assoc. now rewrite (read_text_docs _ H).
Qed.

Lemma build_sidebar_docs (fs fs' : node) cur :
  docs_agree fs fs' -> build_sidebar fs' cur = build_sidebar fs cur.
Proof.
  intros H. unfold build_sidebar.
  rewrite (@for_each_ext _ _ (sidebar_entry fs' cur) (sidebar_entry fs cur));
    [reflexivity|].
  intros e _ s. now apply sidebar_entry_docs.
Qed.

Lemma build_breadcrumb_docs (fs fs' : node) (filepath : path) :
  docs_agree fs fs' -> build_breadcrumb fs' filepath = build_breadcrumb fs filepath.
Proof.
  intros H. unfold build_breadcrumb.
  destruct (relative_to filepath DOCS_DIR) as [rel|] eqn:E; [|reflexivity].
  apply relative_to_inv in E. subst filepath. cbn [bind].
  now rewrite (read_text_docs _ H).
Qed.

Lemma build_page_docs md_convert (fs fs' : node) (md_path : path) (template : str) :
  docs_agree fs fs' ->
  build_page md_convert fs' md_path template
  = build_page md_convert fs md_path template.
Proof.
  intros H. unfold build_page.
  destruct (md_to_html_path md_path) as [u|] eqn:Eu.
  - destruct (md_to_html_path_some_inv _ Eu) as (rel & -> & _).
    rewrite (read_text_docs _ H).
    destruct (read_text fs (DOCS_DIR ++ rel)) as [content|]; [|reflexivity].
    cbn [bind]. rewrite (build_sidebar_docs _ H).
    now rewrite (build_breadcrumb_docs _ H).
  - destruct (read_text fs' md_path), (read_text fs md_path); reflexivity.
Qed.

(** *** The loop over the Markdown files *)

Lemma bind_run_some {A B : Type} (m : run A) (k : A -> run B) w w' (b : B) :
  bind_run m k w = (w', Some b) ->
  exists w1 a, m w = (w1, Some a) /\ k a w1 = (w', Some b).
Proof.
  unfold bind_run. destruct (m w) as [w1 [a|]]; [|discriminate]. eauto.
Qed.

Lemma attempt_some {A : Type} (f : node -> option A) w w' (a : A) :
  attempt f w = (w', Some a) -> w' = w /\ f (w_fs w) = Some a.
Proof. unfold attempt. intros H. inversion H. auto. Qed.

Lemma update_some (f : node -> option node) w w' (x : unit) :
  update f w = (w', Some x) ->
  exists fs', f (w_fs w) = Some fs' /\ w' = World fs' (w_out w).
Proof.
  unfold update. destruct (f (w_fs w)) as [fs'|]; [|discriminate].
  intros H. inversion H. eauto.
Qed.

Lemma print_some (line : str) w w' (x : unit) :
  print line w = (w', Some x) -> w' = World (w_fs w) (w_out w ++ [line]).
Proof. unfold print. intros H. now inversion H. Qed.

Lemma docs_agree_trans (fs1 fs2 fs3 : node) :
  docs_agree fs1 fs2 -> docs_agree fs2 fs3 -> docs_agree fs1 fs3.
Proof. unfold docs_agree. congruence. Qed.

(** One turn of the loop that ends normally. *)
Lemma main_page_step md_convert (template : str) (fs0 : node) (md_path : path) w w' x :
  docs_agree fs0 (w_fs w) ->
  main_page md_convert template md_path w = (w', Some x) ->
  exists u html,
    md_to_html_path md_path = Some u
    /\ build_page md_convert fs0 md_path template = Some html
    /\ docs_agree fs0 (w_fs w')
    /\ (forall q t,
          lookup (w_fs w') q = Some (File t)
          <-> (q = output_path_of u /\ t = html)
              \/ (q <> output_path_of u /\ lookup (w_fs w) q = Some (File t)))
    /\ w_out w' = w_out w ++ [page_line md_path u].
Proof.
  intros Hd H. unfold main_page in H.
  apply bind_run_some in H as (w1 & u & H1 & H).
  apply attempt_some in H1 as [-> Hu].
  apply bind_run_some in H as (w2 & [] & H2 & H).
  apply update_some in H2 as (fs2 & Hmk & ->).
  apply bind_run_some in H as (w3 & html & H3 & H).
  apply attempt_some in H3 as [-> Hpage]. cbn [w_fs] in Hpage.
  apply bind_run_some in H as (w4 & [] & H4 & H).
  apply update_some in H4 as (fs3 & Hwr & ->). cbn [w_fs w_out] in *.
  apply print_some in H. subst w'. cbn [w_fs w_out].
  assert (Hd2 : docs_agree fs0 fs2).
  { apply docs_agree_trans with (w_fs w); [exact Hd|].
    apply docs_agree_outside.
    apply (@mkdir_outside "site" true (path_parent (output_path_of u))
             (w_fs w) fs2 (output_parent_shape u) Hmk). }
  exists u, html. split; [exact Hu|]. split; [|split; [|split]].
  - now rewrite <- (build_page_docs md_convert md_path template Hd2).
  - apply docs_agree_trans with fs2; [exact Hd2|].
    apply docs_agree_outside.
    unfold output_path_of, OUTPUT_DIR in Hwr. cbn [app] in Hwr.
    now apply write_text_outside in Hwr.
  - intros q t. rewrite (@write_text_files _ _ _ _ Hwr q t).
    now rewrite (@mkdir_files _ _ _ _ Hmk q t).
  - reflexivity.
Qed.

(** The loop, when it ends normally: which files there are afterwards,
    and what was printed. *)
Lemma main_loop md_convert (template : str) (fs0 : node) (l : list path) :
  forall w w' x,
  docs_agree fs0 (w_fs w) ->
  for_each_run (main_page md_convert template) l w = (w', Some x) ->
  docs_agree fs0 (w_fs w')
  /\ (forall q t,
        lookup (w_fs w') q = Some (File t) ->
        lookup (w_fs w) q = Some (File t)
        \/ exists md_path u,
             In md_path l /\ md_to_html_path md_path = Some u
             /\ q = output_path_of u
             /\ build_page md_convert fs0 md_path template = Some t)
  /\ (forall q t,
        lookup (w_fs w) q = Some (File t) ->
        (forall md_path u, In md_path l -> md_to_html_path md_path = Some u ->
                           output_path_of u <> q) ->
        lookup (w_fs w') q = Some (File t))
  /\ exists lines, Forall2 logged l lines /\ w_out w' = w_out w ++ lines.
Proof.
  induction l as [|md_path l IH]; intros w w' x Hd H; cbn [for_each_run] in H.
  - inversion H. subst w'. repeat split; auto.
    exists []. split; [constructor | now rewrite app_nil_r].
  - apply bind_run_some in H as (w1 & [] & Hstep & Hrest).
    destruct (@main_page_step md_convert template fs0 md_path w w1 tt Hd Hstep)
      as (u & html & Hu & Hpage & Hd1 & Hfiles & Hout).
    destruct (IH w1 w' x Hd1 Hrest) as (Hd' & Hnew & Hkeep & lines & Hlog & Hout').
    split; [exact Hd'|]. split; [|split].
    + intros q t Hq. destruct (Hnew q t Hq) as [Hq1|(m & v & Hm & Hv & -> & Hb)].
      * apply Hfiles in Hq1 as [[-> ->]|[_ Hq0]]; [|now left].
        right. exists md_path, u. repeat split; auto. now left.
      * right. exists m, v. repeat split; auto. now right.
    + intros q t Hq Hother. apply Hkeep.
      * apply Hfiles. right. split; [|exact Hq].
        intros ->. now apply (Hother md_path u (or_introl eq_refl) Hu).
      * intros m v Hm. apply Hother. now right.
    + exists (page_line md_path u :: lines). split.
      * constructor; [now exists u | exact Hlog].
      * rewrite Hout', Hout, <- app_assoc. reflexivity.
Qed.

Lemma for_each_run_app {A : Type} (body : A -> run unit) (l1 l2 : list A) :
  forall w w' x,
  for_each_run body (l1 ++ l2) w = (w', Some x) ->
  exists w1, for_each_run body l1 w = (w1, Some tt)
             /\ for_each_run body l2 w1 = (w', Some x).
Proof.
  induction l1 as [|a l1 IH]; intros w w' x H; cbn [app for_each_run] in *.
  - now exists w.
  - apply bind_run_some in H as (w0 & [] & Ha & H).
    apply IH in H as (w1 & H1 & H2). exists w1. split; [|exact H2].
    unfold bind_run. now rewrite Ha.
Qed.

Lemma rglob_md_docs (fs fs' : node) :
  docs_agree fs fs' -> rglob_md fs' DOCS_DIR = rglob_md fs DOCS_DIR.
Proof. intros H. unfold rglob_md. now rewrite H. Qed.

Lemma main_root_is_file (md_convert : str -> str) (t : str) (out : list str) :
  ~ succeeded (main md_convert (World (File t) out)).
Proof. unfold succeeded. cbn. congruence. Qed.

(** A run of [main] that ends normally: the output directory was
    emptied, the template read, and the loop ran to its end. *)
Lemma main_success (md_convert : str -> str) (w : world) :
  succeeded (main md_convert w) ->
  exists fs1 template w2,
    same_outside "site" (w_fs w) fs1
    /\ lookup fs1 OUTPUT_DIR = Some (Dir [])
    /\ read_text (w_fs w) TEMPLATE_FILE = Some template
    /\ for_each_run (main_page md_convert template) (rglob_md (w_fs w) DOCS_DIR)
         (World fs1 (w_out w ++ [START_LINE;
                                 FOUND_LINE (length (rglob_md (w_fs w) DOCS_DIR))]))
       = (w2, Some tt)
    /\ final (main md_convert w) = World (w_fs w2) (w_out w2 ++ [COMPLETE_LINE]).
Proof.
  destruct w as [[t|es] out]; intros Hs; [now apply main_root_is_file in Hs|].
  assert (Hfile : forall t, lookup (Dir es) OUTPUT_DIR <> Some (File t)).
  { intros t E. unfold OUTPUT_DIR in E. rewrite lookup_top in E.
    rewrite (@main_file_in_way md_convert es out t E) in Hs.
    now apply Hs. }
  destruct (@main_cleans md_convert es out Hfile) as (fs1 & Hout & Hsite & Hmain).
  rewrite Hmain in *. clear Hmain. cbn [w_fs w_out].
  pose proof (docs_agree_outside Hout) as Hd.
  destruct (build_all md_convert (World fs1 (out ++ [START_LINE])))
    as [w' [[]|]] eqn:E; [|now destruct Hs].
  unfold build_all in E.
  apply bind_run_some in E as (w1 & template & H1 & E).
  apply attempt_some in H1 as [-> Htpl]. cbn [w_fs] in Htpl.
  apply bind_run_some in E as (w1 & md_files & H1 & E).
  apply attempt_some in H1 as [-> Hfiles]. cbn [w_fs] in Hfiles.
  inversion Hfiles as [Hmd]. clear Hfiles.
  apply bind_run_some in E as (w1 & [] & H1 & E).
  apply print_some in H1. cbn [w_fs w_out] in H1. subst w1.
  apply bind_run_some in E as (w2 & [] & Hloop & E).
  apply print_some in E.
  rewrite (rglob_md_docs Hd) in *. subst md_files.
  exists fs1, template, w2. repeat split; try assumption.
  - rewrite <- Htpl. symmetry.
    unfold TEMPLATE_FILE, TEMPLATE_DIR, path_div. cbn [app].
    apply (read_text_outside _ Hout). discriminate.
  - rewrite <- app_assoc in Hloop. exact Hloop.
Qed.

Lemma read_text_file (fs : node) (p : path) (t : str) :
  lookup fs p = Some (File t) -> read_text fs p = Some t.
Proof. unfold read_text. now intros ->. Qed.

(** X21.  After a run that ends normally, the page of a Markdown file is
    in the output directory, at the path made from the file's address,
    unless a file found later is given the same output path: it holds
    what [build_page] makes of the file in the tree as it was before the
    run, with the template as it was. *)
Theorem main_writes_page
    (md_convert : str -> str) (w : world)
    (before after : list path) (md_path : path) (u : str) :
  succeeded (main md_convert w) ->
  rglob_md (w_fs w) DOCS_DIR = before ++ md_path :: after ->
  md_to_html_path md_path = Some u ->
  (forall md_path' u', In md_path' after -> md_to_html_path md_path' = Some u' ->
                       output_path_of u' <> output_path_of u) ->
  exists template html,
    read_text (w_fs w) TEMPLATE_FILE = Some template
    /\ build_page md_convert (w_fs w) md_path template = Some html
    /\ read_text (w_fs (final (main md_convert w))) (output_path_of u) = Some html.
Proof.
  intros Hs Hfiles Hu Hlast.
  destruct (main_success md_convert w Hs)
    as (fs1 & template & w2 & Hout & _ & Htpl & Hloop & ->).
  rewrite Hfiles in Hloop. cbn [w_fs].
  apply for_each_run_app in Hloop as (wa & Hbefore & Hloop).
  cbn [for_each_run] in Hloop.
  apply bind_run_some in Hloop as (wb & [] & Hstep & Hafter).
  pose proof (docs_agree_outside Hout) as Hd.
  apply (@main_loop md_convert template (w_fs w)) in Hbefore as (Hda & _);
    [|exact Hd].
  destruct (@main_page_step md_convert template (w_fs w) md_path wa wb tt Hda Hstep)
    as (u0 & html & Hu0 & Hpage & Hdb & Hfile & _).
  assert (u0 = u) by congruence. subst u0.
  apply (@main_loop md_convert template (w_fs w)) in Hafter
    as (_ & _ & Hkeep & _); [|exact Hdb].
  exists template, html. split; [exact Htpl|]. split; [exact Hpage|].
  apply read_text_file. apply Hkeep.
  - apply Hfile. now left.
  - exact Hlast.
Qed.

Lemma main_writes_page_witness :
  exists template html,
    read_text (w_fs site_example) TEMPLATE_FILE = Some template
    /\ build_page render_paragraph (w_fs site_example)
         [("docs" : str); ("index.md" : str)] template = Some html
    /\ read_text (w_fs (final (main render_paragraph site_example)))
         (output_path_of "index.html") = Some html.
Proof.
  apply (@main_writes_page render_paragraph site_example []
           [ [("docs" : str); ("getting-started" : str); ("install.md" : str)];
             [("docs" : str); ("getting-started" : str); ("README.md" : str)] ]
           [("docs" : str); ("index.md" : str)] "index.html").
  - unfold succeeded. vm_compute. discriminate.
  - reflexivity.
  - reflexivity.
  - intros md' u' [<-|[<-|[]]] Hu'; vm_compute in Hu'; inversion Hu';
      vm_compute; discriminate.
Defined.

(** X22.  After a run that ends normally the output directory holds
    pages of this run only: every file in it is the page of a Markdown
    file found below "docs", at that file's output path.  Nothing of an
    earlier build is left. *)
Theorem main_site_fresh
    (md_convert : str -> str) (w : world) (q : path) (t : str) :
  succeeded (main md_convert w) ->
  lookup (w_fs (final (main md_convert w))) (OUTPUT_DIR ++ q) = Some (File t) ->
  exists template md_path u,
    read_text (w_fs w) TEMPLATE_FILE = Some template
    /\ In md_path (rglob_md (w_fs w) DOCS_DIR)
    /\ md_to_html_path md_path = Some u
    /\ output_path_of u = OUTPUT_DIR ++ q
    /\ build_page md_convert (w_fs w) md_path template = Some t.
Proof.
  intros Hs.
  destruct (main_success md_convert w Hs)
    as (fs1 & template & w2 & Hout & Hsite & Htpl & Hloop & ->).
  cbn [w_fs]. intros Hq.
  pose proof (docs_agree_outside Hout) as Hd.
  apply (@main_loop md_convert template (w_fs w)) in Hloop as (_ & Hnew & _);
    [|exact Hd].
  destruct (Hnew _ _ Hq) as [Hold|(md_path & u & Hin & Hu & Hpath & Hpage)].
  - cbn [w_fs] in Hold. rewrite lookup_app, Hsite in Hold. cbn [bind] in Hold.
    now apply lookup_empty_dir in Hold.
  - exists template, md_path, u. repeat split; auto.
Qed.

Lemma main_site_fresh_witness :
  exists template md_path u,
    read_text (w_fs site_example) TEMPLATE_FILE = Some template
    /\ In md_path (rglob_md (w_fs site_example) DOCS_DIR)
    /\ md_to_html_path md_path = Some u
    /\ output_path_of u = OUTPUT_DIR ++ [("getting-started" : str); ("index.html" : str)]
    /\ build_page render_paragraph (w_fs site_example) md_path template
       = Some ("<h1>Getting Started</h1><p>See [a](install.html)</p>" : str).
Proof.
  apply (@main_site_fresh render_paragraph site_example
           [("getting-started" : str); ("index.html" : str)]).
  - unfold succeeded. vm_compute. discriminate.
  - vm_compute. reflexivity.
Defined.

(** X23.  A run that ends normally prints the opening line, the number
    of Markdown files found, one line per file in the order they were
    found, and the closing line. *)
Theorem main_log (md_convert : str -> str) (w : world) :
  succeeded (main md_convert w) ->
  exists lines,
    Forall2 logged (rglob_md (w_fs w) DOCS_DIR) lines
    /\ w_out (final (main md_convert w))
       = w_out w
         ++ [START_LINE; FOUND_LINE (length (rglob_md (w_fs w) DOCS_DIR))]
         ++ lines ++ [COMPLETE_LINE].
Proof.
  intros Hs.
  destruct (main_success md_convert w Hs)
    as (fs1 & template & w2 & Hout & _ & _ & Hloop & ->).
  pose proof (docs_agree_outside Hout) as Hd.
  apply (@main_loop md_convert template (w_fs w)) in Hloop
    as (_ & _ & _ & lines & Hlog & Hlines); [|exact Hd].
  exists lines. split; [exact Hlog|]. cbn [w_out] in *.
  rewrite Hlines. now rewrite <- !app_assoc.
Qed.

Lemma main_log_witness :
  exists lines,
    Forall2 logged (rglob_md (w_fs site_example) DOCS_DIR) lines
    /\ w_out (final (main render_paragraph site_example))
       = w_out site_example
         ++ [START_LINE; FOUND_LINE (length (rglob_md (w_fs site_example) DOCS_DIR))]
         ++ lines ++ [COMPLETE_LINE].
Proof.
  apply main_log. unfold succeeded. vm_compute. discriminate.
Defined.

(* ================================================================= *)
(** ** Finding the Markdown files *)

Lemma rglob_md_in_dir (es : list (str * node)) (p : path) :
  rglob_md_in (Dir es) p
  = map (fun e => path_div p (fst e)) (filter (fun e => endswith ".md" (fst e)) es)
    ++ flat_map (fun e => rglob_md_in (snd e) (path_div p (fst e))) es.
Proof.
  cbn [rglob_md_in]. f_equal.
  induction es as [|[name child] es IH]; [reflexivity|].
  cbn [flat_map fst snd]. now rewrite IH.
Qed.

Lemma find_entry_in (c : str) (es : list (str * node)) (child : node) :
  find_entry c es = Some child -> In (c, child) es.
Proof.
  induction es as [|[k v] es IH]; [discriminate|]. cbn [find_entry].
  destruct (str_eqb k c) eqn:E.
  - apply str_eqb_eq in E. subst k. intros H. inversion H. now left.
  - intros H. right. now apply IH.
Qed.

Lemma rglob_md_in_complete (n : str) (es : list (str * node)) (D : path) :
  forall root p,
  lookup root D = Some (Dir es) ->
  In n (map fst es) -> endswith ".md" n = true ->
  In (p ++ D ++ [n]) (rglob_md_in root p).
Proof.
  induction D as [|c D IH]; intros root p Hl Hn He.
  - rewrite lookup_nil in Hl. inversion Hl. subst root.
    rewrite rglob_md_in_dir. apply in_or_app. left.
    apply in_map_iff in Hn as (e & <- & Hin).
    apply in_map_iff. exists e. split; [reflexivity|].
    apply filter_In. now split.
  - destruct root as [t|es0]; [discriminate Hl|].
    rewrite lookup_cons in Hl.
    destruct (find_entry c es0) as [child|] eqn:Ef; [|discriminate Hl].
    cbn [bind] in Hl. rewrite rglob_md_in_dir. apply in_or_app. right.
    apply in_flat_map. exists (c, child). split; [now apply find_entry_in|].
    cbn [fst snd]. unfold path_div.
    replace (p ++ (c :: D) ++ [n]) with ((p ++ [c]) ++ D ++ [n])
      by (now rewrite <- app_assoc).
    now apply IH.
Qed.

(** X24.  Every entry named "*.md" of the documentation directory or of a
    directory below it, at any depth, is among the files [main] works
    on. *)
Theorem rglob_md_complete
    (fs : node) (D : path) (es : list (str * node)) (n : str) :
  lookup fs (DOCS_DIR ++ D) = Some (Dir es) ->
  In n (map fst es) -> endswith ".md" n = true ->
  In (DOCS_DIR ++ D ++ [n]) (rglob_md fs DOCS_DIR).
Proof.
  intros Hl Hn He. unfold rglob_md. rewrite lookup_app in Hl.
  destruct (lookup fs DOCS_DIR) as [root|]; [|discriminate Hl].
  cbn [bind] in Hl. now apply rglob_md_in_complete with es.
Qed.

Lemma rglob_md_complete_witness :
  In (DOCS_DIR ++ ["getting-started" : str] ++ ["install.md" : str])
     (rglob_md (w_fs site_example) DOCS_DIR).
Proof.
  apply (@rglob_md_complete (w_fs site_example) ["getting-started" : str]
           [ ("install.md" : str, File "# Install");
             ("README.md" : str, File "See [a](install.md)") ]).
  - reflexivity.
  - now left.
  - reflexivity.
Defined.

(** Induction on a file tree. *)
Lemma node_induction (P : node -> Prop) :
  (forall t, P (File t)) ->
  (forall es, Forall (fun e => P (snd e)) es -> P (Dir es)) ->
  forall n, P n.
Proof.
  intros HF HD. fix IH 1. intros [t|es]; [apply HF|]. apply HD.
  induction es as [|[name child] es IHes]; constructor; [apply IH | exact IHes].
Qed.

Lemma rglob_md_in_shape (root : node) : forall p f,
  In f (rglob_md_in root p) ->
  exists D n, f = p ++ D ++ [n] /\ endswith ".md" n = true.
Proof.
  induction root as [t|es IH] using node_induction; intros p f Hf; [destruct Hf|].
  rewrite rglob_md_in_dir in Hf. apply in_app_or in Hf as [Hf|Hf].
  - apply in_map_iff in Hf as (e & <- & He). apply filter_In in He as [_ He].
    exists [], (fst e). now split.
  - apply in_flat_map in Hf as (e & He & Hf).
    rewrite Forall_forall in IH.
    destruct (IH e He _ _ Hf) as (D & n & -> & Hn).
    exists (fst e :: D), n. split; [|exact Hn].
    unfold path_div. now rewrite <- app_assoc.
Qed.

(** X25.  Every path [main] works on lies below "docs" and ends in a name
    that ends with ".md", so [md_to_html_path] has a result for it: the
    loop never stops for want of an address. *)
Theorem rglob_md_addressed (fs : node) (f : path) :
  In f (rglob_md fs DOCS_DIR) ->
  (exists D n, f = DOCS_DIR ++ D ++ [n] /\ endswith ".md" n = true)
  /\ md_to_html_path f <> None.
Proof.
  unfold rglob_md. destruct (lookup fs DOCS_DIR) as [root|]; [|intros []].
  intros Hf. apply rglob_md_in_shape in Hf as (D & n & -> & Hn).
  split; [now exists D, n|].
  destruct (@md_to_html_path_some (D ++ [n])) as [u ->]; [|discriminate].
  rewrite path_name_snoc. intros ->. discriminate Hn.
Qed.

Lemma rglob_md_addressed_witness :
  (exists D n,
     [("docs" : str); ("getting-started" : str); ("README.md" : str)]
     = DOCS_DIR ++ D ++ [n] /\ endswith ".md" n = true)
  /\ md_to_html_path [("docs" : str); ("getting-started" : str); ("README.md" : str)]
     <> None.
Proof.
  apply (@rglob_md_addressed (w_fs site_example)).
  vm_compute. auto.
Defined.

(* ================================================================= *)
(** ** Where a page is written *)

Lemma split_slash_part (a : str) : no_slash a -> split_slash a = [a].
Proof.
  induction a as [|x a IH]; intros Ha; [reflexivity|]. cbn [split_slash].
  destruct (Ascii.eqb_spec x "/"%char) as [->|Hx]; [exfalso; apply Ha; now left|].
  rewrite IH; [reflexivity|]. intros H. apply Ha. now right.
Qed.

Lemma split_slash_app (a s : str) :
  no_slash a -> split_slash (a ++ "/"%char :: s) = a :: split_slash s.
Proof.
  induction a as [|x a IH]; intros Ha; [reflexivity|]. cbn [app split_slash].
  destruct (Ascii.eqb_spec x "/"%char) as [->|Hx]; [exfalso; apply Ha; now left|].
  rewrite IH; [reflexivity|]. intros H. apply Ha. now right.
Qed.

Lemma split_slash_join (parts : list str) :
  parts <> [] -> Forall no_slash parts -> split_slash (join "/" parts) = parts.
Proof.
  induction parts as [|a parts IH]; intros Hne Hall; [congruence|].
  inversion Hall as [|? ? Ha Hrest]; subst.
  destruct parts as [|b parts].
  - cbn [join]. now apply split_slash_part.
  - change (join "/" (a :: b :: parts)) with (a ++ "/"%char :: join "/" (b :: parts)).
    rewrite split_slash_app by assumption. f_equal. apply IH; [discriminate | assumption].
Qed.

Lemma parse_path_join (parts : list str) :
  parts <> [] -> Forall valid_part parts -> parse_path (join "/" parts) = parts.
Proof.
  intros Hne Hall. unfold parse_path. rewrite split_slash_join.
  - clear Hne. induction Hall as [|a parts (Ha & Hdot & _) _ IH]; [reflexivity|].
    cbn [filter].
    replace (str_eqb a []) with false by (symmetry; now apply str_eqb_neq).
    replace (str_eqb a ".") with false by (symmetry; now apply str_eqb_neq).
    cbn [negb andb]. now rewrite IH.
  - exact Hne.
  - apply (Forall_impl _ (P := valid_part)); [|exact Hall]. now intros a (_ & _ & Ha).
Qed.

Lemma page_name_valid (S : str) : no_slash S -> valid_part (page_stem S ++ ".html").
Proof.
  intros HS. split; [|split].
  - intros H. apply app_eq_nil in H as [_ H]. discriminate H.
  - intros H. apply (f_equal (@length ascii)) in H. rewrite length_app in H.
    cbn in H. lia.
  - now apply page_stem_no_slash.
Qed.

(** X26.  The page of the Markdown file S.md in the directory D below
    "docs" is written to the same directory below "site", under the name
    S.html, or index.html for a README. *)
Theorem output_path_of_file (D : path) (S u : str) :
  Forall valid_part D -> S <> [] -> no_slash S ->
  md_to_html_path (DOCS_DIR ++ D ++ [S ++ ".md"]) = Some u ->
  output_path_of u = OUTPUT_DIR ++ D ++ [page_stem S ++ ".html"].
Proof.
  intros HD HS Hno Hu. rewrite md_to_html_path_join in Hu by assumption.
  inversion Hu. unfold output_path_of. f_equal. apply parse_path_join.
  - now destruct D.
  - apply Forall_app. split; [exact HD|].
    constructor; [now apply page_name_valid | constructor].
Qed.

Lemma output_path_of_file_witness :
  output_path_of "getting-started/index.html"
  = OUTPUT_DIR ++ ["getting-started" : str] ++ [page_stem "README" ++ ".html"].
Proof.
  apply (@output_path_of_file ["getting-started" : str] "README").
  - constructor; [|constructor]. split; [discriminate|]. split; [discriminate|].
    intros H. cbn in H. intuition discriminate.
  - discriminate.
  - intros H. cbn in H. intuition discriminate.
  - reflexivity.
Defined.
